(** * Folder statistics of the infinite-image-browsing extension

    A shallow embedding of [scripts/iib/folder_stats.py] (the statistics
    aggregator and its text analysis) and [scripts/iib/folder_stats_bg.py]
    (the background job scheduler), with the properties their specification
    states about them.

    Conventions.
    - Python [int] is [Z]; [str] is [string], ASCII text a byte for a
      character; [Optional[T]] is [option T]; [Set[str]] is [gset string]; a
      dict with a fixed key set is a record, a key that may be absent an
      [option] field.
    - The words of a prompt are read over the characters of a text, which
      [string] holds as UTF-8 bytes, with the Unicode database of the host
      ([Unicode]); paths, settings and the metadata patterns are modelled on
      ASCII text.
    - A call that may raise returns a [Result]; [try ... except Exception]
      is a [match] on it.
    - [os.path] is modelled by its POSIX flavour ([posixpath]).
    - The catalog (an SQLite connection) is a record of tables; the
      statements the code executes are evaluated over it by [Catalog]. *)

From Stdlib Require Import ZArith QArith String Ascii List Bool Lia Permutation Sorted.
From Stdlib Require Import Floats.SpecFloat.
From stdpp Require Import base gmap strings list.
Import ListNotations.
Local Open Scope string_scope.
Local Open Scope list_scope.
Local Open Scope Z_scope.
Set Warnings "-register-all,-clear-no-such-hyp".

(** ** Exceptions *)

Inductive Exception :=
| ValueError (msg : string)
| AttributeError (msg : string)
| TypeError (msg : string)
| OSError (msg : string)
| DatabaseError (msg : string).

(** [str(e)] *)
Definition str_of_exception (e : Exception) : string :=
  match e with
  | ValueError m | AttributeError m | TypeError m | OSError m | DatabaseError m => m
  end.

Inductive Result (A : Type) :=
| Ok (a : A)
| Raise (e : Exception).
Arguments Ok {A} a.
Arguments Raise {A} e.

#[global] Instance result_ret : MRet Result := fun A a => Ok a.
#[global] Instance result_bind : MBind Result := fun A B k r =>
  match r with
  | Ok a => k a
  | Raise e => Raise e
  end.

#[global] Instance result_fmap : FMap Result := fun A B f r =>
  match r with
  | Ok a => Ok (f a)
  | Raise e => Raise e
  end.

Definition raises {A} (r : Result A) : bool :=
  match r with Ok _ => false | Raise _ => true end.

(** ** Strings *)

Module Str.

(** [s.startswith(p)] *)
Fixpoint startswith (p s : string) : bool :=
  match p, s with
  | EmptyString, _ => true
  | String a p', String b s' => Ascii.eqb a b && startswith p' s'
  | String _ _, EmptyString => false
  end.

(** [s.split(sep)] for a separator of one character *)
Fixpoint split_char (sep : ascii) (s : string) : list string :=
  match s with
  | EmptyString => [EmptyString]
  | String c s' =>
      if bool_decide (c = sep) then EmptyString :: split_char sep s'
      else match split_char sep s' with
           | [] => [String c EmptyString]
           | w :: ws => String c w :: ws
           end
  end.

(** [sep.join(parts)] for a separator of one character *)
Fixpoint join_char (sep : ascii) (parts : list string) : string :=
  match parts with
  | [] => ""
  | w :: ws =>
      match ws with
      | [] => w
      | _ :: _ => w +:+ String sep (join_char sep ws)
      end
  end.

(** [needle in s], and [s.split(needle)[0]]: the text before the first
    occurrence of [needle] ([s] itself when there is none). *)
Fixpoint contains (needle s : string) : bool :=
  startswith needle s ||
  match s with
  | EmptyString => false
  | String _ s' => contains needle s'
  end.

Fixpoint split_head (needle s : string) : string :=
  if startswith needle s then ""
  else match s with
       | EmptyString => ""
       | String c s' => String c (split_head needle s')
       end.

(** [c.lower()] and [s.lower()] on ASCII *)
Definition is_upper (c : ascii) : bool :=
  let n := nat_of_ascii c in (65 <=? n)%nat && (n <=? 90)%nat.

Definition lower_char (c : ascii) : ascii :=
  if is_upper c then ascii_of_nat (nat_of_ascii c + 32) else c.

Fixpoint lower (s : string) : string :=
  match s with
  | EmptyString => EmptyString
  | String c s' => String (lower_char c) (lower s')
  end.

(** [s.strip()], [space] being the class of blanks *)
Fixpoint lstrip (space : ascii → bool) (s : string) : string :=
  match s with
  | String c s' => if space c then lstrip space s' else s
  | EmptyString => s
  end.

Fixpoint rstrip (space : ascii → bool) (s : string) : string :=
  match s with
  | String c s' =>
      match rstrip space s' with
      | EmptyString => if space c then "" else String c ""
      | r => String c r
      end
  | EmptyString => s
  end.

Definition strip (space : ascii → bool) (s : string) : string :=
  rstrip space (lstrip space s).

(** [s[n:]] *)
Fixpoint drop (n : nat) (s : string) : string :=
  match n, s with
  | O, _ => s
  | S n', String _ s' => drop n' s'
  | S _, EmptyString => EmptyString
  end.

(** [all_chars p s]: every character of [s] is in the class [p]. *)
Fixpoint all_chars (p : ascii → bool) (s : string) : bool :=
  match s with
  | EmptyString => true
  | String c s' => p c && all_chars p s'
  end.

(** [occur_in_order ws s]: the words [ws] are pieces of [s], from left to
    right, none overlapping another. *)
Fixpoint occur_in_order (ws : list string) (s : string) : Prop :=
  match ws with
  | [] => True
  | w :: ws' => ∃ pre post, s = pre +:+ w +:+ post ∧ occur_in_order ws' post
  end.

(** [no_char sep s]: [sep] does not occur in [s]. *)
Fixpoint no_char (sep : ascii) (s : string) : Prop :=
  match s with
  | EmptyString => True
  | String c s' => c ≠ sep ∧ no_char sep s'
  end.

Lemma append_cons c (s t : string) : String c s +:+ t = String c (s +:+ t).
Proof. done. Qed.

Lemma append_nil_l (t : string) : "" +:+ t = t.
Proof. done. Qed.

Lemma append_nil_r (s : string) : s +:+ "" = s.
Proof. induction s as [|c s IH]; [done|]. by rewrite append_cons, IH. Qed.

Lemma append_assoc (s t u : string) : (s +:+ t) +:+ u = s +:+ (t +:+ u).
Proof. induction s as [|c s IH]; [done|]. by rewrite !append_cons, IH. Qed.

Lemma startswith_append (w s : string) : startswith w (w +:+ s) = true.
Proof.
  induction w as [|c w IH]; [done|]. rewrite append_cons. simpl.
  by rewrite Ascii.eqb_refl.
Qed.


Lemma drop_append (w s : string) : drop (String.length w) (w +:+ s) = s.
Proof. induction w as [|c w IH]; [done|]. by rewrite append_cons. Qed.

Lemma all_chars_append p (s t : string) :
  all_chars p (s +:+ t) = all_chars p s && all_chars p t.
Proof.
  induction s as [|c s IH]; [done|]. rewrite append_cons. simpl.
  by rewrite IH, andb_assoc.
Qed.

Lemma occur_in_order_cons ws c s :
  occur_in_order ws s → occur_in_order ws (String c s).
Proof.
  destruct ws as [|w ws]; [done|]. intros (pre & post & -> & Hws).
  by exists (String c pre), post.
Qed.

Lemma occur_in_order_each ws s :
  occur_in_order ws s → Forall (fun w => ∃ pre post, s = pre +:+ w +:+ post) ws.
Proof.
  revert s. induction ws as [|w ws IH]; intros s; [constructor|].
  intros (pre & post & -> & Hws). constructor; [by exists pre, post|].
  eapply Forall_impl; [apply (IH post Hws)|]. intros w' (pre' & post' & ->).
  exists (pre +:+ w +:+ pre'), post'. by rewrite !append_assoc.
Qed.



Lemma split_char_nonempty sep s : split_char sep s ≠ [].
Proof.
  destruct s as [|c s]; simpl; [done|]. case_bool_decide; [done|].
  by destruct (split_char sep s).
Qed.

Lemma split_char_no_char sep s : Forall (no_char sep) (split_char sep s).
Proof.
  induction s as [|c s IH]; simpl.
  - by repeat constructor.
  - case_bool_decide.
    + by constructor.
    + destruct (split_char sep s) as [|w ws]; [by repeat constructor|].
      inversion IH; subst. by constructor.
Qed.

Lemma split_char_word sep w : no_char sep w → split_char sep w = [w].
Proof.
  induction w as [|c w IH]; simpl; [done|]. intros [Hc Hw].
  rewrite bool_decide_eq_false_2 by done. by rewrite IH.
Qed.

Lemma split_char_word_sep sep w s :
  no_char sep w → split_char sep (w +:+ String sep s) = w :: split_char sep s.
Proof.
  induction w as [|c w IH]; simpl.
  - intros _. by rewrite bool_decide_eq_true_2.
  - intros [Hc Hw]. rewrite bool_decide_eq_false_2 by done. by rewrite IH.
Qed.

(** Splitting undoes joining, when no part holds the separator. *)
Lemma split_join_char sep l :
  Forall (no_char sep) l → l ≠ [] → split_char sep (join_char sep l) = l.
Proof.
  induction l as [|w ws IH]; [done|]. intros Hl _.
  inversion Hl as [|? ? Hw Hws]; subst. simpl.
  destruct ws as [|w' ws']; [by apply split_char_word|].
  rewrite split_char_word_sep by done. by rewrite IH.
Qed.

End Str.

(** ** [os.path] on a POSIX host *)

Module posixpath.

Definition sep : string := "/".
Definition curdir : string := ".".
Definition pardir : string := "..".

(** [s.split('/')] and ['/'.join(comps)] *)
Definition split_sep : string → list string := Str.split_char "/".
Definition join_sep : list string → string := Str.join_char "/".

(** ['/' * n] *)
Fixpoint slashes (n : nat) : string :=
  match n with
  | O => ""
  | S n' => String "/" (slashes n')
  end.

(** The number of leading slashes [normpath] keeps: POSIX allows one or two
    initial slashes, three or more are one. *)
Definition initial_slashes (path : string) : nat :=
  if Str.startswith "/" path then
    if Str.startswith "//" path && negb (Str.startswith "///" path) then 2%nat else 1%nat
  else 0%nat.

(** One turn of the loop over [comps]; [new_comps] is the list built so far. *)
Definition norm_step (init : nat) (new_comps : list string) (comp : string) : list string :=
  if bool_decide (comp = "" ∨ comp = ".") then new_comps
  else if bool_decide (comp ≠ "..")
          || (bool_decide (init = 0%nat) && bool_decide (new_comps = []))
          || (bool_decide (new_comps ≠ []) && bool_decide (last new_comps = Some ".."))
  then new_comps ++ [comp]
  else if bool_decide (new_comps ≠ []) then removelast new_comps
  else new_comps.

Definition normpath (path : string) : string :=
  if bool_decide (path = "") then "."
  else
    let init := initial_slashes path in
    let comps := fold_left (norm_step init) (split_sep path) [] in
    let path := slashes init +:+ join_sep comps in
    if bool_decide (path = "") then "." else path.

Definition isabs (s : string) : bool := Str.startswith "/" s.

(** [os.path.join(a, b)] *)
Definition join (a b : string) : string :=
  if Str.startswith "/" b then b
  else if bool_decide (a = "") || String.eqb (String.substring (String.length a - 1) 1 a) "/"
  then a +:+ b
  else a +:+ "/" +:+ b.

(** [os.path.abspath], for the working directory [cwd] of the process. *)
Definition abspath (cwd path : string) : string :=
  normpath (if isabs path then path else join cwd path).

Fixpoint commonprefix_len (a b : list string) : nat :=
  match a, b with
  | x :: a', y :: b' => if bool_decide (x = y) then S (commonprefix_len a' b') else O
  | _, _ => O
  end.

(** [os.path.relpath(path, start)] *)
Definition relpath (cwd path start : string) : Result string :=
  if bool_decide (path = "") then Raise (ValueError "no path specified")
  else
    let nonempty := filter (fun x : string => x ≠ "") in
    let start_list := nonempty (split_sep (abspath cwd start)) in
    let path_list := nonempty (split_sep (abspath cwd path)) in
    let i := commonprefix_len start_list path_list in
    let rel_list := replicate (length start_list - i) pardir ++ drop i path_list in
    match rel_list with
    | [] => Ok curdir
    | _ => Ok (join_sep rel_list)
    end.

(** *** [normpath] is idempotent *)

Definition no_slash : string → Prop := Str.no_char "/".

(** A path component that survives normalisation, [..] apart. *)
Definition name (w : string) : Prop :=
  w ≠ "" ∧ w ≠ "." ∧ w ≠ ".." ∧ no_slash w.

(** The component lists [normpath] builds: some [..] (none below a root),
    then names. *)
Definition shape (init : nat) (l : list string) : Prop :=
  ∃ (j : nat) (nn : list string),
    l = replicate j ".." ++ nn ∧ Forall name nn ∧ (init ≠ 0%nat → j = 0%nat).

Lemma split_sep_no_slash s : Forall no_slash (split_sep s).
Proof. apply Str.split_char_no_char. Qed.

Lemma split_join_sep l :
  Forall no_slash l → l ≠ [] → split_sep (join_sep l) = l.
Proof. apply Str.split_join_char. Qed.

Lemma name_no_slash w : name w → no_slash w.
Proof. by intros (_ & _ & _ & ?). Qed.

Lemma shape_no_slash init l : shape init l → Forall no_slash l.
Proof.
  intros (j & nn & -> & Hnn & _). apply Forall_app. split.
  - apply Forall_replicate. simpl. split_and!; done.
  - eapply Forall_impl; [done|]. apply name_no_slash.
Qed.

Lemma shape_nil init : shape init [].
Proof. by exists 0%nat, []. Qed.

Lemma last_replicate_S {A} j (x : A) : last (replicate (S j) x) = Some x.
Proof. by rewrite replicate_S_end, last_snoc. Qed.

(** What a turn of the loop does, case by case. *)
Lemma norm_step_skip init l comp : comp = "" ∨ comp = "." → norm_step init l comp = l.
Proof. intros ?. unfold norm_step. by rewrite bool_decide_eq_true_2. Qed.

Lemma norm_step_name init l comp : name comp → norm_step init l comp = l ++ [comp].
Proof.
  intros (H1 & H2 & H3 & _). unfold norm_step.
  rewrite bool_decide_eq_false_2 by (by intros [?|?]).
  by rewrite (bool_decide_eq_true_2 (comp ≠ "..")).
Qed.

Lemma norm_step_dots init l :
  norm_step init l ".." =
    if bool_decide (l = []) then (if bool_decide (init = 0%nat) then [".."] else [])
    else if bool_decide (last l = Some "..") then l ++ [".."] else removelast l.
Proof.
  unfold norm_step.
  rewrite (bool_decide_eq_false_2 (".." = "" ∨ ".." = ".")) by (by intros [?|?]).
  rewrite (bool_decide_eq_false_2 (".." ≠ "..")) by (by intros ?).
  destruct (decide (l = [])) as [->|Hl].
  - rewrite (bool_decide_eq_true_2 ([] = [])) by done.
    rewrite (bool_decide_eq_false_2 ([] ≠ [])) by (by intros ?).
    by case_bool_decide.
  - rewrite (bool_decide_eq_false_2 (l = [])) by done.
    rewrite (bool_decide_eq_true_2 (l ≠ [])) by done.
    rewrite andb_false_r. simpl. by case_bool_decide.
Qed.

Lemma norm_step_shape init l comp :
  no_slash comp → shape init l → shape init (norm_step init l comp).
Proof.
  intros Hc (j & nn & -> & Hnn & Hj).
  destruct (decide (comp = "" ∨ comp = ".")) as [Hskip|Hskip].
  { rewrite norm_step_skip by done. by exists j, nn. }
  destruct (decide (comp = "..")) as [->|Hdots].
  - rewrite norm_step_dots.
    destruct nn as [|n nn' _] using rev_ind.
    + rewrite app_nil_r. destruct j as [|j].
      * rewrite (bool_decide_eq_true_2 (replicate 0 ".." = [])) by done.
        case_bool_decide; [by exists 1%nat, []|apply shape_nil].
      * rewrite (bool_decide_eq_false_2 (replicate (S j) ".." = [])) by done.
        rewrite last_replicate_S. rewrite bool_decide_eq_true_2 by done.
        exists (S (S j)), []. split_and!; [|done|intros Hi; by specialize (Hj Hi)].
        by rewrite app_nil_r, <- replicate_S_end.
    + apply Forall_app in Hnn as [Hnn' Hn]. inversion Hn as [|? ? Hname _]; subst.
      rewrite (bool_decide_eq_false_2 (_ = [])) by (by destruct (replicate j ".."), nn').
      rewrite app_assoc, last_snoc.
      rewrite bool_decide_eq_false_2 by (intros [= ->]; by destruct Hname as (_ & _ & ? & _)).
      rewrite removelast_last. by exists j, nn'.
  - assert (name comp) as Hname.
    { unfold name. split_and!; [intros ->; apply Hskip; by left|intros ->; apply Hskip; by right|done|done]. }
    rewrite norm_step_name by done.
    exists j, (nn ++ [comp]). split_and!; [by rewrite app_assoc| |done].
    apply Forall_app. split; [done|]. by constructor.
Qed.

Lemma fold_norm_step_shape init comps acc :
  Forall no_slash comps → shape init acc →
  shape init (fold_left (norm_step init) comps acc).
Proof.
  revert acc. induction comps as [|c comps IH]; intros acc Hc Ha; [done|].
  inversion Hc; subst. simpl. apply IH; [done|]. by apply norm_step_shape.
Qed.

Lemma fold_norm_step_names init nn acc :
  Forall name nn → fold_left (norm_step init) nn acc = acc ++ nn.
Proof.
  revert acc. induction nn as [|n nn IH]; intros acc Hnn; simpl.
  - by rewrite app_nil_r.
  - inversion Hnn; subst. rewrite IH, norm_step_name by done. by rewrite <- app_assoc.
Qed.

Lemma fold_norm_step_dots j k nn :
  fold_left (norm_step 0) (replicate j ".." ++ nn) (replicate k "..")
  = fold_left (norm_step 0) nn (replicate (k + j) "..").
Proof.
  revert k. induction j as [|j IH]; intros k; simpl.
  - by rewrite Nat.add_0_r.
  - replace (norm_step 0 (replicate k "..") "..") with (replicate (S k) "..").
    + rewrite IH. do 2 f_equal. lia.
    + rewrite norm_step_dots. destruct k as [|k]; [done|].
      rewrite (bool_decide_eq_false_2 (replicate (S k) ".." = [])) by done.
      rewrite last_replicate_S. rewrite bool_decide_eq_true_2 by done.
      by rewrite <- replicate_S_end.
Qed.

Lemma fold_norm_step_fixed init l :
  shape init l → fold_left (norm_step init) l [] = l.
Proof.
  intros (j & nn & -> & Hnn & Hj). destruct (decide (init = 0%nat)) as [->|Hi].
  - change (@nil string) with (replicate 0 "..") at 1. rewrite fold_norm_step_dots.
    by rewrite fold_norm_step_names.
  - rewrite (Hj Hi). simpl. by rewrite fold_norm_step_names.
Qed.

Lemma fold_norm_step_empties init k l acc :
  fold_left (norm_step init) (replicate k "" ++ l) acc = fold_left (norm_step init) l acc.
Proof.
  induction k as [|k IH]; [done|]. simpl. by rewrite norm_step_skip by (by left).
Qed.

Lemma split_sep_slashes k s :
  split_sep (slashes k +:+ s) = replicate k "" ++ split_sep s.
Proof.
  induction k as [|k IH]; [done|].
  change (split_sep (slashes (S k) +:+ s)) with ("" :: split_sep (slashes k +:+ s)).
  by rewrite IH.
Qed.

Lemma join_sep_head init l :
  shape init l → l ≠ [] → ∃ c s, join_sep l = String c s ∧ c ≠ "/"%char.
Proof.
  intros (j & nn & -> & Hnn & _) Hl.
  assert (∀ w ws, w ≠ "" → no_slash w →
            ∃ c s, join_sep (w :: ws) = String c s ∧ c ≠ "/"%char) as Hhead.
  { intros [|c w] ws Hw Hs; [done|]. destruct Hs as [Hc _].
    destruct ws; simpl; eauto. }
  destruct j as [|j].
  - destruct nn as [|n nn]; [done|]. inversion Hnn as [|? ? (? & _ & _ & ?)]; subst.
    by apply Hhead.
  - simpl. apply Hhead; [done|]. simpl. split_and!; done.
Qed.

Lemma initial_slashes_normal k l :
  shape k l → (k ≤ 2)%nat → (k = 0%nat → l ≠ []) →
  initial_slashes (slashes k +:+ join_sep l) = k.
Proof.
  intros Hs Hk Hl. destruct (decide (l = [])) as [->|Hne].
  - destruct k as [|[|[|k]]]; [by destruct Hl|done|done|lia].
  - destruct (join_sep_head k l Hs Hne) as (c & s & -> & Hc).
    assert (Ascii.eqb "/" c = false) as Hc' by (by apply Ascii.eqb_neq).
    unfold initial_slashes.
    destruct k as [|[|[|k]]]; [| | |lia].
    + change (slashes 0 +:+ String c s) with (String c s).
      cbn [Str.startswith]. by rewrite Hc'.
    + change (slashes 1 +:+ String c s) with (String "/" (String c s)).
      cbn [Str.startswith]. by rewrite Ascii.eqb_refl, Hc'.
    + change (slashes 2 +:+ String c s) with (String "/" (String "/" (String c s))).
      cbn [Str.startswith]. by rewrite Ascii.eqb_refl, Hc'.
Qed.

Lemma initial_slashes_le path : (initial_slashes path ≤ 2)%nat.
Proof. unfold initial_slashes. repeat case_match; lia. Qed.

(** The result of [normpath] for [k] kept slashes and components [l]. *)
Definition assemble (k : nat) (l : list string) : string :=
  let path := slashes k +:+ join_sep l in
  if bool_decide (path = "") then "." else path.

Lemma normpath_assemble path :
  path ≠ "" →
  normpath path =
    assemble (initial_slashes path)
      (fold_left (norm_step (initial_slashes path)) (split_sep path) []).
Proof. intros Hp. unfold normpath. by rewrite bool_decide_eq_false_2. Qed.

Lemma normpath_fixed k l :
  shape k l → (k ≤ 2)%nat → normpath (assemble k l) = assemble k l.
Proof.
  intros Hs Hk. unfold assemble. simpl. case_bool_decide as Hr; [done|].
  assert (k = 0%nat → l ≠ []) as Hl.
  { intros -> ->. by apply Hr. }
  rewrite normpath_assemble by done.
  rewrite initial_slashes_normal by done.
  rewrite split_sep_slashes, fold_norm_step_empties.
  replace (fold_left (norm_step k) (split_sep (join_sep l)) []) with l.
  { unfold assemble. simpl. by rewrite bool_decide_eq_false_2. }
  destruct (decide (l = [])) as [->|Hne]; [done|].
  rewrite split_join_sep by (done || by eapply shape_no_slash).
  by rewrite fold_norm_step_fixed.
Qed.

(** Normalising a normalised path changes nothing. *)
Lemma normpath_idempotent path : normpath (normpath path) = normpath path.
Proof.
  destruct (decide (path = "")) as [->|Hp]; [done|].
  rewrite (normpath_assemble path Hp). apply normpath_fixed.
  - apply fold_norm_step_shape; [apply split_sep_no_slash|apply shape_nil].
  - apply initial_slashes_le.
Qed.

End posixpath.

(** ** Regular expressions

    The fragment of [re] the metadata patterns of [folder_stats.py] are
    written in, on ASCII text: character classes, greedy repetition of a
    class, [\b], and one capturing group. Matching backtracks as [re] does:
    a repetition takes as many characters as it can and gives them back one
    by one while the rest of the pattern fails. *)

Module Re.

Inductive Atom :=
| Bnd
| Chr (p : ascii → bool)
| Rep (p : ascii → bool) (lo : nat) (hi : option nat)
| Open
| Close.

(** A match: the text matched, the text matched up to the next [Close], and
    the text of group 1. *)
Record Match := { whole : string; to_close : option string; group : option string }.

Definition in_range (lo hi : nat) (c : ascii) : bool :=
  let n := nat_of_ascii c in (lo <=? n)%nat && (n <=? hi)%nat.

(** [\d], [[a-z]], [\w] and [\s] on ASCII *)
Definition is_digit (c : ascii) : bool := in_range 48 57 c.
Definition is_lower (c : ascii) : bool := in_range 97 122 c.
Definition is_word (c : ascii) : bool :=
  is_digit c || is_lower c || in_range 65 90 c || Ascii.eqb c "_".
Definition is_space (c : ascii) : bool :=
  in_range 9 13 c || in_range 28 32 c.

(** A literal under [re.IGNORECASE] *)
Definition lit (x : ascii) : Atom :=
  Chr (fun c => Ascii.eqb (Str.lower_char c) (Str.lower_char x)).

Definition word_at (o : option ascii) : bool :=
  match o with Some c => is_word c | None => false end.

Definition head_char (s : string) : option ascii :=
  match s with String c _ => Some c | EmptyString => None end.

(** [\b] holds between [prev] and the head of [s]. *)
Definition at_boundary (prev : option ascii) (s : string) : bool :=
  xorb (word_at prev) (word_at (head_char s)).

Definition consume (c : ascii) (m : Match) : Match :=
  {| whole := String c (whole m);
     to_close := String c <$> to_close m;
     group := group m |}.

Definition empty_match : Match :=
  {| whole := ""; to_close := None; group := None |}.

Definition open_group (m : Match) : Match :=
  {| whole := whole m; to_close := to_close m; group := to_close m |}.

Definition close_group (m : Match) : Match :=
  {| whole := whole m; to_close := Some ""; group := group m |}.

(** A class repeated between [lo] and [hi] times, then the rest of the
    pattern [k]; [n] characters are taken so far. Greedy: one more character
    is tried first, and [k] where that fails. *)
Fixpoint rep_loop (k : option ascii → string → option Match)
    (p : ascii → bool) (lo : nat) (hi : option nat)
    (n : nat) (prev : option ascii) (s : string) {struct s} : option Match :=
  let stop := if (lo <=? n)%nat then k prev s else None in
  match s with
  | String c s' =>
      if p c && match hi with Some h => (n <? h)%nat | None => true end
      then match rep_loop k p lo hi (S n) (Some c) s' with
           | Some m => Some (consume c m)
           | None => stop
           end
      else stop
  | EmptyString => stop
  end.

(** [rmatch r prev s]: match [r] at the head of [s], [prev] being the
    character before it. *)
Fixpoint rmatch (r : list Atom) (prev : option ascii) (s : string) : option Match :=
  match r with
  | [] => Some empty_match
  | Bnd :: r' => if at_boundary prev s then rmatch r' prev s else None
  | Chr p :: r' =>
      match s with
      | String c s' => if p c then consume c <$> rmatch r' (Some c) s' else None
      | EmptyString => None
      end
  | Rep p lo hi :: r' => rep_loop (rmatch r') p lo hi 0 prev s
  | Open :: r' => open_group <$> rmatch r' prev s
  | Close :: r' => close_group <$> rmatch r' prev s
  end.

(** [re.search]: the leftmost match. *)
Fixpoint search_from (r : list Atom) (prev : option ascii) (s : string) : option Match :=
  match rmatch r prev s with
  | Some m => Some m
  | None =>
      match s with
      | String c s' => search_from r (Some c) s'
      | EmptyString => None
      end
  end.

Definition search (r : list Atom) (s : string) : option Match := search_from r None s.

End Re.

(** ** Characters

    A [str] is a sequence of characters. A [string] holds it as its UTF-8
    bytes: a character of ASCII text is one byte, any other character a first
    byte and the bytes that continue it. What Python knows of a character
    beyond ASCII comes from its Unicode database, a parameter here. *)

Module Unicode.

Definition is_ascii (c : ascii) : bool := (nat_of_ascii c <? 128)%nat.

(** A byte that continues a character. *)
Definition is_continuation (c : ascii) : bool := Re.in_range 128 191 c.

(** The number of bytes that continue the character a byte begins. *)
Definition following (c : ascii) : nat :=
  let n := nat_of_ascii c in
  if (n <? 192)%nat then 0%nat
  else if (n <? 224)%nat then 1%nat
  else if (n <? 240)%nat then 2%nat
  else if (n <? 248)%nat then 3%nat
  else 0%nat.

(** [split n s]: the bytes at the head of [s] that continue the character
    in hand, [n] at most, and the characters after it. *)
Fixpoint split (n : nat) (s : string) : string * list string :=
  match s with
  | EmptyString => ("", [])
  | String c s' =>
      match n with
      | S n' =>
          if is_continuation c then
            let '(w, cs) := split n' s' in (String c w, cs)
          else
            let '(w, cs) := split (following c) s' in ("", String c w :: cs)
      | O =>
          let '(w, cs) := split (following c) s' in ("", String c w :: cs)
      end
  end.

(** [list(s)]: the characters of [s], each a [str] of length one. *)
Definition chars (s : string) : list string := (split 0 s).2.

(** [''.join(cs)] *)
Definition join (cs : list string) : string := foldr String.append "" cs.

(** [len(s)] *)
Definition len (s : string) : Z := Z.of_nat (length (chars s)).

(** The database: [c.isalnum()] for a character [c], and [s.lower()]. On
    ASCII they are what they are there; lower-casing a lower-cased text
    changes nothing. *)
Record t := {
  isalnum : string → bool;
  lower : string → string;
  isalnum_ascii : ∀ c,
    is_ascii c = true →
    isalnum (String c "") = Re.is_digit c || Re.is_lower c || Re.in_range 65 90 c;
  lower_ascii : ∀ s, Str.all_chars is_ascii s = true → lower s = Str.lower s;
  lower_idempotent : ∀ s, lower (lower s) = lower s
}.

(** A character as [chars] cuts it: a first byte and bytes that continue
    it, no more than the first byte announces. *)
Definition is_char (c : string) : Prop :=
  match c with
  | String a w =>
      Str.all_chars is_continuation w = true ∧ (String.length w ≤ following a)%nat
  | EmptyString => False
  end.

(** The character has all its bytes. *)
Definition complete (c : string) : Prop :=
  match c with
  | String a w => String.length w = following a
  | EmptyString => False
  end.

Definition starts_anew (s : string) : Prop :=
  match s with
  | String a _ => is_continuation a = false
  | EmptyString => True
  end.

(** Characters that stand as [chars] cuts them: one that lacks a byte is
    followed by a first byte, or by nothing. *)
Fixpoint well_cut (cs : list string) : Prop :=
  match cs with
  | [] => True
  | c :: cs' =>
      is_char c
      ∧ (complete c ∨ match cs' with c' :: _ => starts_anew c' | [] => True end)
      ∧ well_cut cs'
  end.

Lemma join_app cs ds : join (cs ++ ds) = join cs +:+ join ds.
Proof.
  induction cs as [|c cs IH]; [done|]. cbn [app join foldr].
  fold (join (cs ++ ds)). fold (join cs). by rewrite IH, Str.append_assoc.
Qed.

Lemma split_fst_nil s : (split 0 s).1 = "".
Proof. destruct s as [|c s]; [done|]. cbn [split]. by destruct (split (following c) s). Qed.

Lemma split_0 s : split 0 s = ("", chars s).
Proof.
  unfold chars. pose proof (split_fst_nil s) as H. destruct (split 0 s) as [w cs].
  by simplify_eq/=.
Qed.

Lemma split_anew n c s :
  is_continuation c = false → split n (String c s) = split 0 (String c s).
Proof. intros Hc. destruct n as [|n]; [done|]. cbn [split]. by rewrite Hc. Qed.

(** The bytes that continue a character, then the characters of the
    rest. *)
Lemma split_continued n w s :
  Str.all_chars is_continuation w = true → (String.length w ≤ n)%nat →
  String.length w = n ∨ starts_anew s →
  split n (w +:+ s) = (w, chars s).
Proof.
  revert n. induction w as [|b w IH]; intros n Hw Hlen Hend.
  - rewrite Str.append_nil_l. destruct Hend as [Hn|Hs].
    + simpl in Hn. subst n. apply split_0.
    + destruct s as [|c s]; [by destruct n|]. rewrite split_anew by done. apply split_0.
  - rewrite Str.append_cons. simpl in Hw, Hlen. apply andb_true_iff in Hw as [Hb Hw].
    destruct n as [|n]; [lia|]. cbn [split]. rewrite Hb.
    rewrite (IH n); [done|done|lia|]. destruct Hend as [Hn|Hs]; [left; simpl in Hn; lia|by right].
Qed.

Lemma chars_cons a w s :
  is_char (String a w) → complete (String a w) ∨ starts_anew s →
  chars (String a w +:+ s) = String a w :: chars s.
Proof.
  intros [Hw Hlen] Hend. rewrite Str.append_cons. unfold chars at 1. cbn [split].
  by rewrite (split_continued (following a) w s).
Qed.

Lemma join_starts_anew c cs : is_char c → starts_anew c → starts_anew (join (c :: cs)).
Proof. destruct c as [|a w]; [done|]. by intros _ Ha. Qed.

(** Characters well cut are the characters of the text they make. *)
Lemma chars_join cs : well_cut cs → chars (join cs) = cs.
Proof.
  induction cs as [|c cs IH]; [done|]. intros (Hc & Hend & Hcs).
  cbn [join foldr]. fold (join cs). destruct c as [|a w]; [done|].
  rewrite chars_cons, IH; [done|done|done|].
  destruct Hend as [?|Hend]; [by left|right].
  destruct cs as [|c' cs]; [done|]. apply join_starts_anew; [apply Hcs|done].
Qed.

Lemma split_spec n s :
  Str.all_chars is_continuation (split n s).1 = true
  ∧ (String.length (split n s).1 ≤ n)%nat
  ∧ s = (split n s).1 +:+ join (split n s).2
  ∧ well_cut (split n s).2
  ∧ (String.length (split n s).1 = n
     ∨ match (split n s).2 with c' :: _ => starts_anew c' | [] => True end).
Proof.
  revert n. induction s as [|c s IH]; intros n.
  - cbn [split fst snd]. split_and!; [done|simpl; lia|done|done|by right].
  - assert (is_continuation c = false ∨ n = 0%nat →
            let r := split (following c) s in
            split n (String c s) = ("", String c r.1 :: r.2)) as Hnew.
    { intros Hc r. subst r. destruct n as [|n]; cbn [split].
      - by destruct (split (following c) s).
      - destruct Hc as [->|?]; [|done]. by destruct (split (following c) s). }
    assert (is_continuation c = false ∨ n = 0%nat →
            Str.all_chars is_continuation (split n (String c s)).1 = true
            ∧ (String.length (split n (String c s)).1 ≤ n)%nat
            ∧ String c s = (split n (String c s)).1 +:+ join (split n (String c s)).2
            ∧ well_cut (split n (String c s)).2
            ∧ (String.length (split n (String c s)).1 = n
               ∨ match (split n (String c s)).2 with
                 | c' :: _ => starts_anew c' | [] => True end)) as Hcase.
    { intros Hc. rewrite (Hnew Hc). cbn zeta. cbn [fst snd].
      destruct (IH (following c)) as (H1 & H2 & H3 & H4 & H5).
      split_and!; [done|simpl; lia| |split_and!; [by split|done|done] |].
      - cbn [join foldr]. fold (join (split (following c) s).2).
        by rewrite Str.append_nil_l, Str.append_cons, <- H3.
      - destruct Hc as [Hc| ->]; [by right|by left]. }
    destruct n as [|n]; [apply Hcase; by right|].
    destruct (is_continuation c) eqn:Hc; [|apply Hcase; by left].
    cbn [split]. rewrite Hc. destruct (IH n) as (H1 & H2 & H3 & H4 & H5).
    destruct (split n s) as [w cs]. cbn [fst snd] in *.
    split_and!; [simpl; by rewrite Hc, H1|simpl; lia|by rewrite Str.append_cons, <- H3|done|].
    destruct H5 as [?|?]; [left; simpl; lia|by right].
Qed.

(** The characters of a text make the text, and are well cut. *)
Lemma join_chars s : join (chars s) = s.
Proof.
  destruct (split_spec 0 s) as (_ & _ & Hs & _). rewrite split_0 in Hs. by cbn [fst snd] in Hs.
Qed.

Lemma chars_well_cut s : well_cut (chars s).
Proof. destruct (split_spec 0 s) as (_ & _ & _ & Hs & _). by rewrite split_0 in Hs. Qed.

Lemma well_cut_app cs ds : well_cut (cs ++ ds) → well_cut cs ∧ well_cut ds.
Proof.
  induction cs as [|c cs IH]; [done|]. cbn [app well_cut].
  intros (Hc & Hend & [Hcs Hds]%IH). split; [|done]. split_and!; [done| |done].
  destruct Hend as [?|Hend]; [by left|]. destruct cs as [|c' cs]; by right.
Qed.

(** A piece of the characters of a text is the characters of the text it
    makes. *)
Lemma chars_piece s pre w post : chars s = pre ++ w ++ post → chars (join w) = w.
Proof.
  intros Hs. pose proof (chars_well_cut s) as Hcut. rewrite Hs in Hcut.
  apply well_cut_app in Hcut as [_ Hcut]. apply well_cut_app in Hcut as [Hcut _].
  by apply chars_join.
Qed.

End Unicode.

(** ** [re] over characters

    The word pattern of [folder_stats.py] is matched over the characters of
    a text, with the database's [\w]: the fragment here has [\b], a class,
    and the greedy [*] of a class. A match is the characters matched. *)

Module UnicodeRe.

Inductive Atom :=
| Bnd (w : string → bool)
| Chr (p : string → bool)
| Star (p : string → bool).

Definition word_at (w : string → bool) (o : option string) : bool :=
  match o with Some c => w c | None => false end.

(** [\b] holds between [prev] and the head of [s], [w] being [\w]. *)
Definition at_boundary (w : string → bool) (prev : option string) (s : list string) : bool :=
  xorb (word_at w prev) (word_at w (head s)).

(** A class repeated, then the rest of the pattern [k]. Greedy: one more
    character is tried first, and [k] where that fails. *)
Fixpoint star_loop (k : option string → list string → option (list string))
    (p : string → bool) (prev : option string) (s : list string) {struct s}
  : option (list string) :=
  match s with
  | c :: s' =>
      if p c then
        match star_loop k p (Some c) s' with
        | Some m => Some (c :: m)
        | None => k prev s
        end
      else k prev s
  | [] => k prev s
  end.

(** [rmatch r prev s]: match [r] at the head of [s], [prev] being the
    character before it. *)
Fixpoint rmatch (r : list Atom) (prev : option string) (s : list string)
  : option (list string) :=
  match r with
  | [] => Some []
  | Bnd w :: r' => if at_boundary w prev s then rmatch r' prev s else None
  | Chr p :: r' =>
      match s with
      | c :: s' => if p c then (c ::.) <$> rmatch r' (Some c) s' else None
      | [] => None
      end
  | Star p :: r' => star_loop (rmatch r') p prev s
  end.

(** [re.findall] over the characters [s]: the matches from left to right,
    none overlapping another. [skip] counts the characters of the last match
    still to pass. The pattern used matches no empty text; an empty match is
    not reported. *)
Fixpoint findall_from (r : list Atom) (prev : option string) (skip : nat) (s : list string)
  : list (list string) :=
  match s with
  | [] => []
  | c :: s' =>
      match skip with
      | S k => findall_from r (Some c) k s'
      | O =>
          match rmatch r prev s with
          | Some ((_ :: w) as m) => m :: findall_from r (Some c) (length w) s'
          | _ => findall_from r (Some c) 0 s'
          end
      end
  end.

(** [re.findall(r, s)] *)
Definition findall (r : list Atom) (s : string) : list string :=
  Unicode.join <$> findall_from r None 0 (Unicode.chars s).

(** The character before what follows [w], [prev] being the character
    before [w]. *)
Definition last_of (prev : option string) (w : list string) : option string :=
  match last w with
  | Some c => Some c
  | None => prev
  end.

Lemma last_of_cons prev c w : last_of prev (c :: w) = last_of (Some c) w.
Proof.
  unfold last_of. destruct w as [|d w]; [done|]. rewrite last_cons_cons.
  by destruct (last (d :: w)) eqn:Hl; [|apply last_None in Hl].
Qed.

(** Passing over a match. *)
Lemma findall_from_skip r prev w s :
  findall_from r prev (length w) (w ++ s) = findall_from r (last_of prev w) 0 s.
Proof.
  revert prev. induction w as [|c w IH]; intros prev; [by destruct s|].
  cbn [length app findall_from]. by rewrite IH, last_of_cons.
Qed.

(** Two classes that agree on the characters of a text match alike there. *)
Definition agree (P : string → Prop) (a b : Atom) : Prop :=
  match a, b with
  | Bnd w1, Bnd w2 | Chr w1, Chr w2 | Star w1, Star w2 => ∀ c, P c → w1 c = w2 c
  | _, _ => False
  end.

Lemma star_loop_ext (P : string → Prop) k1 k2 p1 p2 prev s :
  (∀ c, P c → p1 c = p2 c) →
  (∀ prev' s', from_option P True prev' → Forall P s' → k1 prev' s' = k2 prev' s') →
  from_option P True prev → Forall P s →
  star_loop k1 p1 prev s = star_loop k2 p2 prev s.
Proof.
  intros Hp Hk. revert prev. induction s as [|c s IH]; intros prev Hprev Hs; cbn [star_loop].
  - by apply Hk.
  - inversion Hs as [|? ? Hc Hs']; subst.
    by rewrite <- (Hp c Hc), (IH (Some c) Hc Hs'), (Hk prev (c :: s) Hprev Hs).
Qed.

Lemma rmatch_ext (P : string → Prop) r1 r2 prev s :
  Forall2 (agree P) r1 r2 → from_option P True prev → Forall P s →
  rmatch r1 prev s = rmatch r2 prev s.
Proof.
  intros Hr. revert prev s.
  induction Hr as [|a b r1 r2 Hab Hr IH]; intros prev s Hprev Hs; [done|].
  destruct a as [w1|p1|p1], b as [w2|p2|p2]; try done; cbn [agree] in Hab; cbn [rmatch].
  - assert (at_boundary w1 prev s = at_boundary w2 prev s) as ->.
    { unfold at_boundary. f_equal.
      - destruct prev as [c|]; [by apply Hab|done].
      - destruct Hs as [|c s Hc _]; [done|]. by apply Hab. }
    by rewrite IH.
  - destruct Hs as [|c s Hc Hs]; [done|]. rewrite (Hab c Hc). by rewrite IH.
  - by apply (star_loop_ext P).
Qed.

Lemma findall_from_ext (P : string → Prop) r1 r2 prev skip s :
  Forall2 (agree P) r1 r2 → from_option P True prev → Forall P s →
  findall_from r1 prev skip s = findall_from r2 prev skip s.
Proof.
  intros Hr. revert prev skip. induction s as [|c s IH]; intros prev skip Hprev Hs; [done|].
  inversion Hs as [|? ? Hc Hs']; subst. cbn [findall_from].
  destruct skip as [|k]; [|by apply IH].
  rewrite (rmatch_ext P r1 r2 prev (c :: s) Hr Hprev Hs).
  destruct (rmatch r2 prev (c :: s)) as [[|x w]|]; by rewrite !IH.
Qed.

End UnicodeRe.

(** ** Text analysis ([folder_stats.py], lines 10-62 and 386-395) *)

Module Text.

Import UnicodeRe.

Definition nl : ascii := "010"%char.

(** [[a-z0-9]] on a character *)
Definition lower_or_digit (c : string) : bool :=
  match c with
  | String a EmptyString => Re.is_lower a || Re.is_digit a
  | _ => false
  end.

(** [\w]: a character [c] with [c.isalnum()], or the underscore. *)
Definition is_word (u : Unicode.t) (c : string) : bool :=
  Unicode.isalnum u c || bool_decide (c = "_").

(** [[\w-]], [word] being the class [\w] *)
Definition word_or_hyphen (word : string → bool) (c : string) : bool :=
  word c || bool_decide (c = "-").

(** [r'\b[a-z0-9][\w-]*\b'], [word] being the class [\w] *)
Definition WORD_RE (word : string → bool) : list Atom :=
  [Bnd word; Chr lower_or_digit; Star (word_or_hyphen word); Bnd word].

Definition extract_words_from_text (u : Unicode.t) (text : option string)
    (stopwords : gset string) (min_length : Z) : list string :=
  match text with
  | None => []
  | Some text =>
      if bool_decide (text = "") then []
      else
        let words := findall (WORD_RE (is_word u)) (Unicode.lower u text) in
        filter (fun word => min_length ≤ Unicode.len word ∧ word ∉ stopwords) words
  end.

(** A token: a lower-case letter or a digit, then word characters and
    hyphens. *)
Definition is_token (u : Unicode.t) (w : string) : bool :=
  match Unicode.chars w with
  | c :: r => lower_or_digit c && forallb (word_or_hyphen (is_word u)) r
  | [] => false
  end.

(** [ends_with_word u w]: the last character of [w] is a word character. *)
Definition ends_with_word (u : Unicode.t) (w : string) : bool :=
  word_at (is_word u) (last (Unicode.chars w)).

Definition NEGATIVE_MARKER : string := String nl "Negative prompt:".
Definition STEPS_MARKER : string := String nl "Steps:".

(** The positive prompt of a metadata blob (the block of
    [analyze_prompt_words] that sets [prompt_text]). *)
Definition extract_positive_prompt (exif_data : string) : string :=
  if Str.contains NEGATIVE_MARKER exif_data then Str.split_head NEGATIVE_MARKER exif_data
  else if Str.contains STEPS_MARKER exif_data then Str.split_head STEPS_MARKER exif_data
  else exif_data.

(** *** The positive prompt, line by line *)

(** [text.split('\n')] *)
Definition lines (text : string) : list string := Str.split_char nl text.

(** The text before the first line that begins with [marker]; [None] when
    no line does. *)
Definition truncate_at_line (marker text : string) : option string :=
  match list_find (fun l => Str.startswith marker l = true) (lines text) with
  | Some (i, _) => Some (Str.join_char nl (take i (lines text)))
  | None => None
  end.

(** Follows the specification's words: truncate at the first line that
    begins with [Negative prompt:]; without one, at the first line that
    begins with [Steps:]; without either, the blob unchanged. *)
Definition extract_positive_prompt_spec (raw_metadata : string) : string :=
  match truncate_at_line "Negative prompt:" raw_metadata with
  | Some t => t
  | None =>
      match truncate_at_line "Steps:" raw_metadata with
      | Some t => t
      | None => raw_metadata
      end
  end.

(** What the code cuts at: the marker after a newline. *)
Definition cut (marker text : string) : option string :=
  if Str.contains (String nl marker) text
  then Some (Str.split_head (String nl marker) text)
  else None.

(** [truncate_at_line] over the lines after the first. *)
Definition truncate_after_first (marker text : string) : option string :=
  match lines text with
  | [] => None
  | l0 :: ls =>
      match list_find (fun l => Str.startswith marker l = true) ls with
      | Some (i, _) => Some (Str.join_char nl (l0 :: take i ls))
      | None => None
      end
  end.

Lemma lines_cons_nl s : lines (String nl s) = "" :: lines s.
Proof. done. Qed.

Lemma lines_cons_other c s l0 ls :
  c ≠ nl → lines s = l0 :: ls → lines (String c s) = String c l0 :: ls.
Proof.
  intros Hc Hs. unfold lines in *. simpl.
  rewrite bool_decide_eq_false_2 by done. by rewrite Hs.
Qed.

Lemma lines_nonempty s : ∃ l0 ls, lines s = l0 :: ls.
Proof.
  destruct (lines s) as [|l0 ls] eqn:Hl; [|by eauto].
  by apply Str.split_char_nonempty in Hl.
Qed.

(** Whether a text begins with a marker is decided on its first line. *)
Lemma startswith_first_line marker s l0 ls :
  Str.no_char nl marker → lines s = l0 :: ls →
  Str.startswith marker s = Str.startswith marker l0.
Proof.
  revert s l0 ls. induction marker as [|a m IH]; intros s l0 ls Hm Hs; [done|].
  destruct Hm as [Ha Hm]. destruct s as [|c s].
  - by injection Hs as <- <-.
  - destruct (decide (c = nl)) as [->|Hc].
    + rewrite lines_cons_nl in Hs. injection Hs as <- <-. simpl.
      by rewrite (proj2 (Ascii.eqb_neq a nl)).
    + destruct (lines_nonempty s) as (l0' & ls' & Hs').
      rewrite (lines_cons_other _ _ _ _ Hc Hs') in Hs. injection Hs as <- <-.
      simpl. by rewrite (IH s l0' ls').
Qed.

Lemma list_find_cons {A} (P : A → Prop) `{!∀ x, Decision (P x)} x l :
  list_find P (x :: l) =
    if decide (P x) then Some (0%nat, x) else prod_map S id <$> list_find P l.
Proof. done. Qed.

Lemma join_char_cons_char sep c w ws :
  Str.join_char sep (String c w :: ws) = String c (Str.join_char sep (w :: ws)).
Proof. by destruct ws. Qed.

Lemma truncate_after_first_cut marker text :
  Str.no_char nl marker → truncate_after_first marker text = cut marker text.
Proof.
  intros Hm. induction text as [|c s IH]; [done|].
  destruct (lines_nonempty s) as (l0 & ls & Hs).
  unfold truncate_after_first, cut in *. rewrite Hs in IH.
  destruct (decide (c = nl)) as [->|Hc].
  - rewrite lines_cons_nl, Hs. cbn [Str.contains Str.split_head Str.startswith].
    rewrite Ascii.eqb_refl. cbn [andb].
    rewrite (startswith_first_line marker s l0 ls Hm Hs).
    rewrite list_find_cons. destruct (Str.startswith marker l0) eqn:Hl0.
    + by rewrite decide_True.
    + rewrite decide_False by done. cbn [orb].
      destruct (list_find _ ls) as [[i x]|]; simpl.
      * destruct (Str.contains (String nl marker) s); [|done].
        injection IH as <-. done.
      * by destruct (Str.contains (String nl marker) s).
  - rewrite (lines_cons_other _ _ _ _ Hc Hs).
    cbn [Str.contains Str.split_head Str.startswith].
    rewrite (proj2 (Ascii.eqb_neq nl c)) by done. cbn [andb orb].
    destruct (list_find _ ls) as [[i x]|].
    + rewrite join_char_cons_char.
      destruct (Str.contains (String nl marker) s); [|done].
      injection IH as <-. done.
    + by destruct (Str.contains (String nl marker) s).
Qed.

(** Away from the first line, cutting at a marker line and cutting at the
    marker after a newline are the same. *)
Lemma truncate_at_line_cut marker text :
  Str.no_char nl marker → Str.startswith marker text = false →
  truncate_at_line marker text = cut marker text.
Proof.
  intros Hm Hstart. rewrite <- truncate_after_first_cut by done.
  unfold truncate_at_line, truncate_after_first.
  destruct (lines_nonempty text) as (l0 & ls & Hs). rewrite Hs.
  rewrite list_find_cons, decide_False.
  - by destruct (list_find _ ls) as [[i x]|].
  - by rewrite <- (startswith_first_line marker text l0 ls Hm Hs), Hstart.
Qed.

(** Where the blob begins with neither marker, the code computes the
    positive prompt the specification describes. *)
Lemma extract_positive_prompt_refines raw_metadata :
  Str.startswith "Negative prompt:" raw_metadata = false →
  Str.startswith "Steps:" raw_metadata = false →
  extract_positive_prompt raw_metadata = extract_positive_prompt_spec raw_metadata.
Proof.
  intros Hneg Hsteps. unfold extract_positive_prompt, extract_positive_prompt_spec.
  rewrite !truncate_at_line_cut by (done || (simpl; by split_and!)).
  unfold cut, NEGATIVE_MARKER, STEPS_MARKER.
  destruct (Str.contains (String nl "Negative prompt:") raw_metadata); [done|].
  by destruct (Str.contains (String nl "Steps:") raw_metadata).
Qed.

Lemma extract_positive_prompt_refines_example :
  extract_positive_prompt
    (Str.join_char nl ["masterpiece, 1girl"; "Negative prompt: bad hands"; "Steps: 20"])
  = "masterpiece, 1girl"
  ∧ extract_positive_prompt_spec
      (Str.join_char nl ["masterpiece, 1girl"; "Negative prompt: bad hands"; "Steps: 20"])
    = "masterpiece, 1girl".
Proof.
  split; [by vm_compute|].
  rewrite <- extract_positive_prompt_refines; by vm_compute.
Defined.

(** C6, at the blob whose first line is the negative prompt (an image
    generated with an empty positive prompt): the first line begins with
    [Negative prompt:], so the positive prompt is empty; the code looks for
    the marker after a newline only, finds [Steps:] there, and returns the
    negative prompt as the positive one. *)
Theorem extract_positive_prompt_first_line :
  extract_positive_prompt_spec
    (Str.join_char nl ["Negative prompt: bad hands"; "Steps: 20"]) = ""
  ∧ extract_positive_prompt
      (Str.join_char nl ["Negative prompt: bad hands"; "Steps: 20"])
    = "Negative prompt: bad hands".
Proof. split; by vm_compute. Qed.

(** *** The tokens of a text

    What the word pattern finds in the characters [s], [prev] being the
    character before them. A token begins at a lower-case letter or digit
    that no word character precedes; it runs over the word characters and
    hyphens that follow, up to the last word character among them: the
    hyphens at their end are left out. The search goes on after the
    token. *)
Inductive Tokenized (word : string → bool)
  : option string → list string → list (list string) → Prop :=
| Tokenized_nil prev : Tokenized word prev [] []
| Tokenized_skip prev c s ws :
    word_at word prev = true ∨ lower_or_digit c = false →
    Tokenized word (Some c) s ws →
    Tokenized word prev (c :: s) ws
| Tokenized_token prev c r hyphens rest ws :
    word_at word prev = false →
    lower_or_digit c = true →
    Forall (fun d => word_or_hyphen word d = true) r →
    word_at word (last_of (Some c) r) = true →
    Forall (fun d => d = "-") hyphens →
    from_option (word_or_hyphen word) false (head rest) = false →
    Tokenized word (last_of (Some c) r) (hyphens ++ rest) ws →
    Tokenized word prev (c :: r ++ hyphens ++ rest) ((c :: r) :: ws).

(** The repetition of the word pattern and the boundary after it: the
    characters taken end with the last word character of the run of word
    characters and hyphens; nothing matches when the run has no word
    character and none precedes it. *)
Lemma star_word word prev s :
  match star_loop (rmatch [Bnd word]) (word_or_hyphen word) prev s with
  | Some r =>
      ∃ hyphens rest,
        s = r ++ hyphens ++ rest
        ∧ Forall (fun d => word_or_hyphen word d = true) r
        ∧ word_at word (last_of prev r) = true
        ∧ Forall (fun d => d = "-") hyphens
        ∧ from_option (word_or_hyphen word) false (head rest) = false
  | None =>
      word_at word prev = false
      ∧ ∃ hyphens rest,
          s = hyphens ++ rest
          ∧ Forall (fun d => d = "-") hyphens
          ∧ from_option (word_or_hyphen word) false (head rest) = false
  end.
Proof.
  assert (∀ prev s, rmatch [Bnd word] prev s
                    = if at_boundary word prev s then Some [] else None) as Hk.
  { intros p t. cbn [rmatch]. by destruct (at_boundary word p t). }
  revert prev. induction s as [|c s IH]; intros prev; cbn [star_loop].
  - rewrite Hk. unfold at_boundary. cbn [head word_at]. rewrite xorb_false_r.
    destruct (word_at word prev) eqn:Hprev.
    + exists [], []. by split_and!.
    + split; [done|]. exists [], []. by split_and!.
  - destruct (word_or_hyphen word c) eqn:Hc.
    + specialize (IH (Some c)).
      destruct (star_loop (rmatch [Bnd word]) (word_or_hyphen word) (Some c) s) as [m|].
      * destruct IH as (hyphens & rest & -> & Hm & Hlast & Hhy & Hrest).
        exists hyphens, rest. rewrite last_of_cons. split_and!; [done|by constructor|done..].
      * destruct IH as (Hword & hyphens & rest & -> & Hhy & Hrest).
        cbn [word_at] in Hword.
        assert (c = "-") as ->.
        { unfold word_or_hyphen in Hc. rewrite Hword in Hc. by apply bool_decide_eq_true in Hc. }
        rewrite Hk. unfold at_boundary. cbn [head word_at]. rewrite Hword, xorb_false_r.
        destruct (word_at word prev) eqn:Hprev.
        -- exists ("-" :: hyphens), rest. split_and!; [done|done|done|by constructor|done].
        -- split; [done|]. exists ("-" :: hyphens), rest. split_and!; [done|by constructor|done].
    + assert (word c = false) as Hword.
      { unfold word_or_hyphen in Hc. by apply orb_false_iff in Hc as [? _]. }
      rewrite Hk. unfold at_boundary. cbn [head word_at]. rewrite Hword, xorb_false_r.
      destruct (word_at word prev) eqn:Hprev.
      * exists [], (c :: s). by split_and!.
      * split; [done|]. exists [], (c :: s). by split_and!.
Qed.

(** The word pattern at a character: it matches exactly where a token
    begins, and what it matches is the token. *)
Lemma rmatch_word word prev c s :
  (∀ d, lower_or_digit d = true → word d = true) →
  if negb (word_at word prev) && lower_or_digit c
  then ∃ r hyphens rest,
         rmatch (WORD_RE word) prev (c :: s) = Some (c :: r)
         ∧ s = r ++ hyphens ++ rest
         ∧ Forall (fun d => word_or_hyphen word d = true) r
         ∧ word_at word (last_of (Some c) r) = true
         ∧ Forall (fun d => d = "-") hyphens
         ∧ from_option (word_or_hyphen word) false (head rest) = false
  else rmatch (WORD_RE word) prev (c :: s) = None.
Proof.
  intros Hword.
  assert (rmatch (WORD_RE word) prev (c :: s)
          = if at_boundary word prev (c :: s)
            then if lower_or_digit c
                 then (c ::.) <$> star_loop (rmatch [Bnd word]) (word_or_hyphen word) (Some c) s
                 else None
            else None) as -> by done.
  unfold at_boundary. cbn [head word_at].
  destruct (lower_or_digit c) eqn:Hc.
  - rewrite (Hword c Hc). destruct (word_at word prev); cbn [xorb negb andb]; [done|].
    pose proof (star_word word (Some c) s) as Hstar.
    destruct (star_loop (rmatch [Bnd word]) (word_or_hyphen word) (Some c) s) as [r|].
    + destruct Hstar as (hyphens & rest & Hs & Hstar). by exists r, hyphens, rest.
    + destruct Hstar as [Hno _]. cbn [word_at] in Hno. by rewrite (Hword c Hc) in Hno.
  - rewrite andb_false_r. by destruct (xorb _ _).
Qed.

(** [findall] with the word pattern finds the tokens. *)
Lemma findall_from_tokenized word s :
  (∀ d, lower_or_digit d = true → word d = true) →
  ∀ prev, Tokenized word prev s (findall_from (WORD_RE word) prev 0 s).
Proof.
  intros Hword.
  assert (∀ n s, (length s ≤ n)%nat →
            ∀ prev, Tokenized word prev s (findall_from (WORD_RE word) prev 0 s)) as Hall;
    [|by apply (Hall (length s))].
  clear s. induction n as [|n IH]; intros s Hlen prev.
  { destruct s; [constructor|simpl in Hlen; lia]. }
  destruct s as [|c s]; [constructor|]. simpl in Hlen.
  pose proof (rmatch_word word prev c s Hword) as Hm. cbn [findall_from].
  destruct (negb (word_at word prev) && lower_or_digit c) eqn:Hstart.
  - destruct Hm as (r & hyphens & rest & -> & -> & Hr & Hlast & Hhy & Hrest).
    apply andb_true_iff in Hstart as [Hprev%negb_true_iff Hc].
    rewrite findall_from_skip. apply Tokenized_token; try done.
    apply IH. rewrite !length_app in Hlen. rewrite length_app. lia.
  - rewrite Hm. apply Tokenized_skip; [|apply IH; lia].
    apply andb_false_iff in Hstart as [Hprev%negb_false_iff|?]; [by left|by right].
Qed.

(** The tokens are pieces of the text, from left to right, none
    overlapping another. *)
Fixpoint pieces_in_order (ws : list (list string)) (s : list string) : Prop :=
  match ws with
  | [] => True
  | w :: ws' => ∃ pre post, s = pre ++ w ++ post ∧ pieces_in_order ws' post
  end.

Lemma pieces_in_order_cons ws c s : pieces_in_order ws s → pieces_in_order ws (c :: s).
Proof.
  destruct ws as [|w ws]; [done|]. intros (pre & post & -> & Hws). by exists (c :: pre), post.
Qed.

Lemma Tokenized_pieces word prev s ws : Tokenized word prev s ws → pieces_in_order ws s.
Proof.
  induction 1 as [|prev c s ws _ _ IH|prev c r hyphens rest ws _ _ _ _ _ _ _ IH]; [done| |].
  - by apply pieces_in_order_cons.
  - by exists [], (hyphens ++ rest).
Qed.

Lemma pieces_in_order_each ws s :
  pieces_in_order ws s → Forall (fun w => ∃ pre post, s = pre ++ w ++ post) ws.
Proof.
  revert s. induction ws as [|w ws IH]; intros s; [constructor|].
  intros (pre & post & -> & Hws). constructor; [by exists pre, post|].
  eapply Forall_impl; [apply (IH post Hws)|]. intros w' (pre' & post' & ->).
  exists (pre ++ w ++ pre'), post'. by rewrite <- !app_assoc.
Qed.

(** A token as characters. *)
Definition token_chars (word : string → bool) (w : list string) : Prop :=
  match w with
  | c :: r =>
      lower_or_digit c = true
      ∧ Forall (fun d => word_or_hyphen word d = true) r
      ∧ word_at word (last (c :: r)) = true
  | [] => False
  end.

Lemma last_of_Some c r : last_of (Some c) r = last (c :: r).
Proof.
  unfold last_of. destruct r as [|d r]; [done|]. rewrite last_cons_cons.
  by destruct (last (d :: r)) eqn:Hl; [|apply last_None in Hl].
Qed.

Lemma Tokenized_tokens word prev s ws :
  Tokenized word prev s ws → Forall (token_chars word) ws.
Proof.
  induction 1 as [|prev c s ws _ _ IH|prev c r hyphens rest ws _ Hc Hr Hlast _ _ _ IH];
    [constructor|done|].
  constructor; [|done]. split_and!; [done|done|by rewrite <- last_of_Some].
Qed.


(** *** The words of a text *)

Lemma lower_or_digit_ascii c :
  lower_or_digit c = true → ∃ a, c = String a "" ∧ Unicode.is_ascii a = true.
Proof.
  destruct c as [|a [|b w]]; [done| |done]. intros Hc. exists a. split; [done|].
  unfold lower_or_digit, Re.is_lower, Re.is_digit, Re.in_range, Unicode.is_ascii in *.
  apply Nat.ltb_lt. apply orb_true_iff in Hc as [Hc|Hc];
    apply andb_true_iff in Hc as [_ Hc%Nat.leb_le]; lia.
Qed.

(** A lower-case letter or digit is a word character, whatever the
    database. *)
Lemma lower_or_digit_word u c : lower_or_digit c = true → is_word u c = true.
Proof.
  intros Hc. destruct (lower_or_digit_ascii c Hc) as (a & -> & Ha).
  unfold is_word. rewrite (Unicode.isalnum_ascii u a Ha).
  unfold lower_or_digit in Hc. by destruct (Re.is_lower a), (Re.is_digit a).
Qed.

Lemma findall_chars word s :
  (∀ d, lower_or_digit d = true → word d = true) →
  Unicode.chars <$> findall (WORD_RE word) s
  = findall_from (WORD_RE word) None 0 (Unicode.chars s).
Proof.
  intros Hword. unfold findall. rewrite <- list_fmap_compose.
  pose proof (findall_from_tokenized word (Unicode.chars s) Hword None) as Htok.
  apply Tokenized_pieces, pieces_in_order_each in Htok.
  induction Htok as [|w ws (pre & post & Hw) _ IH]; [done|].
  rewrite fmap_cons, IH. f_equal. cbn [compose]. by eapply Unicode.chars_piece.
Qed.

Lemma pieces_occur ws s :
  pieces_in_order ws s → Str.occur_in_order (Unicode.join <$> ws) (Unicode.join s).
Proof.
  revert s. induction ws as [|w ws IH]; intros s; [done|].
  intros (pre & post & -> & Hws). rewrite fmap_cons. cbn [Str.occur_in_order].
  exists (Unicode.join pre), (Unicode.join post). rewrite !Unicode.join_app.
  split; [done|by apply IH].
Qed.

Lemma token_chars_is_token u w :
  token_chars (is_word u) (Unicode.chars w) →
  is_token u w = true ∧ ends_with_word u w = true.
Proof.
  unfold is_token, ends_with_word. destruct (Unicode.chars w) as [|c r]; [done|].
  intros (Hc & Hr & Hlast). split; [|done]. rewrite Hc. cbn [andb].
  clear Hlast. induction Hr as [|d r Hd _ IH]; [done|]. cbn [forallb]. by rewrite Hd.
Qed.

(** What the word pattern finds in a text: the tokens of its characters,
    each a token that ends with a word character, standing in the text from
    left to right. *)
Lemma findall_words u s :
  Tokenized (is_word u) None (Unicode.chars s)
            (Unicode.chars <$> findall (WORD_RE (is_word u)) s)
  ∧ Forall (fun w => is_token u w = true ∧ ends_with_word u w = true)
           (findall (WORD_RE (is_word u)) s)
  ∧ Str.occur_in_order (findall (WORD_RE (is_word u)) s) s.
Proof.
  pose proof (findall_from_tokenized (is_word u) (Unicode.chars s)
                (lower_or_digit_word u) None) as Htok.
  pose proof (findall_chars (is_word u) s (lower_or_digit_word u)) as Hchars.
  split_and!.
  - by rewrite Hchars.
  - apply Tokenized_tokens in Htok. rewrite <- Hchars in Htok.
    rewrite Forall_fmap in Htok. eapply Forall_impl; [exact Htok|].
    intros w Hw. by apply token_chars_is_token.
  - apply Tokenized_pieces, pieces_occur in Htok. by rewrite Unicode.join_chars in Htok.
Qed.

Lemma extract_words_from_text_filter u text stopwords min_length :
  extract_words_from_text u (Some text) stopwords min_length
  = filter (fun w => min_length ≤ Unicode.len w ∧ w ∉ stopwords)
           (findall (WORD_RE (is_word u)) (Unicode.lower u text)).
Proof.
  unfold extract_words_from_text. case_bool_decide as Ht; [|done]. subst text.
  by rewrite (Unicode.lower_ascii u "").
Qed.

(** [\w] on ASCII *)
Definition ascii_word (c : string) : bool :=
  match c with
  | String a EmptyString => Re.is_word a
  | _ => false
  end.

Definition ascii_char (c : string) : Prop := ∃ a, c = String a "" ∧ Unicode.is_ascii a = true.

Lemma chars_ascii s :
  Str.all_chars Unicode.is_ascii s = true → Forall ascii_char (Unicode.chars s).
Proof.
  induction s as [|a s IH]; [constructor|]. simpl. intros [Ha Hs]%andb_true_iff.
  assert (Unicode.following a = 0%nat) as Hfollow.
  { unfold Unicode.following, Unicode.is_ascii in *. apply Nat.ltb_lt in Ha.
    by rewrite (proj2 (Nat.ltb_lt _ 192)) by lia. }
  change (String a s) with (String a "" +:+ s).
  rewrite Unicode.chars_cons; [|by split; [|rewrite Hfollow]|by left].
  constructor; [by exists a|by apply IH].
Qed.

Lemma is_word_ascii u c : ascii_char c → is_word u c = ascii_word c.
Proof.
  intros (a & -> & Ha). unfold is_word, ascii_word, Re.is_word.
  rewrite (Unicode.isalnum_ascii u a Ha). f_equal.
  destruct (Ascii.eqb a "_") eqn:Heq.
  - apply Ascii.eqb_eq in Heq as ->. by apply bool_decide_eq_true.
  - apply bool_decide_eq_false. intros [= ->]. by rewrite Ascii.eqb_refl in Heq.
Qed.

(** On ASCII text the words are those of the ASCII classes, whatever the
    database. *)
Lemma findall_ascii u s :
  Str.all_chars Unicode.is_ascii s = true →
  findall (WORD_RE (is_word u)) s = findall (WORD_RE ascii_word) s.
Proof.
  intros Hs. unfold findall. f_equal.
  apply (findall_from_ext ascii_char); [|done|by apply chars_ascii].
  assert (∀ c, ascii_char c → is_word u c = ascii_word c) as Hword
    by apply is_word_ascii.
  unfold WORD_RE. repeat constructor; cbn [agree]; try done.
  intros c Hc. unfold word_or_hyphen. by rewrite Hword.
Qed.

Lemma lower_ascii_ascii s :
  Str.all_chars Unicode.is_ascii s = true → Str.all_chars Unicode.is_ascii (Str.lower s) = true.
Proof.
  induction s as [|a s IH]; [done|]. simpl. intros [Ha Hs]%andb_true_iff.
  rewrite (IH Hs), andb_true_r. unfold Str.lower_char.
  destruct (Str.is_upper a) eqn:Hup; [|done].
  unfold Str.is_upper, Unicode.is_ascii in *.
  apply andb_true_iff in Hup as [_ Hup%Nat.leb_le].
  rewrite nat_ascii_embedding by lia. apply Nat.ltb_lt. lia.
Qed.

Lemma extract_words_from_text_ascii u text stopwords min_length :
  Str.all_chars Unicode.is_ascii text = true →
  extract_words_from_text u (Some text) stopwords min_length
  = filter (fun w => min_length ≤ Unicode.len w ∧ w ∉ stopwords)
           (findall (WORD_RE ascii_word) (Str.lower text)).
Proof.
  intros Htext. rewrite extract_words_from_text_filter, (Unicode.lower_ascii u text Htext).
  by rewrite findall_ascii by (by apply lower_ascii_ascii).
Qed.

(** C7. Word extraction returns no word for a missing or empty text. For
    any text, stopword set and minimum length, whatever the database of the
    host, it returns the tokens of the lower-cased text that are at least
    [min_length] characters long and not stopwords, in the order of the
    tokens. The tokens are those of [Tokenized]: a token begins at a
    lower-case letter or digit that no word character precedes, and runs
    over the word characters and hyphens that follow, up to the last word
    character among them; the tokens stand in the lower-cased text from left
    to right. On ASCII text the words do not depend on the database, and the
    specification's example evaluates to [cat], [dog]. *)
Theorem extract_words_from_text_spec u :
  (∀ stopwords min_length,
     extract_words_from_text u None stopwords min_length = []
     ∧ extract_words_from_text u (Some "") stopwords min_length = [])
  ∧ (∀ text stopwords min_length,
       Tokenized (is_word u) None (Unicode.chars (Unicode.lower u text))
         (Unicode.chars <$> findall (WORD_RE (is_word u)) (Unicode.lower u text))
       ∧ Forall (fun w => is_token u w = true)
                (findall (WORD_RE (is_word u)) (Unicode.lower u text))
       ∧ Str.occur_in_order (findall (WORD_RE (is_word u)) (Unicode.lower u text))
                            (Unicode.lower u text)
       ∧ extract_words_from_text u (Some text) stopwords min_length
         = filter (fun w => min_length ≤ Unicode.len w ∧ w ∉ stopwords)
                  (findall (WORD_RE (is_word u)) (Unicode.lower u text))
       ∧ extract_words_from_text u (Some text) stopwords min_length
           `sublist_of` findall (WORD_RE (is_word u)) (Unicode.lower u text)
       ∧ (∀ w, w ∈ extract_words_from_text u (Some text) stopwords min_length ↔
               w ∈ findall (WORD_RE (is_word u)) (Unicode.lower u text)
               ∧ min_length ≤ Unicode.len w ∧ w ∉ stopwords))
  ∧ (∀ u' text stopwords min_length,
       Str.all_chars Unicode.is_ascii text = true →
       extract_words_from_text u' (Some text) stopwords min_length
       = extract_words_from_text u (Some text) stopwords min_length)
  ∧ extract_words_from_text u (Some "A cat, and a Dog!") {["a"; "and"]} 2 = ["cat"; "dog"].
Proof.
  split_and!; [done| | |].
  - intros text stopwords min_length.
    destruct (findall_words u (Unicode.lower u text)) as (Htok & Htokens & Horder).
    pose proof (extract_words_from_text_filter u text stopwords min_length) as Heq.
    split_and!.
    + done.
    + eapply Forall_impl; [exact Htokens|]. by intros w [? _].
    + done.
    + done.
    + rewrite Heq. apply sublist_filter.
    + intros w. rewrite Heq, list_elem_of_filter. tauto.
  - intros u' text stopwords min_length Htext.
    by rewrite !extract_words_from_text_ascii.
  - by rewrite extract_words_from_text_ascii.
Qed.

(** *** The positive prompt, further *)

Lemma startswith_weaken (needle a b : string) :
  Str.startswith needle a = true → Str.startswith needle (a +:+ b) = true.
Proof.
  revert a. induction needle as [|c needle IH]; intros a; [done|].
  destruct a as [|x a]; [done|]. rewrite Str.append_cons. simpl.
  intros [-> Ha]%andb_true_iff. by rewrite (IH a Ha).
Qed.

Lemma split_head_prefix needle s : ∃ rest, s = Str.split_head needle s +:+ rest.
Proof.
  induction s as [|c s [rest IH]]; simpl.
  - exists "". by destruct (Str.startswith needle "").
  - destruct (Str.startswith needle (String c s)); [by eexists|].
    exists rest. by rewrite Str.append_cons, <- IH.
Qed.

(** The text before the first occurrence of a marker holds no occurrence
    of it. *)
Lemma contains_split_head needle s :
  needle ≠ "" → Str.contains needle (Str.split_head needle s) = false.
Proof.
  intros Hne. induction s as [|c s IH]; simpl.
  - destruct needle; [done|]. by destruct (Str.startswith _ _).
  - destruct (Str.startswith needle (String c s)) eqn:Hstart.
    + by destruct needle.
    + cbn [Str.contains]. rewrite IH, orb_false_r.
      destruct (Str.startswith needle (String c (Str.split_head needle s))) eqn:Hcut; [|done].
      destruct (split_head_prefix needle s) as [rest Hrest].
      apply (startswith_weaken _ _ rest) in Hcut.
      rewrite Str.append_cons, <- Hrest in Hcut. congruence.
Qed.

Lemma contains_prefix needle a b :
  Str.contains needle (a +:+ b) = false → Str.contains needle a = false.
Proof.
  induction a as [|c a IH].
  - destruct needle as [|x needle]; [by destruct b|done].
  - rewrite Str.append_cons. cbn [Str.contains].
    intros [Hstart Hrest]%orb_false_iff. rewrite (IH Hrest), orb_false_r.
    destruct (Str.startswith needle (String c a)) eqn:Hcut; [|done].
    apply (startswith_weaken _ _ b) in Hcut. rewrite Str.append_cons in Hcut. congruence.
Qed.

(** A marker found across the end of [p] has the character after [p]
    somewhere in it. *)
Lemma startswith_straddle needle p c t :
  Str.startswith needle (p +:+ String c t) = true →
  Str.startswith needle p = true ∨ ¬ Str.no_char c needle.
Proof.
  revert p. induction needle as [|a needle IH]; intros p; [by left|].
  destruct p as [|x p].
  - rewrite Str.append_nil_l. cbn [Str.startswith].
    intros [->%Ascii.eqb_eq _]%andb_true_iff. right. by intros [? _].
  - rewrite Str.append_cons. cbn [Str.startswith].
    intros [Hax [Hp|Hc]%IH]%andb_true_iff.
    + left. by rewrite Hax, Hp.
    + right. intros [_ ?]. by apply Hc.
Qed.

(** The text before a marker that the text does not hold is what is cut
    out, when the first character of the marker does not come again in
    it. *)
Lemma split_head_first c needle p rest :
  Str.no_char c needle →
  Str.contains (String c needle) p = false →
  Str.contains (String c needle) (p +:+ String c needle +:+ rest) = true
  ∧ Str.split_head (String c needle) (p +:+ String c needle +:+ rest) = p.
Proof.
  intros Hc. induction p as [|x p IH]; intros Hp.
  - rewrite Str.append_nil_l.
    assert (Str.startswith (String c needle) (String c needle +:+ rest) = true) as Hstart
      by apply Str.startswith_append.
    split.
    + destruct (String c needle +:+ rest) eqn:Heq; cbn [Str.contains]; by rewrite Hstart.
    + destruct (String c needle +:+ rest) eqn:Heq; cbn [Str.split_head]; by rewrite Hstart.
  - cbn [Str.contains] in Hp. apply orb_false_iff in Hp as [Hstart Hp].
    destruct (IH Hp) as [IH1 IH2]. rewrite Str.append_cons.
    assert (Str.startswith (String c needle) (String x (p +:+ String c needle +:+ rest))
            = false) as Hno.
    { apply not_true_is_false. intros Hyes.
      cbn [Str.startswith] in Hyes, Hstart.
      apply andb_true_iff in Hyes as [Hcx Hyes]. rewrite Str.append_cons in Hyes.
      apply startswith_straddle in Hyes as [Hpre|Hin]; [|by destruct Hin].
      rewrite Hcx, Hpre in Hstart. discriminate Hstart. }
    split.
    + cbn [Str.contains]. rewrite IH1. apply orb_true_r.
    + cbn [Str.split_head]. by rewrite Hno, IH2.
Qed.

(** X1. The positive prompt is the metadata up to its first marker:
    where a text without [Negative prompt:] after a newline is followed by
    that marker, the text is the positive prompt; where the metadata has no
    such marker and a text without [Steps:] after a newline is followed by
    that one, the text is. So the positive prompt is a piece from the head
    of the metadata, and no line after its first begins with [Negative
    prompt:]; where the metadata has no such line, none begins with [Steps:]
    either. It is the whole metadata exactly when the metadata has neither
    marker after a newline. *)
Theorem extract_positive_prompt_prefix exif_data :
  (∃ rest, exif_data = extract_positive_prompt exif_data +:+ rest)
  ∧ Str.contains NEGATIVE_MARKER (extract_positive_prompt exif_data) = false
  ∧ (Str.contains NEGATIVE_MARKER exif_data = false →
     Str.contains STEPS_MARKER (extract_positive_prompt exif_data) = false)
  ∧ (extract_positive_prompt exif_data = exif_data ↔
     Str.contains NEGATIVE_MARKER exif_data = false
     ∧ Str.contains STEPS_MARKER exif_data = false)
  ∧ (∀ prompt rest,
       exif_data = prompt +:+ NEGATIVE_MARKER +:+ rest →
       Str.contains NEGATIVE_MARKER prompt = false →
       extract_positive_prompt exif_data = prompt)
  ∧ (∀ prompt rest,
       exif_data = prompt +:+ STEPS_MARKER +:+ rest →
       Str.contains NEGATIVE_MARKER exif_data = false →
       Str.contains STEPS_MARKER prompt = false →
       extract_positive_prompt exif_data = prompt).
Proof.
  assert (∀ prompt rest,
            exif_data = prompt +:+ NEGATIVE_MARKER +:+ rest →
            Str.contains NEGATIVE_MARKER prompt = false →
            extract_positive_prompt exif_data = prompt) as Hnegative.
  { intros prompt rest -> Hprompt.
    unfold extract_positive_prompt, NEGATIVE_MARKER, STEPS_MARKER in *.
    destruct (split_head_first nl "Negative prompt:" prompt rest) as [-> ->];
      [simpl; by split_and!|done|done]. }
  assert (∀ prompt rest,
            exif_data = prompt +:+ STEPS_MARKER +:+ rest →
            Str.contains NEGATIVE_MARKER exif_data = false →
            Str.contains STEPS_MARKER prompt = false →
            extract_positive_prompt exif_data = prompt) as Hsteps'.
  { intros prompt rest -> Hnone Hprompt.
    unfold extract_positive_prompt, NEGATIVE_MARKER, STEPS_MARKER in *. rewrite Hnone.
    destruct (split_head_first nl "Steps:" prompt rest) as [-> ->];
      [simpl; by split_and!|done|done]. }
  split_and!; [| | | |exact Hnegative|exact Hsteps']; clear Hnegative Hsteps';
    unfold extract_positive_prompt;
    (destruct (Str.contains NEGATIVE_MARKER exif_data) eqn:Hneg;
     [|destruct (Str.contains STEPS_MARKER exif_data) eqn:Hsteps]).
  - apply split_head_prefix.
  - apply split_head_prefix.
  - exists "". by rewrite Str.append_nil_r.
  - by apply contains_split_head.
  - destruct (split_head_prefix STEPS_MARKER exif_data) as [rest Hrest].
    rewrite Hrest in Hneg. by apply contains_prefix in Hneg.
  - done.
  - done.
  - intros _. by apply contains_split_head.
  - done.
  - split; [|by intros [? _]]. intros Heq.
    pose proof (contains_split_head NEGATIVE_MARKER exif_data) as Hcut.
    rewrite Heq in Hcut. rewrite Hcut in Hneg by done. done.
  - split; [|by intros [_ ?]]. intros Heq.
    pose proof (contains_split_head STEPS_MARKER exif_data) as Hcut.
    rewrite Heq in Hcut. rewrite Hcut in Hsteps by done. done.
  - done.
Qed.

(** *** The words, further *)

Lemma is_token_len u w : is_token u w = true → 1 ≤ Unicode.len w.
Proof.
  unfold is_token, Unicode.len. destruct (Unicode.chars w); [done|simpl; lia].
Qed.

(** X2. Word extraction does not see the case of the text: a text and its
    lower-cased form give the same words. A larger stopword set or a larger
    minimum length only removes words, the others staying in their order;
    and a minimum length of one or less removes none. *)
Theorem extract_words_case_insensitive u text stopwords min_length :
  extract_words_from_text u (Some (Unicode.lower u text)) stopwords min_length
    = extract_words_from_text u (Some text) stopwords min_length
  ∧ (∀ stopwords' min_length',
       stopwords ⊆ stopwords' → min_length ≤ min_length' →
       extract_words_from_text u (Some text) stopwords' min_length'
         `sublist_of` extract_words_from_text u (Some text) stopwords min_length)
  ∧ (min_length ≤ 1 →
     extract_words_from_text u (Some text) stopwords min_length
     = filter (fun w => w ∉ stopwords)
              (findall (WORD_RE (is_word u)) (Unicode.lower u text))).
Proof.
  split_and!.
  - by rewrite !extract_words_from_text_filter, Unicode.lower_idempotent.
  - intros stopwords' min_length' Hsw Hml. rewrite !extract_words_from_text_filter.
    induction (findall (WORD_RE (is_word u)) (Unicode.lower u text)) as [|w ws IH]; [done|].
    rewrite !filter_cons. destruct (decide (min_length' ≤ _ ∧ _)) as [[H1 H2]|].
    + rewrite decide_True by (split; [lia|set_solver]). by apply sublist_skip.
    + case_decide; [by apply sublist_cons|done].
  - intros Hml. rewrite extract_words_from_text_filter.
    destruct (findall_words u (Unicode.lower u text)) as (_ & Htokens & _).
    induction Htokens as [|w ws [Hw _] _ IH]; [done|].
    apply is_token_len in Hw. rewrite !filter_cons, IH.
    destruct (decide (w ∉ stopwords)).
    + by rewrite decide_True by (split; [lia|done]).
    + by rewrite decide_False by (by intros [_ ?]).
Qed.

(** X21. Where a word ends. Every word extracted begins with a lower-case
    letter or a digit and ends with a word character (a character with
    [isalnum()], or an underscore): a hyphen is kept inside a word and never
    at its end. *)
Theorem extract_words_ends u text stopwords min_length :
  Forall (fun w => is_token u w = true ∧ ends_with_word u w = true)
         (extract_words_from_text u text stopwords min_length).
Proof.
  destruct text as [text|]; [|constructor]. rewrite extract_words_from_text_filter.
  destruct (findall_words u (Unicode.lower u text)) as (_ & Htokens & _).
  apply Forall_forall. intros w [_ Hw]%list_elem_of_filter.
  by apply (proj1 (Forall_forall _ _) Htokens).
Qed.

End Text.

(** ** [json]

    [json.dumps] with its defaults ([ensure_ascii], separators [", "] and
    [": "]) and [json.loads]. A number is kept as its literal. Text is
    Latin-1: a [\uXXXX] above [ÿ] is refused. *)

Module Json.

Inductive Value :=
| Null
| Bool (b : bool)
| Num (literal : string)
| Text (s : string)
| Arr (items : list Value)
| Obj (members : list (string * Value)).

Definition quote : ascii := "034"%char.
Definition backslash : ascii := "092"%char.


Definition hex_value (c : ascii) : option nat :=
  let n := nat_of_ascii c in
  if Re.in_range 48 57 c then Some (n - 48)%nat
  else if Re.in_range 97 102 c then Some (n - 87)%nat
  else if Re.in_range 65 70 c then Some (n - 55)%nat
  else None.





(** *** Parsing *)

Definition is_ws (c : ascii) : bool :=
  let n := nat_of_ascii c in
  (n =? 32)%nat || (n =? 9)%nat || (n =? 10)%nat || (n =? 13)%nat.

Fixpoint skip_ws (s : string) : string :=
  match s with
  | String c s' => if is_ws c then skip_ws s' else s
  | EmptyString => s
  end.

Definition unescape (e : ascii) : option ascii :=
  if Ascii.eqb e quote then Some quote
  else if Ascii.eqb e backslash then Some backslash
  else if Ascii.eqb e "/" then Some "/"%char
  else if Ascii.eqb e "b" then Some (ascii_of_nat 8)
  else if Ascii.eqb e "f" then Some (ascii_of_nat 12)
  else if Ascii.eqb e "n" then Some (ascii_of_nat 10)
  else if Ascii.eqb e "r" then Some (ascii_of_nat 13)
  else if Ascii.eqb e "t" then Some (ascii_of_nat 9)
  else None.

Definition hex4 (a b c d : ascii) : option nat :=
  x ← hex_value a; y ← hex_value b; z ← hex_value c; w ← hex_value d;
  Some (((x * 16 + y) * 16 + z) * 16 + w)%nat.

(** The text of a string literal from after its opening quote, and what
    follows its closing quote. *)
Fixpoint parse_text (s : string) : option (string * string) :=
  match s with
  | EmptyString => None
  | String c s' =>
      if Ascii.eqb c quote then Some ("", s')
      else if Ascii.eqb c backslash then
        match s' with
        | String e s'' =>
            if Ascii.eqb e "u" then
              match s'' with
              | String h1 (String h2 (String h3 (String h4 s3))) =>
                  match hex4 h1 h2 h3 h4 with
                  | Some n =>
                      if (n <? 256)%nat
                      then prod_map (String (ascii_of_nat n)) id <$> parse_text s3
                      else None
                  | None => None
                  end
              | _ => None
              end
            else
              match unescape e with
              | Some x => prod_map (String x) id <$> parse_text s''
              | None => None
              end
        | EmptyString => None
        end
      else if (nat_of_ascii c <? 32)%nat then None
      else prod_map (String c) id <$> parse_text s'
  end.

Definition is_num_char (c : ascii) : bool :=
  Re.is_digit c || Ascii.eqb c "-" || Ascii.eqb c "+" || Ascii.eqb c "."
  || Ascii.eqb c "e" || Ascii.eqb c "E".

(** The longest run of number characters at the head of [s]. *)
Fixpoint span_num (s : string) : string * string :=
  match s with
  | String c s' =>
      if is_num_char c then prod_map (String c) id (span_num s') else ("", s)
  | EmptyString => ("", s)
  end.

Definition expect (word : string) (v : Value) (s : string) : option (Value * string) :=
  if Str.startswith word s then Some (v, Str.drop (String.length word) s) else None.

(** The items of an array after its bracket, [value] parsing one; at most
    [n] of them. *)
Fixpoint parse_items (value : string → option (Value * string)) (n : nat) (s : string)
  : option (list Value * string) :=
  match n with
  | O => None
  | S n' =>
      '(v, s1) ← value s;
      match skip_ws s1 with
      | String "," s2 => prod_map (cons v) id <$> parse_items value n' s2
      | String "]" s2 => Some ([v], s2)
      | _ => None
      end
  end.

(** The members of an object after its brace. *)
Fixpoint parse_members (value : string → option (Value * string)) (n : nat) (s : string)
  : option (list (string * Value) * string) :=
  match n with
  | O => None
  | S n' =>
      match skip_ws s with
      | String q s0 =>
          if Ascii.eqb q quote then
            '(k, s1) ← parse_text s0;
            match skip_ws s1 with
            | String ":" s2 =>
                '(v, s3) ← value s2;
                match skip_ws s3 with
                | String "," s4 => prod_map (cons (k, v)) id <$> parse_members value n' s4
                | String "}" s4 => Some ([(k, v)], s4)
                | _ => None
                end
            | _ => None
            end
          else None
      | EmptyString => None
      end
  end.

(** A value at the head of [s] (leading blanks passed), and the rest.
    [fuel] bounds the nesting and the number of items of an array. *)
Fixpoint parse_value (fuel : nat) (s : string) : option (Value * string) :=
  match fuel with
  | O => None
  | S fuel' =>
      match skip_ws s with
      | EmptyString => None
      | String c s' =>
          if Ascii.eqb c quote then prod_map Text id <$> parse_text s'
          else if Ascii.eqb c "[" then
            match skip_ws s' with
            | String "]" s2 => Some (Arr [], s2)
            | _ => prod_map Arr id <$> parse_items (parse_value fuel') fuel' s'
            end
          else if Ascii.eqb c "{" then
            match skip_ws s' with
            | String "}" s2 => Some (Obj [], s2)
            | _ => prod_map Obj id <$> parse_members (parse_value fuel') fuel' s'
            end
          else if Ascii.eqb c "n" then expect "null" Null (String c s')
          else if Ascii.eqb c "t" then expect "true" (Bool true) (String c s')
          else if Ascii.eqb c "f" then expect "false" (Bool false) (String c s')
          else if Ascii.eqb c "N" then expect "NaN" (Num "NaN") (String c s')
          else if Ascii.eqb c "I" then expect "Infinity" (Num "Infinity") (String c s')
          else if Str.startswith "-Infinity" (String c s')
          then expect "-Infinity" (Num "-Infinity") (String c s')
          else if Re.is_digit c || Ascii.eqb c "-"
          then Some (prod_map Num id (span_num (String c s')))
          else None
      end
  end.

(** [json.loads]: one value, blanks around it, nothing else. *)
Definition loads (s : string) : Result Value :=
  match parse_value (S (String.length s)) s with
  | Some (v, rest) =>
      match skip_ws rest with
      | EmptyString => Ok v
      | String _ _ => Raise (ValueError "Extra data")
      end
  | None => Raise (ValueError "Expecting value")
  end.

(** *** A list of strings survives [dumps] then [loads] *)












End Json.

(** ** Sorting

    [sorted(rows, key=key, reverse=True)]: by [key] descending and stable,
    rows of equal key keeping the order they come in. *)

Module PySort.

Fixpoint insert_desc {A} (key : A → Z) (x : A) (sorted : list A) : list A :=
  match sorted with
  | [] => [x]
  | y :: sorted' =>
      if key y <=? key x then x :: y :: sorted' else y :: insert_desc key x sorted'
  end.

Definition sorted_desc {A} (key : A → Z) (rows : list A) : list A :=
  foldr (insert_desc key) [] rows.

(** [descending key l]: the keys never grow along [l]. *)
Definition descending {A} (key : A → Z) (l : list A) : Prop :=
  StronglySorted (fun a b => key b ≤ key a) l.

Lemma insert_desc_perm {A} (key : A → Z) x l : insert_desc key x l ≡ₚ x :: l.
Proof.
  induction l as [|y l IH]; [done|]. simpl. case_match; [done|].
  rewrite IH. apply Permutation_swap.
Qed.

Lemma sorted_desc_perm {A} (key : A → Z) l : sorted_desc key l ≡ₚ l.
Proof.
  induction l as [|x l IH]; [done|]. simpl. by rewrite insert_desc_perm, IH.
Qed.

Lemma insert_desc_descending {A} (key : A → Z) x l :
  descending key l → descending key (insert_desc key x l).
Proof.
  unfold descending. induction l as [|y l IH]; intros Hl; simpl.
  - by repeat constructor.
  - inversion Hl as [|? ? Hl' Hy]; subst. case_match eqn:Hle.
    + apply Z.leb_le in Hle. constructor; [done|].
      constructor; [done|]. eapply Forall_impl; [apply Hy|]. simpl. intros; lia.
    + apply Z.leb_gt in Hle. constructor; [by apply IH|].
      rewrite insert_desc_perm. constructor; [lia|done].
Qed.

Lemma sorted_desc_descending {A} (key : A → Z) l : descending key (sorted_desc key l).
Proof.
  induction l as [|x l IH]; [constructor|]. by apply insert_desc_descending.
Qed.

Lemma descending_take {A} (key : A → Z) n l :
  descending key l → descending key (take n l).
Proof.
  unfold descending. revert n. induction l as [|x l IH]; intros n Hl.
  - by destruct n.
  - destruct n as [|n]; [constructor|]. inversion Hl; subst. simpl.
    constructor; [by apply IH|]. by apply Forall_take.
Qed.

Lemma descending_fmap {A B} (f : A → B) (key : A → Z) (key' : B → Z) l :
  (∀ x, key' (f x) = key x) → descending key l → descending key' (f <$> l).
Proof.
  intros Hkey. unfold descending. induction 1 as [|x l Hl IH Hx]; [constructor|].
  simpl. constructor; [done|]. apply Forall_fmap.
  eapply Forall_impl; [apply Hx|]. simpl. intros y. by rewrite !Hkey.
Qed.

(** [sum(f(x) for x in l)] *)
Definition sum_by {A} (f : A → Z) (l : list A) : Z :=
  foldr (fun x acc => f x + acc) 0 l.

Lemma sum_by_perm {A} (f : A → Z) l l' : l ≡ₚ l' → sum_by f l = sum_by f l'.
Proof. induction 1; simpl in *; lia. Qed.

Lemma sum_by_nonneg {A} (f : A → Z) l : Forall (fun x => 0 ≤ f x) l → 0 ≤ sum_by f l.
Proof. induction 1; simpl; lia. Qed.

Lemma sum_by_take {A} (f : A → Z) n l :
  Forall (fun x => 0 ≤ f x) l → sum_by f (take n l) ≤ sum_by f l.
Proof.
  revert n. induction l as [|x l IH]; intros n Hpos; [by destruct n|].
  inversion Hpos; subst. destruct n as [|n]; simpl.
  - pose proof (sum_by_nonneg f l H2). lia.
  - specialize (IH n H2). lia.
Qed.

Lemma sum_by_fmap {A B} (g : A → B) (f : B → Z) l :
  sum_by f (g <$> l) = sum_by (fun x => f (g x)) l.
Proof. induction l as [|x l IH]; [done|]. simpl. f_equal. exact IH. Qed.

End PySort.

(** ** The catalog

    The SQLite connection the aggregator queries: the tables it reads, the
    settings it reads and writes, and the two things the code does not
    decide. [failing] names the statements the engine refuses (a locked
    database, too many host parameters, a missing table) with the message of
    the exception; [engine] orders the rows of an [ORDER BY], free in the
    order of rows with equal keys, as SQL leaves it. *)

Module Catalog.

Record ImageRow := {
  i_id : Z;
  i_path : string;
  i_date : Z;
  i_exif : option string
}.

Record TagRow := { t_id : Z; t_name : string; t_type : string }.

Record ImageTagRow := { it_image_id : Z; it_tag_id : Z }.

(** The statements of [folder_stats.py], with their host parameters. *)
Inductive Statement :=
| SelectImages (pattern : string) (limit : option Z)
| SelectImagesExif (pattern : string) (limit : option Z)
| CountTagged (image_ids : list Z)
| SelectTagCounts (image_ids : list Z) (limit : Z)
| SelectSetting (name : string)
| ReplaceSetting (name value : string).

(** [ORDER BY key DESC] *)
Record Engine := {
  order_by_desc : ∀ A : Type, (A → Z) → list A → list A;
  order_by_desc_perm : ∀ A (key : A → Z) (l : list A), order_by_desc A key l ≡ₚ l;
  order_by_desc_sorted : ∀ A (key : A → Z) (l : list A),
    PySort.descending key (order_by_desc A key l)
}.

Record Conn := {
  image : list ImageRow;
  tag : list TagRow;
  image_tag : list ImageTagRow;
  global_setting : gmap string string;
  failing : Statement → option string;
  engine : Engine
}.

(** [cur.execute(statement)] raising, or the rows it fetches. *)
Definition execute {A} (conn : Conn) (st : Statement) (rows : A) : Result A :=
  match failing conn st with
  | Some msg => Raise (DatabaseError msg)
  | None => Ok rows
  end.

(** [s LIKE pattern]: [%] is any text, [_] any character, letters match
    without regard to case. *)
Fixpoint like (pattern s : string) : bool :=
  match pattern with
  | EmptyString => bool_decide (s = "")
  | String p pattern' =>
      if Ascii.eqb p "%" then
        (fix any (s : string) : bool :=
           like pattern' s ||
           match s with
           | String _ s' => any s'
           | EmptyString => false
           end) s
      else
        match s with
        | String c s' =>
            (Ascii.eqb p "_" || Ascii.eqb (Str.lower_char p) (Str.lower_char c))
            && like pattern' s'
        | EmptyString => false
        end
  end.

(** [LIMIT n]: a negative [n] is no limit. *)
Definition sql_limit {A} (n : Z) (rows : list A) : list A :=
  if n <? 0 then rows else take (Z.to_nat n) rows.

(** [SELECT id, path FROM image WHERE path LIKE ?], with
    [ORDER BY date DESC LIMIT ?] when a limit is passed. *)
Definition select_images (conn : Conn) (pattern : string) (limit : option Z)
  : Result (list (Z * string)) :=
  let matching := filter (fun r => like pattern (i_path r) = true) (image conn) in
  let rows :=
    match limit with
    | Some n => sql_limit n (order_by_desc (engine conn) _ i_date matching)
    | None => matching
    end in
  execute conn (SelectImages pattern limit)
          ((fun r => (i_id r, i_path r)) <$> rows).

(** [SELECT path, exif FROM image WHERE path LIKE ? AND exif IS NOT NULL
    AND exif != ''], with [ORDER BY date DESC LIMIT ?] when a limit is
    passed. *)
Definition select_images_exif (conn : Conn) (pattern : string) (limit : option Z)
  : Result (list (string * string)) :=
  let matching :=
    filter (fun r => like pattern (i_path r) = true
                     ∧ i_exif r ≠ None ∧ i_exif r ≠ Some "")
           (image conn) in
  let rows :=
    match limit with
    | Some n => sql_limit n (order_by_desc (engine conn) _ i_date matching)
    | None => matching
    end in
  execute conn (SelectImagesExif pattern limit)
          ((fun r => (i_path r, default "" (i_exif r))) <$> rows).

(** [image_tag JOIN tag ON image_tag.tag_id = tag.id WHERE image_id IN
    (...) AND tag.type = 'custom']: one row for each application of a custom
    tag to one of the images. *)
Definition custom_links (conn : Conn) (image_ids : list Z) : list (ImageTagRow * TagRow) :=
  l ← image_tag conn;
  t ← tag conn;
  if bool_decide (it_tag_id l = t_id t ∧ it_image_id l ∈ image_ids
                  ∧ t_type t = "custom")
  then [(l, t)] else [].

(** [SELECT COUNT(DISTINCT it.image_id) ...] *)
Definition count_tagged (conn : Conn) (image_ids : list Z) : Result Z :=
  execute conn (CountTagged image_ids)
    (Z.of_nat (length (remove_dups ((fun lt => it_image_id lt.1) <$> custom_links conn image_ids)))).

(** A row of the tag histogram: a tag's id, name and type, and the count of
    its group. *)
Record TagCount := { tc_id : Z; tc_name : string; tc_type : string; tc_count : Z }.

(** [GROUP BY key]: the first row of each group with the number of rows of
    the group, the keys in [seen] left out. *)
Fixpoint group_by {A} (key : A → Z) (seen : list Z) (rows : list A) : list (A * Z) :=
  match rows with
  | [] => []
  | r :: rows' =>
      if bool_decide (key r ∈ seen) then group_by key seen rows'
      else (r, 1 + Z.of_nat (length (filter (fun r' => key r' = key r) rows')))
             :: group_by key (key r :: seen) rows'
  end.

(** [GROUP BY tag.id]: one row for each tag of the joined rows, with the
    number of joined rows of that tag. *)
Definition group_by_tag (links : list (ImageTagRow * TagRow)) : list TagCount :=
  (fun g : (ImageTagRow * TagRow) * Z =>
     {| tc_id := t_id g.1.2;
        tc_name := t_name g.1.2;
        tc_type := t_type g.1.2;
        tc_count := g.2 |})
  <$> group_by (fun lt => t_id lt.2) [] links.

(** [SELECT tag.id, tag.name, tag.type, COUNT as count ... GROUP BY tag.id
    ORDER BY count DESC LIMIT ?] *)
Definition select_tag_counts (conn : Conn) (image_ids : list Z) (limit : Z)
  : Result (list TagCount) :=
  execute conn (SelectTagCounts image_ids limit)
    (sql_limit limit
       (order_by_desc (engine conn) _ tc_count (group_by_tag (custom_links conn image_ids)))).

(** Modelled from the spec: [GlobalSetting.get_setting] and
    [GlobalSetting.save_setting] of [scripts/iib/db/datamodel.py], which is
    not among the sources. The specification has a named setting read and
    written, stored as a serialized string value; [get_stopwords] tests the
    value read for being a list, so reading deserializes it, and a setting
    never written reads as [None]. *)
Definition get_setting (conn : Conn) (name : string) : Result (option Json.Value) :=
  stored ← execute conn (SelectSetting name) (global_setting conn !! name);
  match stored with
  | None => Ok None
  | Some text => Some <$> Json.loads text
  end.

Definition with_setting (conn : Conn) (name value : string) : Conn :=
  {| image := image conn;
     tag := tag conn;
     image_tag := image_tag conn;
     global_setting := <[name := value]> (global_setting conn);
     failing := failing conn;
     engine := engine conn |}.


Lemma custom_links_nil conn : custom_links conn [] = [].
Proof.
  unfold custom_links.
  assert (∀ l (ts : list TagRow),
            (t ← ts;
             if bool_decide (it_tag_id l = t_id t ∧ it_image_id l ∈ @nil Z
                             ∧ t_type t = "custom")
             then [(l, t)] else []) = []) as Hinner.
  { intros l ts. induction ts as [|t ts IH]; [done|].
    cbn [mbind list_bind]. rewrite IH.
    rewrite bool_decide_eq_false_2; [done|].
    intros (_ & Hin & _). by apply elem_of_nil in Hin. }
  induction (image_tag conn) as [|l ls IH]; [done|].
  cbn [mbind list_bind]. by rewrite IH, Hinner.
Qed.

(** [sum] of the counts of groups *)
Definition sum_groups {A} (groups : list (A * Z)) : Z := PySort.sum_by snd groups.

Lemma filter_key_split {A} (key : A → Z) (k : Z) (seen : list Z) (rows : list A) :
  k ∉ seen →
  (length (filter (fun r => key r = k) rows)
   + length (filter (fun r => key r ∉ k :: seen) rows)
   = length (filter (fun r => key r ∉ seen) rows))%nat.
Proof.
  intros Hk. induction rows as [|r rows IH]; [done|].
  rewrite !filter_cons.
  destruct (decide (key r = k)) as [Heq|Hne].
  - rewrite (decide_False (P := key r ∉ k :: seen)) by (rewrite Heq; set_solver).
    rewrite (decide_True (P := key r ∉ seen)) by (by rewrite Heq). simpl. lia.
  - destruct (decide (key r ∈ seen)) as [Hin|Hnin].
    + rewrite (decide_False (P := key r ∉ k :: seen)) by set_solver.
      rewrite (decide_False (P := key r ∉ seen)) by (by intros ?). done.
    + rewrite (decide_True (P := key r ∉ k :: seen)) by set_solver.
      rewrite (decide_True (P := key r ∉ seen)) by done. simpl. lia.
Qed.

(** The counts of the groups add up to the number of rows grouped. *)
Lemma sum_group_by {A} (key : A → Z) (seen : list Z) (rows : list A) :
  sum_groups (group_by key seen rows)
  = Z.of_nat (length (filter (fun r => key r ∉ seen) rows)).
Proof.
  revert seen. induction rows as [|r rows IH]; intros seen; [done|].
  cbn [group_by]. rewrite filter_cons. case_bool_decide as Hseen.
  - rewrite decide_False by (by intros ?). apply IH.
  - rewrite decide_True by done. unfold sum_groups in *. cbn [PySort.sum_by foldr length].
    fold (PySort.sum_by snd (group_by key (key r :: seen) rows)). rewrite IH. simpl.
    pose proof (filter_key_split key (key r) seen rows Hseen). lia.
Qed.

(** Every group has a row. *)
Lemma group_by_positive {A} (key : A → Z) (seen : list Z) (rows : list A) :
  Forall (fun g => 1 ≤ g.2) (group_by key seen rows).
Proof.
  revert seen. induction rows as [|r rows IH]; intros seen; [constructor|].
  cbn [group_by]. case_bool_decide; [apply IH|].
  constructor; [simpl; lia|apply IH].
Qed.

(** An engine whose sort is stable: rows of equal key come out in the order
    they went in. *)
Definition stable_engine : Engine :=
  {| order_by_desc := @PySort.sorted_desc;
     order_by_desc_perm := @PySort.sorted_desc_perm;
     order_by_desc_sorted := @PySort.sorted_desc_descending |}.

(** A connection all of whose statements succeed. *)
Definition healthy (conn : Conn) : Prop := ∀ st, failing conn st = None.

End Catalog.

(** ** Numbers

    A Python [float] is an IEEE 754 binary64, here a [spec_float] with the
    operations of the standard library's specification of them. [round(x,
    2)] is CPython's: the value of [x] rounded (half to even) to two
    decimals, then the nearest float to that decimal. *)

Module PyFloat.

Definition prec : Z := 53.
Definition emax : Z := 1024.

Inductive Number :=
| Int (z : Z)
| Float (f : spec_float).

(** [float(z)] *)
Definition of_int (z : Z) : spec_float := binary_normalize prec emax z 0 false.

(** [a / b] on integers (below [2 ** 53], where [float(a)] is exact) *)
Definition truediv (a b : Z) : spec_float := SFdiv prec emax (of_int a) (of_int b).

Definition mul : spec_float → spec_float → spec_float := SFmul prec emax.

(** [n / d] rounded to the nearest integer, a tie to the even one; [0 ≤ n]
    and [0 < d]. *)
Definition round_half_even (n d : Z) : Z :=
  let q := n / d in
  let r := n mod d in
  if 2 * r <? d then q
  else if d <? 2 * r then q + 1
  else if Z.even q then q else q + 1.

(** [round(x, 2)] *)
Definition round2 (x : spec_float) : spec_float :=
  match x with
  | S754_finite s m e =>
      let n :=
        if 0 <=? e then Z.pos m * 2 ^ e * 100
        else round_half_even (Z.pos m * 100) (2 ^ (- e)) in
      SFdiv prec emax (of_int (if s then - n else n)) (of_int 100)
  | _ => x
  end.

(** The number a value stands for. *)
Definition to_Q (x : Number) : Q :=
  match x with
  | Int z => inject_Z z
  | Float (S754_finite s m e) =>
      let v := if 0 <=? e then inject_Z (Z.pos m * 2 ^ e)
               else Qmake (Z.pos m) (Z.to_pos (2 ^ (- e))) in
      if s then Qopp v else v
  | Float _ => inject_Z 0
  end.

(** [round((count / total * 100), 2) if total > 0 else 0] *)
Definition percentage (count total : Z) : Number :=
  if 0 <? total then Float (round2 (mul (truediv count total) (of_int 100)))
  else Int 0.

(** [sum] of the numbers a list of values stands for. *)
Definition sum_Q (l : list Number) : Q := foldr (fun x acc => Qplus (to_Q x) acc) (inject_Z 0) l.

End PyFloat.

(** ** The host

    What [folder_stats.py] reads besides the catalog: the file tree (regular
    files and directories; a file whose size cannot be read and a directory
    that cannot be listed raise [OSError] there), the working directory, the
    two predicates of [scripts/iib/tool.py], and the Unicode database of the
    interpreter. *)

Module Host.

Inductive Node :=
| File (size : option Z)
| Dir (entries : option (list (string * Node))).

Record t := {
  cwd : string;
  root : Node;
  is_media_file : string → bool;
  get_video_type : string → option string;
  db : Catalog.Conn;
  unicode : Unicode.t
}.

Fixpoint resolve (n : Node) (comps : list string) : option Node :=
  match comps with
  | [] => Some n
  | c :: comps' =>
      match n with
      | Dir (Some entries) =>
          match list_find (fun e : string * Node => e.1 = c) entries with
          | Some (_, (_, child)) => resolve child comps'
          | None => None
          end
      | _ => None
      end
  end.

Definition lookup (h : t) (path : string) : option Node :=
  resolve (root h)
    (filter (fun c : string => c ≠ "") (posixpath.split_sep (posixpath.abspath (cwd h) path))).

(** [os.path.exists] and [os.path.isdir] *)
Definition exists_ (h : t) (path : string) : bool :=
  match lookup h path with Some _ => true | None => false end.

Definition isdir (h : t) (path : string) : bool :=
  match lookup h path with Some (Dir _) => true | _ => false end.

(** [DataBase.get_conn()] *)
Definition get_conn (h : t) : Catalog.Conn := db h.

End Host.

(** ** The statistics aggregator ([folder_stats.py]) *)

Module folder_stats.

Import PyFloat.

(** *** Stopwords *)

Definition DEFAULT_STOPWORDS : list string :=
  ["a"; "an"; "and"; "are"; "as"; "at"; "be"; "by"; "for"; "from"; "has"; "he";
   "in"; "is"; "it"; "its"; "of"; "on"; "that"; "the"; "to"; "was"; "will"; "with";
   "i"; "you"; "we"; "they"; "this"; "but"; "or"; "not"; "if"; "can"; "my"; "your";
   "all"; "one"; "two"; "more"; "been"; "have"; "had"; "do"; "does"; "done"; "so";
   "up"; "out"; "about"; "into"; "through"; "during"; "before"; "after"; "above";
   "below"; "between"; "under"; "again"; "further"; "then"; "once"; "there"; "when";
   "where"; "why"; "how"; "both"; "each"; "few"; "more"; "most"; "other"; "some";
   "such"; "no"; "nor"; "only"; "own"; "same"; "than"; "too"; "very"; "just"].

Definition STOPWORDS_SETTING_KEY : string := "folder_stats_stopwords".

(** [word.lower()] on an element of the setting: only a string has it. *)
Definition word_lower (word : Json.Value) : Result string :=
  match word with
  | Json.Text s => Ok (Str.lower s)
  | _ => Raise (AttributeError "object has no attribute 'lower'")
  end.

Fixpoint words_lower (setting : list Json.Value) : Result (list string) :=
  match setting with
  | [] => Ok []
  | word :: setting' =>
      w ← word_lower word;
      ws ← words_lower setting';
      Ok (w :: ws)
  end.

Definition get_stopwords (conn : Catalog.Conn) : Result (gset string) :=
  setting ← Catalog.get_setting conn STOPWORDS_SETTING_KEY;
  match setting with
  | Some (Json.Arr (word :: setting')) => list_to_set <$> words_lower (word :: setting')
  | _ => Ok (list_to_set DEFAULT_STOPWORDS)
  end.


(** *** File and folder counts *)

Record Counts := {
  file_count : Z;
  subfolder_count : Z;
  total_size_bytes : Z;
  media_file_count : Z
}.

Definition no_counts : Counts :=
  {| file_count := 0; subfolder_count := 0; total_size_bytes := 0; media_file_count := 0 |}.

Definition add_counts (a b : Counts) : Counts :=
  {| file_count := file_count a + file_count b;
     subfolder_count := subfolder_count a + subfolder_count b;
     total_size_bytes := total_size_bytes a + total_size_bytes b;
     media_file_count := media_file_count a + media_file_count b |}.

(** One file: counted; its size and its being a media file are counted
    when the size can be read. *)
Definition count_file (is_media_file : string → bool) (name : string) (size : option Z)
  : Counts :=
  match size with
  | Some sz =>
      {| file_count := 1; subfolder_count := 0; total_size_bytes := sz;
         media_file_count := if is_media_file name then 1 else 0 |}
  | None =>
      {| file_count := 1; subfolder_count := 0; total_size_bytes := 0;
         media_file_count := 0 |}
  end.

Definition one_subfolder : Counts :=
  {| file_count := 0; subfolder_count := 1; total_size_bytes := 0; media_file_count := 0 |}.

(** The loop over [os.walk(folder_path)]; a directory that cannot be listed
    yields nothing. *)
Fixpoint walk_counts (is_media_file : string → bool) (n : Host.Node) : Counts :=
  match n with
  | Host.Dir (Some entries) =>
      (fix go (es : list (string * Host.Node)) : Counts :=
         match es with
         | [] => no_counts
         | (name, Host.File size) :: es' =>
             add_counts (count_file is_media_file name size) (go es')
         | (name, (Host.Dir _) as d) :: es' =>
             add_counts (add_counts one_subfolder (walk_counts is_media_file d)) (go es')
         end) entries
  | _ => no_counts
  end.

(** The loop over [os.scandir(folder_path)]. *)
Definition scan_counts (is_media_file : string → bool) (n : Host.Node) : Counts :=
  match n with
  | Host.Dir (Some entries) =>
      foldr (fun e acc =>
               match e with
               | (name, Host.File size) => add_counts (count_file is_media_file name size) acc
               | (_, Host.Dir _) => add_counts one_subfolder acc
               end) no_counts entries
  | _ => no_counts
  end.

Definition get_file_and_folder_counts (h : Host.t) (folder_path : string) (recursive : bool)
  : Counts :=
  if negb (Host.exists_ h folder_path) || negb (Host.isdir h folder_path) then no_counts
  else
    match Host.lookup h folder_path with
    | Some n =>
        if recursive then walk_counts (Host.is_media_file h) n
        else scan_counts (Host.is_media_file h) n
    | None => no_counts
    end.

(** *** Rows of a folder *)

(** [if limit:] *)
Definition truthy (limit : option Z) : bool :=
  match limit with
  | Some n => negb (n =? 0)
  | None => false
  end.

(** [limit is not None] *)
Definition is_not_None (limit : option Z) : bool :=
  match limit with Some _ => true | None => false end.

(** [folder_path + os.sep + "%"] *)
Definition path_pattern (folder_path : string) : string :=
  folder_path +:+ posixpath.sep +:+ "%".

(** [os.sep not in rel_path and rel_path != '.'] for the path of a row
    relative to the folder. *)
Definition is_direct_child (h : Host.t) (folder_path img_path : string) : Result bool :=
  rel_path ← posixpath.relpath (Host.cwd h) img_path folder_path;
  Ok (negb (Str.contains posixpath.sep rel_path) && negb (bool_decide (rel_path = "."))).

(** The loop that keeps the direct children ([if not recursive:]). *)
Fixpoint direct_children {A} (h : Host.t) (folder_path : string) (path_of : A → string)
    (rows : list A) : Result (list A) :=
  match rows with
  | [] => Ok []
  | row :: rows' =>
      keep ← is_direct_child h folder_path (path_of row);
      filtered ← direct_children h folder_path path_of rows';
      Ok (if (keep : bool) then row :: filtered else filtered)
  end.

(** The rows [get_media_stats] and [get_top_tags] analyze: the query with
    the limit when it is truthy, the query without one otherwise, then the
    direct children when not recursive. *)
Definition fetch_images (h : Host.t) (conn : Catalog.Conn) (folder_path : string)
    (recursive : bool) (limit : option Z) : Result (list (Z * string)) :=
  image_rows ← (if truthy limit
                then Catalog.select_images conn (path_pattern folder_path) limit
                else Catalog.select_images conn (path_pattern folder_path) None);
  if negb recursive then direct_children h folder_path snd image_rows
  else Ok image_rows.

(** The same for the rows with metadata ([analyze_prompt_words] and
    [get_metadata_summary]). *)
Definition fetch_exif (h : Host.t) (conn : Catalog.Conn) (folder_path : string)
    (recursive : bool) (max_images : option Z) : Result (list (string * string)) :=
  rows ← (if truthy max_images
          then Catalog.select_images_exif conn (path_pattern folder_path) max_images
          else Catalog.select_images_exif conn (path_pattern folder_path) None);
  if negb recursive then direct_children h folder_path fst rows
  else Ok rows.

(** *** Media statistics *)

Record MediaStats := {
  total_images : Z;
  total_videos : Z;
  indexed_media : Z;
  tagged_images : Z;
  untagged_images : Z;
  analyzed_count : Z;
  limit_applied : bool;
  media_error : option string
}.

Definition no_media (limit : option Z) (error : option string) : MediaStats :=
  {| total_images := 0; total_videos := 0; indexed_media := 0; tagged_images := 0;
     untagged_images := 0; analyzed_count := 0;
     limit_applied := is_not_None limit; media_error := error |}.

Definition is_video (h : Host.t) (path : string) : bool :=
  match Host.get_video_type h path with
  | Some kind => negb (bool_decide (kind = ""))
  | None => false
  end.

(** The [try] block of [get_media_stats]. *)
Definition media_stats_body (h : Host.t) (conn : Catalog.Conn) (folder_path : string)
    (recursive : bool) (limit : option Z) : Result MediaStats :=
  image_rows ← fetch_images h conn folder_path recursive limit;
  let image_ids := (image_rows : list (Z * string)).*1 in
  let total_images := Z.of_nat (length image_ids) in
  if total_images =? 0 then Ok (no_media limit None)
  else
    let total_videos := Z.of_nat (length (filter (fun row => is_video h row.2 = true) image_rows)) in
    let total_images_only := total_images - total_videos in
    tagged_count ← Catalog.count_tagged conn image_ids;
    Ok {| total_images := total_images_only;
          total_videos := total_videos;
          indexed_media := total_images;
          tagged_images := tagged_count;
          untagged_images := total_images - tagged_count;
          analyzed_count := total_images;
          limit_applied := is_not_None limit;
          media_error := None |}.

Definition get_media_stats (h : Host.t) (conn : Catalog.Conn) (folder_path : string)
    (recursive : bool) (limit : option Z) : MediaStats :=
  let folder_path := posixpath.normpath folder_path in
  match media_stats_body h conn folder_path recursive limit with
  | Ok stats => stats
  | Raise e => no_media limit (Some (str_of_exception e))
  end.

(** *** Tag histogram *)

Record TagEntry := {
  tag_id : Z;
  tag_name : string;
  tag_type : string;
  count : Z;
  percentage : Number
}.

(** [sum(row[3] for row in rows)] *)
Definition sum_counts (rows : list Catalog.TagCount) : Z :=
  PySort.sum_by Catalog.tc_count rows.

Definition tag_entry (total_tags : Z) (row : Catalog.TagCount) : TagEntry :=
  {| tag_id := Catalog.tc_id row;
     tag_name := Catalog.tc_name row;
     tag_type := Catalog.tc_type row;
     count := Catalog.tc_count row;
     percentage := PyFloat.percentage (Catalog.tc_count row) total_tags |}.

(** The [try] block of [get_top_tags]. *)
Definition top_tags_body (h : Host.t) (conn : Catalog.Conn) (folder_path : string)
    (recursive : bool) (limit : Z) (max_images : option Z) : Result (list TagEntry) :=
  image_rows ← fetch_images h conn folder_path recursive max_images;
  let image_ids := (image_rows : list (Z * string)).*1 in
  match image_ids with
  | [] => Ok []
  | _ :: _ =>
      rows ← Catalog.select_tag_counts conn image_ids limit;
      let total_tags := sum_counts rows in
      Ok (tag_entry total_tags <$> rows)
  end.

Definition get_top_tags (h : Host.t) (conn : Catalog.Conn) (folder_path : string)
    (recursive : bool) (limit : Z) (max_images : option Z) : list TagEntry :=
  let folder_path := posixpath.normpath folder_path in
  match top_tags_body h conn folder_path recursive limit max_images with
  | Ok entries => entries
  | Raise _ => []
  end.

(** *** [collections.Counter] *)

(** [counter[key] += 1]: a new key goes last. *)
Fixpoint counter_add (key : string) (counter : list (string * Z)) : list (string * Z) :=
  match counter with
  | [] => [(key, 1)]
  | (k, n) :: counter' =>
      if bool_decide (k = key) then (k, n + 1) :: counter'
      else (k, n) :: counter_add key counter'
  end.

(** [Counter(words)] *)
Definition Counter (words : list string) : list (string * Z) :=
  fold_left (fun counter w => counter_add w counter) words [].

(** [counter.most_common(n)]: the first [n] of
    [sorted(items, key=itemgetter(1), reverse=True)]. *)
Definition most_common (n : Z) (counter : list (string * Z)) : list (string * Z) :=
  take (Z.to_nat n) (PySort.sorted_desc snd counter).

(** [sum(counter.values())] *)
Definition sum_values (counter : list (string * Z)) : Z := PySort.sum_by snd counter.

(** *** Prompt words *)

Record WordEntry := {
  word : string;
  word_count : Z;
  word_percentage : Number
}.

Record PromptAnalysis := {
  total_prompts_analyzed : Z;
  total_words_found : option Z;
  top_words : list WordEntry;
  prompt_error : option string
}.

Definition no_prompts (error : option string) : PromptAnalysis :=
  {| total_prompts_analyzed := 0; total_words_found := None; top_words := [];
     prompt_error := error |}.

Definition word_entry (total_words : Z) (item : string * Z) : WordEntry :=
  {| word := item.1;
     word_count := item.2;
     word_percentage := PyFloat.percentage item.2 total_words |}.

(** The words of one row: those of its positive prompt. *)
Definition row_words (u : Unicode.t) (stopwords : gset string) (row : string * string)
  : list string :=
  let exif_data := row.2 in
  if bool_decide (exif_data = "") then []
  else Text.extract_words_from_text u (Some (Text.extract_positive_prompt exif_data))
         stopwords 2.

(** The [try] block of [analyze_prompt_words]. *)
Definition prompt_words_body (h : Host.t) (conn : Catalog.Conn) (stopwords : gset string)
    (folder_path : string) (recursive : bool) (limit : Z) (max_images : option Z)
  : Result PromptAnalysis :=
  rows ← fetch_exif h conn folder_path recursive max_images;
  match rows with
  | [] => Ok (no_prompts None)
  | _ :: _ =>
      let all_words := concat (row_words (Host.unicode h) stopwords <$> rows) in
      let word_counts := Counter all_words in
      let top_words := most_common limit word_counts in
      let total_words := sum_values word_counts in
      Ok {| total_prompts_analyzed := Z.of_nat (length rows);
            total_words_found := Some (Z.of_nat (length word_counts));
            top_words := word_entry total_words <$> top_words;
            prompt_error := None |}
  end.

(** [get_stopwords] is called before the [try]: what it raises is not
    caught here. *)
Definition analyze_prompt_words (h : Host.t) (conn : Catalog.Conn) (folder_path : string)
    (recursive : bool) (limit : Z) (max_images : option Z) : Result PromptAnalysis :=
  let folder_path := posixpath.normpath folder_path in
  stopwords ← get_stopwords conn;
  match prompt_words_body h conn stopwords folder_path recursive limit max_images with
  | Ok analysis => Ok analysis
  | Raise e => Ok (no_prompts (Some (str_of_exception e)))
  end.

(** *** Metadata summary *)

Definition lits (s : string) : list Re.Atom := Re.lit <$> list_ascii_of_string s.

Definition not_newline_comma (c : ascii) : bool :=
  negb (Ascii.eqb c Text.nl) && negb (Ascii.eqb c ",").

Definition not_quote (c : ascii) : bool := negb (Ascii.eqb c Json.quote).

(** [Model:\s*([^\n,]+)], the same in lower case, and the JSON member. *)
Definition model_patterns : list (list Re.Atom) :=
  [ lits "Model:" ++ [Re.Rep Re.is_space 0 None; Re.Open;
                      Re.Rep not_newline_comma 1 None; Re.Close];
    lits "model:" ++ [Re.Rep Re.is_space 0 None; Re.Open;
                      Re.Rep not_newline_comma 1 None; Re.Close];
    [Re.lit Json.quote] ++ lits "model" ++ [Re.lit Json.quote] ++ lits ":"
      ++ [Re.Rep Re.is_space 0 None; Re.lit Json.quote; Re.Open;
          Re.Rep not_quote 1 None; Re.Close; Re.lit Json.quote] ].

Definition width_x_height (lo : nat) (hi : option nat) : list Re.Atom :=
  [Re.Open; Re.Rep Re.is_digit lo hi; Re.lit "x"; Re.Rep Re.is_digit lo hi; Re.Close].

(** [Size:\s*(\d+x\d+)], the same in lower case, the JSON member, and the
    bare [(\d{3,5}x\d{3,5})]. *)
Definition size_patterns : list (list Re.Atom) :=
  [ lits "Size:" ++ [Re.Rep Re.is_space 0 None] ++ width_x_height 1 None;
    lits "size:" ++ [Re.Rep Re.is_space 0 None] ++ width_x_height 1 None;
    [Re.lit Json.quote] ++ lits "size" ++ [Re.lit Json.quote] ++ lits ":"
      ++ [Re.Rep Re.is_space 0 None; Re.lit Json.quote] ++ width_x_height 1 None
      ++ [Re.lit Json.quote];
    width_x_height 3 (Some 5%nat) ].

(** [match.group(1)] *)
Definition group1 (m : Re.Match) : string := default "" (Re.group m).

(** The loop over [model_patterns]: the first pattern that matches with a
    name left after [strip()]. *)
Fixpoint find_model (patterns : list (list Re.Atom)) (exif_data : string) : option string :=
  match patterns with
  | [] => None
  | pattern :: patterns' =>
      match Re.search pattern exif_data with
      | Some m =>
          let model_name := Str.strip Re.is_space (group1 m) in
          if bool_decide (model_name = "") then find_model patterns' exif_data
          else Some model_name
      | None => find_model patterns' exif_data
      end
  end.

(** The loop over [size_patterns]: the first pattern that matches. *)
Fixpoint find_size (patterns : list (list Re.Atom)) (exif_data : string) : option string :=
  match patterns with
  | [] => None
  | pattern :: patterns' =>
      match Re.search pattern exif_data with
      | Some m => Some (group1 m)
      | None => find_size patterns' exif_data
      end
  end.

Record MetadataSummary := {
  models : list (string * Z);
  sizes : list (string * Z);
  metadata_error : option string
}.

Definition add_found (found : option string) (counter : list (string * Z))
  : list (string * Z) :=
  match found with
  | Some key => counter_add key counter
  | None => counter
  end.

(** The [try] block of [get_metadata_summary]. *)
Definition metadata_summary_body (h : Host.t) (conn : Catalog.Conn) (folder_path : string)
    (recursive : bool) (max_images : option Z) : Result MetadataSummary :=
  rows ← fetch_exif h conn folder_path recursive max_images;
  let with_exif := filter (fun row : string * string => row.2 ≠ "") rows in
  let models :=
    fold_left (fun counter row => add_found (find_model model_patterns row.2) counter)
              with_exif [] in
  let sizes :=
    fold_left (fun counter row => add_found (find_size size_patterns row.2) counter)
              with_exif [] in
  Ok {| models := most_common 10 models;
        sizes := most_common 10 sizes;
        metadata_error := None |}.

Definition get_metadata_summary (h : Host.t) (conn : Catalog.Conn) (folder_path : string)
    (recursive : bool) (max_images : option Z) : MetadataSummary :=
  let folder_path := posixpath.normpath folder_path in
  match metadata_summary_body h conn folder_path recursive max_images with
  | Ok summary => summary
  | Raise e => {| models := []; sizes := []; metadata_error := Some (str_of_exception e) |}
  end.

(** *** The whole record *)

Record FolderStatsRecord := {
  folder_path : string;
  recursive : bool;
  counts : Counts;
  media_stats : MediaStats;
  top_tags : list TagEntry;
  prompt_analysis : PromptAnalysis;
  metadata_summary : option MetadataSummary;
  analysis_limit : option Z
}.

Definition compute_folder_stats (h : Host.t) (folder_path : string) (recursive : bool)
    (include_metadata : bool) (analysis_limit : option Z) : Result FolderStatsRecord :=
  let folder_path := posixpath.normpath folder_path in
  if negb (Host.exists_ h folder_path) || negb (Host.isdir h folder_path)
  then Raise (ValueError ("Invalid folder path: " +:+ folder_path))
  else
    let conn := Host.get_conn h in
    let counts := get_file_and_folder_counts h folder_path recursive in
    let media_stats := get_media_stats h conn folder_path recursive analysis_limit in
    let top_tags := get_top_tags h conn folder_path recursive 10 analysis_limit in
    prompt_analysis ← analyze_prompt_words h conn folder_path recursive 20 analysis_limit;
    let metadata_summary :=
      if include_metadata
      then Some (get_metadata_summary h conn folder_path recursive analysis_limit)
      else None in
    Ok {| folder_path := folder_path;
          recursive := recursive;
          counts := counts;
          media_stats := media_stats;
          top_tags := top_tags;
          prompt_analysis := prompt_analysis;
          metadata_summary := metadata_summary;
          analysis_limit := analysis_limit |}.

(** *** The tag histogram *)

(** The custom-tag applications on the images of [image_ids]. *)
Definition tag_applications (conn : Catalog.Conn) (image_ids : list Z) : Z :=
  Z.of_nat (length (Catalog.custom_links conn image_ids)).

(** The tags applied to the images of [image_ids]. *)
Definition distinct_tags (conn : Catalog.Conn) (image_ids : list Z) : Z :=
  Z.of_nat (length (Catalog.group_by_tag (Catalog.custom_links conn image_ids))).

(** [sum(entry["count"] for entry in entries)] *)
Definition sum_entry_counts (entries : list TagEntry) : Z := PySort.sum_by count entries.

Lemma sum_counts_group_by_tag links :
  sum_counts (Catalog.group_by_tag links) = Z.of_nat (length links).
Proof.
  unfold Catalog.group_by_tag.
  transitivity (Catalog.sum_groups
                  (Catalog.group_by (fun lt : Catalog.ImageTagRow * Catalog.TagRow =>
                                       Catalog.t_id lt.2) [] links)).
  - induction (Catalog.group_by _ [] links) as [|g gs IH]; [done|].
    simpl. f_equal. exact IH.
  - rewrite Catalog.sum_group_by. f_equal. f_equal.
    induction links as [|x links IH]; [done|].
    rewrite filter_cons, decide_True by set_solver. by rewrite IH.
Qed.

Lemma group_by_tag_positive links :
  Forall (fun row => 1 ≤ Catalog.tc_count row) (Catalog.group_by_tag links).
Proof.
  unfold Catalog.group_by_tag. apply Forall_fmap.
  eapply Forall_impl; [apply Catalog.group_by_positive|]. done.
Qed.

Lemma sum_counts_perm rows rows' : rows ≡ₚ rows' → sum_counts rows = sum_counts rows'.
Proof. apply PySort.sum_by_perm. Qed.

Lemma sum_counts_take n rows :
  Forall (fun row => 1 ≤ Catalog.tc_count row) rows →
  sum_counts (take n rows) ≤ sum_counts rows.
Proof.
  intros Hpos. apply PySort.sum_by_take.
  eapply Forall_impl; [apply Hpos|]. simpl. intros; lia.
Qed.

Lemma sum_entry_counts_tag_entry total rows :
  sum_entry_counts (tag_entry total <$> rows) = sum_counts rows.
Proof. unfold sum_entry_counts. by rewrite PySort.sum_by_fmap. Qed.

(** What [get_top_tags] returns: nothing, or the rows of the histogram
    query, each with its share of the counts returned. *)
Lemma get_top_tags_cases h conn folder_path recursive limit max_images :
  get_top_tags h conn folder_path recursive limit max_images = []
  ∨ ∃ image_rows,
      fetch_images h conn (posixpath.normpath folder_path) recursive max_images = Ok image_rows
      ∧ image_rows ≠ []
      ∧ Catalog.failing conn (Catalog.SelectTagCounts image_rows.*1 limit) = None
      ∧ get_top_tags h conn folder_path recursive limit max_images
        = tag_entry
            (sum_counts
               (Catalog.sql_limit limit
                  (Catalog.order_by_desc (Catalog.engine conn) _ Catalog.tc_count
                     (Catalog.group_by_tag (Catalog.custom_links conn image_rows.*1)))))
          <$> Catalog.sql_limit limit
                (Catalog.order_by_desc (Catalog.engine conn) _ Catalog.tc_count
                   (Catalog.group_by_tag (Catalog.custom_links conn image_rows.*1))).
Proof.
  unfold get_top_tags, top_tags_body.
  destruct (fetch_images h conn _ recursive max_images) as [image_rows|e]; [|by left].
  cbn [mbind result_bind].
  destruct image_rows as [|row image_rows]; [by left|].
  cbn [fmap list_fmap]. unfold Catalog.select_tag_counts, Catalog.execute.
  destruct (Catalog.failing conn _) eqn:Hfail; [by left|].
  right. exists (row :: image_rows). by split_and!.
Qed.

Lemma sql_limit_descending {A} (key : A → Z) limit rows :
  PySort.descending key rows → PySort.descending key (Catalog.sql_limit limit rows).
Proof.
  intros Hrows. unfold Catalog.sql_limit. case_match; [done|].
  by apply PySort.descending_take.
Qed.

(** C5, as the code has it: the tag histogram is sorted by count
    descending, whatever the catalog, the folder and the limits. The query
    orders by count only: the order of entries with equal count is the
    engine's. *)
Theorem top_tags_sorted_by_count h conn folder_path recursive limit max_images :
  PySort.descending count (get_top_tags h conn folder_path recursive limit max_images).
Proof.
  destruct (get_top_tags_cases h conn folder_path recursive limit max_images)
    as [->|(image_rows & _ & _ & _ & ->)]; [constructor|].
  eapply PySort.descending_fmap; [|apply sql_limit_descending, Catalog.order_by_desc_sorted].
  done.
Qed.

(** C3, as the code has it: the counts returned add up to at most the
    custom-tag applications on the analyzed images; to exactly that number
    when the histogram query succeeds and its [LIMIT] (negative: none) does
    not cut off a tag; and without a tag application nothing is returned, so
    no percentage is computed. *)
Theorem top_tags_counts h conn folder_path recursive limit max_images image_rows :
  fetch_images h conn (posixpath.normpath folder_path) recursive max_images = Ok image_rows →
  sum_entry_counts (get_top_tags h conn folder_path recursive limit max_images)
    ≤ tag_applications conn image_rows.*1
  ∧ (Catalog.failing conn (Catalog.SelectTagCounts image_rows.*1 limit) = None →
     limit < 0 ∨ distinct_tags conn image_rows.*1 ≤ limit →
     sum_entry_counts (get_top_tags h conn folder_path recursive limit max_images)
     = tag_applications conn image_rows.*1)
  ∧ (tag_applications conn image_rows.*1 = 0 →
     get_top_tags h conn folder_path recursive limit max_images = []).
Proof.
  intros Hfetch. unfold tag_applications, distinct_tags.
  unfold get_top_tags, top_tags_body. rewrite Hfetch. cbn [mbind result_bind].
  destruct image_rows as [|row image_rows].
  { rewrite Catalog.custom_links_nil. by split_and!. }
  change ((row :: image_rows).*1) with (row.1 :: image_rows.*1).
  set (ids := row.1 :: image_rows.*1).
  set (links := Catalog.custom_links conn ids).
  set (groups := Catalog.group_by_tag links).
  unfold Catalog.select_tag_counts, Catalog.execute. fold links. fold groups.
  set (sorted := Catalog.order_by_desc (Catalog.engine conn) _ Catalog.tc_count groups).
  assert (sum_counts sorted = Z.of_nat (length links)) as Hsum.
  { unfold sorted. rewrite (sum_counts_perm _ groups) by apply Catalog.order_by_desc_perm.
    apply sum_counts_group_by_tag. }
  assert (Forall (fun row => 1 ≤ Catalog.tc_count row) sorted) as Hpos.
  { unfold sorted. rewrite Catalog.order_by_desc_perm. apply group_by_tag_positive. }
  assert (length sorted = length groups) as Hlen.
  { unfold sorted. by rewrite Catalog.order_by_desc_perm. }
  destruct (Catalog.failing conn _) eqn:Hfail; unfold ids; cbn [mbind result_bind].
  - split_and!; [simpl; lia|done|done].
  - rewrite sum_entry_counts_tag_entry.
    unfold Catalog.sql_limit. split_and!.
    + case_match; [lia|]. rewrite <- Hsum. by apply sum_counts_take.
    + intros _ [Hneg|Hall].
      * apply Z.ltb_lt in Hneg. by rewrite Hneg.
      * case_match; [done|]. rewrite take_ge by lia. done.
    + intros Hnone. assert (links = []) as Hnil by (destruct links; [done|simpl in Hnone; lia]).
      assert (sorted = []) as ->; [|by destruct (limit <? 0); [|rewrite take_nil]].
      apply Permutation_nil_r. unfold sorted, groups. rewrite Hnil.
      apply (Catalog.order_by_desc_perm _ _ _ []).
Qed.

(** *** Percentages *)

Lemma sum_values_counter_add key counter :
  sum_values (counter_add key counter) = sum_values counter + 1.
Proof.
  unfold sum_values. induction counter as [|[k n] counter IH]; [done|].
  cbn [counter_add]. case_bool_decide; simpl in *; lia.
Qed.

Lemma counter_add_positive key counter :
  Forall (fun kv : string * Z => 0 ≤ kv.2) counter →
  Forall (fun kv : string * Z => 0 ≤ kv.2) (counter_add key counter).
Proof.
  induction 1 as [|[k n] counter Hn Hc IH]; [by repeat constructor|].
  cbn [counter_add]. case_bool_decide; constructor; simpl in *; (lia || done).
Qed.

(** A counter counts every word once: its values add up to the number of
    words. *)
Lemma sum_values_Counter words : sum_values (Counter words) = Z.of_nat (length words).
Proof.
  unfold Counter.
  assert (∀ counter, sum_values (fold_left (fun c w => counter_add w c) words counter)
                     = sum_values counter + Z.of_nat (length words)) as Hgen.
  { induction words as [|w words IH]; intros counter; [simpl; lia|].
    cbn [fold_left length]. rewrite IH, sum_values_counter_add. lia. }
  by rewrite Hgen.
Qed.

Lemma Counter_positive words :
  Forall (fun kv : string * Z => 0 ≤ kv.2) (Counter words).
Proof.
  unfold Counter.
  assert (∀ counter, Forall (fun kv : string * Z => 0 ≤ kv.2) counter →
            Forall (fun kv : string * Z => 0 ≤ kv.2)
                   (fold_left (fun c w => counter_add w c) words counter)) as Hgen.
  { induction words as [|w words IH]; intros counter Hc; [done|].
    cbn [fold_left]. by apply IH, counter_add_positive. }
  apply Hgen. constructor.
Qed.

(** The counts [most_common] shows add up to at most the counter's total. *)
Lemma sum_values_most_common n counter :
  Forall (fun kv : string * Z => 0 ≤ kv.2) counter →
  sum_values (most_common n counter) ≤ sum_values counter.
Proof.
  intros Hpos. unfold most_common, sum_values.
  rewrite <- (PySort.sum_by_perm snd _ _ (PySort.sorted_desc_perm snd counter)).
  apply PySort.sum_by_take. by rewrite PySort.sorted_desc_perm.
Qed.

(** [sum(entry["count"] for entry in top_words)] *)
Definition sum_word_counts (entries : list WordEntry) : Z := PySort.sum_by word_count entries.

(** The words counted for the rows [rows] with the stopwords [stopwords]. *)
Definition words_counted (u : Unicode.t) (stopwords : gset string)
    (rows : list (string * string)) : Z :=
  Z.of_nat (length (concat (row_words u stopwords <$> rows))).

(** C2, as the code has it: in both histograms every percentage is
    [round(count / total * 100, 2)] for the histogram's total (for tags the
    sum of the counts returned, for words the number of words counted), it
    is [0] when the total is zero, and the counts shown add up to at most
    the total (to exactly the total for tags): the shares before rounding
    add up to at most 100. *)
Theorem histogram_percentages h conn folder_path recursive limit max_images :
  (∀ n, PyFloat.percentage n 0 = PyFloat.Int 0)
  ∧ Forall (fun entry =>
              percentage entry
              = PyFloat.percentage (count entry)
                  (sum_entry_counts
                     (get_top_tags h conn folder_path recursive limit max_images)))
           (get_top_tags h conn folder_path recursive limit max_images)
  ∧ (∀ analysis,
       analyze_prompt_words h conn folder_path recursive limit max_images = Ok analysis →
       ∃ total_words,
         Forall (fun entry =>
                   word_percentage entry = PyFloat.percentage (word_count entry) total_words)
                (top_words analysis)
         ∧ sum_word_counts (top_words analysis) ≤ total_words
         ∧ (∀ stopwords rows,
              get_stopwords conn = Ok stopwords →
              fetch_exif h conn (posixpath.normpath folder_path) recursive max_images
                = Ok rows →
              rows ≠ [] → total_words = words_counted (Host.unicode h) stopwords rows)).
Proof.
  split_and!.
  - done.
  - destruct (get_top_tags_cases h conn folder_path recursive limit max_images)
      as [->|(image_rows & _ & _ & _ & ->)]; [constructor|].
    rewrite sum_entry_counts_tag_entry. apply Forall_fmap, Forall_forall. done.
  - intros analysis. unfold analyze_prompt_words.
    destruct (get_stopwords conn) as [stopwords|e]; [|done]. cbn [mbind result_bind].
    unfold prompt_words_body.
    destruct (fetch_exif h conn _ recursive max_images) as [rows|e]; cbn [mbind result_bind].
    + destruct rows as [|row rows].
      * intros [= <-]. exists 0. split_and!; [constructor|done|].
        by intros ? ? _ [= <-] ?.
      * intros [= <-]. cbn [top_words].
        set (words := concat (row_words (Host.unicode h) stopwords <$> row :: rows)).
        exists (sum_values (Counter words)). split_and!.
        -- apply Forall_fmap, Forall_forall. done.
        -- unfold sum_word_counts. rewrite PySort.sum_by_fmap.
           apply sum_values_most_common, Counter_positive.
        -- intros ? ? [= <-] [= <-] _. apply sum_values_Counter.
    + intros [= <-]. exists 0. by split_and!; [constructor|done|].
Qed.

(** *** Stopwords saved and read back *)



(** A setting never saved reads as the default list. *)
Lemma get_stopwords_unset conn :
  Catalog.failing conn (Catalog.SelectSetting STOPWORDS_SETTING_KEY) = None →
  Catalog.global_setting conn !! STOPWORDS_SETTING_KEY = None →
  get_stopwords conn = Ok (list_to_set DEFAULT_STOPWORDS).
Proof.
  intros Hok Hnone. unfold get_stopwords, Catalog.get_setting, Catalog.execute.
  rewrite Hok. cbn [mbind result_bind]. by rewrite Hnone.
Qed.



(** *** Errors *)

(** What [get_stopwords] may raise. *)
Lemma get_stopwords_raises conn e :
  get_stopwords conn = Raise e →
  (∃ msg, e = DatabaseError msg) ∨ (∃ msg, e = AttributeError msg)
  ∨ e = ValueError "Extra data" ∨ e = ValueError "Expecting value".
Proof.
  unfold get_stopwords, Catalog.get_setting, Catalog.execute.
  destruct (Catalog.failing conn _) as [msg|]; cbn [mbind result_bind].
  { intros [= <-]. left. by eexists. }
  destruct (Catalog.global_setting conn !! _) as [text|]; [|done].
  unfold Json.loads. destruct (Json.parse_value _ text) as [[v rest]|].
  - destruct (Json.skip_ws rest); cbn [fmap result_fmap mbind result_bind].
    + destruct v as [| | | |[|word items]|]; try done.
      assert (∀ items, words_lower items = Raise e → ∃ msg, e = AttributeError msg) as Hwl.
      { clear. induction items as [|word items IH]; [done|].
        cbn [words_lower]. destruct word; cbn [word_lower mbind result_bind];
          try (intros [= <-]; by eexists).
        destruct (words_lower items); cbn [mbind result_bind]; [done|].
        intros [= <-]. by apply IH. }
      destruct (words_lower (word :: items)) eqn:Hw; [done|].
      intros [= <-]. right. left. by apply (Hwl (word :: items)).
    + intros [= <-]. by right; right; left.
  - intros [= <-]. by right; right; right.
Qed.

(** C4, as the code has it. [compute_folder_stats] raises the invalid-path
    error exactly when the normalised path does not exist or is no
    directory. When the validation passes and the stopwords can be read,
    it returns the record, and a step whose [try] block raises gives its
    empty result: media statistics of zeros and the prompt analysis and the
    metadata summary empty, each with the text of the exception as [error];
    the tag histogram the empty list, which carries no error. *)
Theorem compute_folder_stats_errors h folder_path recursive include_metadata analysis_limit :
  (compute_folder_stats h folder_path recursive include_metadata analysis_limit
   = Raise (ValueError ("Invalid folder path: " +:+ posixpath.normpath folder_path))
   ↔ Host.exists_ h (posixpath.normpath folder_path) = false
     ∨ Host.isdir h (posixpath.normpath folder_path) = false)
  ∧ (Host.exists_ h (posixpath.normpath folder_path) = true →
     Host.isdir h (posixpath.normpath folder_path) = true →
     ∀ stopwords, get_stopwords (Host.get_conn h) = Ok stopwords →
     ∃ record,
       compute_folder_stats h folder_path recursive include_metadata analysis_limit = Ok record
       ∧ (∀ e, media_stats_body h (Host.get_conn h) (posixpath.normpath folder_path)
                 recursive analysis_limit = Raise e →
               media_stats record = no_media analysis_limit (Some (str_of_exception e)))
       ∧ (∀ e, top_tags_body h (Host.get_conn h) (posixpath.normpath folder_path)
                 recursive 10 analysis_limit = Raise e →
               top_tags record = [])
       ∧ (∀ e, prompt_words_body h (Host.get_conn h) stopwords
                 (posixpath.normpath folder_path) recursive 20 analysis_limit = Raise e →
               prompt_analysis record = no_prompts (Some (str_of_exception e)))
       ∧ (∀ e, metadata_summary_body h (Host.get_conn h) (posixpath.normpath folder_path)
                 recursive analysis_limit = Raise e →
               metadata_summary record =
                 if include_metadata
                 then Some {| models := []; sizes := [];
                              metadata_error := Some (str_of_exception e) |}
                 else None)).
Proof.
  unfold compute_folder_stats.
  destruct (Host.exists_ h _) eqn:Hexists; cbn [negb orb].
  2: { split; [split; [by left|done]|done]. }
  destruct (Host.isdir h _) eqn:Hisdir; cbn [negb orb].
  2: { split; [split; [by right|done]|done]. }
  split.
  - split; [|by intros [?|?]].
    unfold analyze_prompt_words.
    destruct (get_stopwords _) as [stopwords|e] eqn:Hsw; cbn [mbind result_bind].
    + by destruct (prompt_words_body _ _ _ _ _ _ _).
    + intros [= ->].
      by destruct (get_stopwords_raises _ _ Hsw) as [[? ?]|[[? ?]|[?|?]]].
  - intros _ _ stopwords Hsw.
    unfold analyze_prompt_words, get_media_stats, get_top_tags, get_metadata_summary.
    rewrite !posixpath.normpath_idempotent, Hsw. cbn [mbind result_bind].
    destruct (prompt_words_body _ _ _ _ _ _ _) as [analysis|ep] eqn:Hprompt;
      cbn [mbind result_bind]; eexists; (split; [done|]);
      cbn [media_stats top_tags prompt_analysis metadata_summary];
      split_and!; intros e He; rewrite ?He; try done.
    by injection He as ->.
Qed.

(** *** The stopwords read *)



(** *** Counting files *)

(** Induction on a file tree: a directory holds what holds of its
    entries. *)
Lemma Node_tree_ind (P : Host.Node → Prop) :
  (∀ size, P (Host.File size)) →
  P (Host.Dir None) →
  (∀ entries, Forall (fun e : string * Host.Node => P e.2) entries →
              P (Host.Dir (Some entries))) →
  ∀ n, P n.
Proof.
  intros Hfile Hnone Hdir. fix IH 1. intros [size|[entries|]]; [apply Hfile| |apply Hnone].
  apply Hdir. induction entries as [|[name child] entries IHe]; constructor;
    [apply IH|apply IHe].
Qed.

(** [a] counts no more than [b] does, sizes apart. *)
Definition counts_le (a b : Counts) : Prop :=
  file_count a ≤ file_count b
  ∧ subfolder_count a ≤ subfolder_count b
  ∧ media_file_count a ≤ media_file_count b.

(** Counts are not negative, and media files are files. *)
Definition counts_sound (c : Counts) : Prop :=
  0 ≤ media_file_count c ≤ file_count c ∧ 0 ≤ subfolder_count c.

Lemma walk_counts_file is_media name size es :
  walk_counts is_media (Host.Dir (Some ((name, Host.File size) :: es)))
  = add_counts (count_file is_media name size) (walk_counts is_media (Host.Dir (Some es))).
Proof. done. Qed.

Lemma walk_counts_dir is_media name entries es :
  walk_counts is_media (Host.Dir (Some ((name, Host.Dir entries) :: es)))
  = add_counts (add_counts one_subfolder (walk_counts is_media (Host.Dir entries)))
               (walk_counts is_media (Host.Dir (Some es))).
Proof. done. Qed.

Lemma count_file_sound is_media name size : counts_sound (count_file is_media name size).
Proof. unfold counts_sound. destruct size; simpl; [destruct (is_media name)|]; lia. Qed.

Lemma walk_counts_sound is_media n : counts_sound (walk_counts is_media n).
Proof.
  induction n as [size| |entries IH] using Node_tree_ind; [by unfold counts_sound..|].
  induction IH as [|[name [size|sub]] es Hchild _ IHes]; [by unfold counts_sound| |].
  - rewrite walk_counts_file. pose proof (count_file_sound is_media name size).
    unfold counts_sound in *. simpl in *. lia.
  - rewrite walk_counts_dir. unfold counts_sound in *. simpl in *. lia.
Qed.

Lemma scan_counts_walk_counts is_media n :
  counts_sound (scan_counts is_media n)
  ∧ counts_le (scan_counts is_media n) (walk_counts is_media n).
Proof.
  destruct n as [size|[entries|]]; [by unfold counts_sound, counts_le..| |by unfold counts_sound, counts_le].
  induction entries as [|[name [size|sub]] es IH]; [by unfold counts_sound, counts_le| |].
  - rewrite walk_counts_file. cbn [scan_counts foldr] in *.
    pose proof (count_file_sound is_media name size).
    unfold counts_sound, counts_le in *. simpl in *. lia.
  - rewrite walk_counts_dir. cbn [scan_counts foldr] in *.
    pose proof (walk_counts_sound is_media (Host.Dir sub)).
    unfold counts_sound, counts_le in *. simpl in *. lia.
Qed.

(** No file of the tree has a negative size. *)
Fixpoint sizes_nonneg (n : Host.Node) : bool :=
  match n with
  | Host.File (Some size) => 0 <=? size
  | Host.File None => true
  | Host.Dir (Some entries) =>
      forallb (fun e : string * Host.Node => let '(_, child) := e in sizes_nonneg child) entries
  | Host.Dir None => true
  end.

Lemma sizes_nonneg_resolve n comps n' :
  sizes_nonneg n = true → Host.resolve n comps = Some n' → sizes_nonneg n' = true.
Proof.
  revert n. induction comps as [|c comps IH]; intros n Hn; [by intros [= <-]|].
  cbn [Host.resolve]. destruct n as [size|[entries|]]; [done| |done].
  destruct (list_find _ entries) as [[i [name child]]|] eqn:Hfind; [|done].
  apply list_find_Some in Hfind as (Hi & _ & _).
  apply IH. cbn [sizes_nonneg] in Hn. rewrite forallb_forall in Hn.
  apply (Hn (name, child)), list_elem_of_In. by eapply list_elem_of_lookup_2.
Qed.

Lemma walk_counts_size is_media n :
  sizes_nonneg n = true → 0 ≤ total_size_bytes (walk_counts is_media n).
Proof.
  induction n as [size| |entries IH] using Node_tree_ind; [done..|].
  cbn [sizes_nonneg]. induction IH as [|[name [size|sub]] es Hchild _ IHes]; [done| |].
  - cbn [forallb]. intros [Hsize Hes]%andb_true_iff. rewrite walk_counts_file.
    specialize (IHes Hes). destruct size as [size|]; simpl in *; lia.
  - cbn [forallb]. intros [Hsub Hes]%andb_true_iff. rewrite walk_counts_dir.
    specialize (IHes Hes). specialize (Hchild Hsub). simpl in *. lia.
Qed.

Lemma scan_counts_size is_media n :
  sizes_nonneg n = true →
  0 ≤ total_size_bytes (scan_counts is_media n) ≤ total_size_bytes (walk_counts is_media n).
Proof.
  destruct n as [size|[entries|]]; [done| |done].
  cbn [sizes_nonneg]. induction entries as [|[name [size|sub]] es IH]; [done| |].
  - cbn [forallb]. intros [Hsize Hes]%andb_true_iff. rewrite walk_counts_file.
    specialize (IH Hes). cbn [scan_counts foldr] in *.
    destruct size as [size|]; simpl in *; lia.
  - cbn [forallb]. intros [Hsub Hes]%andb_true_iff. rewrite walk_counts_dir.
    specialize (IH Hes). cbn [scan_counts foldr] in *.
    pose proof (walk_counts_size is_media (Host.Dir sub) Hsub). simpl in *. lia.
Qed.

(** X4. The counts of files and folders, for any host, path and mode:
    none is negative and the media files are among the files (a file whose
    size cannot be read is a file, and is not counted as media); a path that
    is no directory counts as nothing; and the direct entries of a folder
    never count for more than its whole tree, in number and, where no file
    has a negative size, in bytes. *)
Theorem file_and_folder_counts_bounds h folder_path recursive :
  counts_sound (get_file_and_folder_counts h folder_path recursive)
  ∧ counts_le (get_file_and_folder_counts h folder_path false)
              (get_file_and_folder_counts h folder_path true)
  ∧ (Host.isdir h folder_path = false →
     get_file_and_folder_counts h folder_path recursive = no_counts)
  ∧ (sizes_nonneg (Host.root h) = true →
     0 ≤ total_size_bytes (get_file_and_folder_counts h folder_path false)
       ≤ total_size_bytes (get_file_and_folder_counts h folder_path true)).
Proof.
  unfold get_file_and_folder_counts.
  destruct (negb (Host.exists_ h folder_path) || negb (Host.isdir h folder_path)) eqn:Hvalid.
  { by unfold counts_sound, counts_le. }
  apply orb_false_iff in Hvalid as [_ Hdir%negb_false_iff].
  destruct (Host.lookup h folder_path) as [n|] eqn:Hn; [|by unfold counts_sound, counts_le].
  destruct (scan_counts_walk_counts (Host.is_media_file h) n) as [Hscan Hle].
  split_and!; [|done|by rewrite Hdir|].
  - destruct recursive; [apply walk_counts_sound|done].
  - intros Hroot. apply scan_counts_size. by eapply sizes_nonneg_resolve.
Qed.

(** *** What the queries fetch *)

Lemma like_percent pattern s :
  Catalog.like (String "%" pattern) s
  = Catalog.like pattern s
    || match s with
       | String _ s' => Catalog.like (String "%" pattern) s'
       | EmptyString => false
       end.
Proof. by destruct s. Qed.

Lemma like_char p pattern s :
  p ≠ "%"%char →
  Catalog.like (String p pattern) s
  = match s with
    | String c s' =>
        (Ascii.eqb p "_" || Ascii.eqb (Str.lower_char p) (Str.lower_char c))
        && Catalog.like pattern s'
    | EmptyString => false
    end.
Proof. intros Hp. cbn [Catalog.like]. by rewrite (proj2 (Ascii.eqb_neq p "%")). Qed.

(** No pattern of a folder matches the empty path. *)
Lemma like_path_pattern_empty folder_path :
  Catalog.like (path_pattern folder_path) "" = false.
Proof.
  unfold path_pattern. induction folder_path as [|p folder_path IH]; [done|].
  rewrite Str.append_cons. destruct (decide (p = "%"%char)) as [->|Hp].
  - rewrite like_percent. by rewrite IH.
  - by rewrite like_char.
Qed.

Lemma like_any s : Catalog.like "%" s = true.
Proof. induction s as [|c s IH]; [done|]. rewrite like_percent, IH. apply orb_true_r. Qed.

(** A path that begins with the text of a pattern matches the pattern
    followed by [%], whatever wildcards the text holds. *)
Lemma like_prefix p s :
  Str.startswith p s = true → Catalog.like (p +:+ "%") s = true.
Proof.
  revert s. induction p as [|a p IH]; intros s; [intros _; apply like_any|].
  destruct s as [|b s]; [done|]. cbn [Str.startswith].
  intros [->%Ascii.eqb_eq Hs]%andb_true_iff. rewrite Str.append_cons.
  destruct (decide (b = "%"%char)) as [->|Hb].
  - rewrite like_percent. cbn iota. rewrite like_percent, (IH s Hs). apply orb_true_r.
  - rewrite like_char by done. by rewrite Ascii.eqb_refl, orb_true_r, (IH s Hs).
Qed.

(** [wildcard_free p]: neither [%] nor [_] occurs in [p]. *)
Definition wildcard_free (p : string) : bool :=
  Str.all_chars (fun c => negb (Ascii.eqb c "%") && negb (Ascii.eqb c "_")) p.

(** Without wildcards in its text, the pattern matches the paths that
    begin with the text, letters compared without regard to case. *)
Lemma like_wildcard_free p s :
  wildcard_free p = true →
  Catalog.like (p +:+ "%") s = Str.startswith (Str.lower p) (Str.lower s).
Proof.
  unfold wildcard_free. revert s. induction p as [|a p IH]; intros s; [intros _; apply like_any|].
  cbn [Str.all_chars]. intros [[Ha1 Ha2]%andb_true_iff Hp]%andb_true_iff.
  apply negb_true_iff in Ha1, Ha2. rewrite Str.append_cons.
  rewrite like_char by (by apply Ascii.eqb_neq). destruct s as [|b s]; [done|].
  cbn [Str.lower Str.startswith]. by rewrite Ha2, (IH s Hp).
Qed.

(** The rows of a [LIMIT]: some of the rows. *)
Lemma sql_limit_sublist {A} n (rows : list A) : Catalog.sql_limit n rows `sublist_of` rows.
Proof. unfold Catalog.sql_limit. case_match; [done|apply sublist_take]. Qed.

Lemma sql_limit_length {A} n (rows : list A) :
  0 ≤ n → Z.of_nat (length (Catalog.sql_limit n rows)) ≤ n.
Proof.
  intros Hn. unfold Catalog.sql_limit. rewrite (proj2 (Z.ltb_ge n 0)) by done.
  rewrite length_take. lia.
Qed.

(** The images a query selects, before their columns are projected. *)
Definition selected (conn : Catalog.Conn) (keep : Catalog.ImageRow → Prop)
    `{!∀ r, Decision (keep r)} (limit : option Z) : list Catalog.ImageRow :=
  match limit with
  | Some n => Catalog.sql_limit n
                (Catalog.order_by_desc (Catalog.engine conn) _ Catalog.i_date
                   (filter keep (Catalog.image conn)))
  | None => filter keep (Catalog.image conn)
  end.

Lemma selected_keep conn keep `{!∀ r, Decision (keep r)} limit :
  Forall (fun r => keep r ∧ r ∈ Catalog.image conn) (selected conn keep limit).
Proof.
  apply Forall_forall. intros r Hr.
  assert (r ∈ filter keep (Catalog.image conn)) as Hin; [|by apply list_elem_of_filter in Hin].
  destruct limit as [n|]; [|done]. cbn [selected] in Hr.
  pose proof (elem_of_sublist _ _ _ Hr (sql_limit_sublist n _)) as Hr'.
  by rewrite Catalog.order_by_desc_perm in Hr'.
Qed.

Lemma select_images_selected conn pattern limit rows :
  Catalog.select_images conn pattern limit = Ok rows →
  rows = (fun r => (Catalog.i_id r, Catalog.i_path r))
           <$> selected conn (fun r => Catalog.like pattern (Catalog.i_path r) = true) limit.
Proof.
  unfold Catalog.select_images, Catalog.execute.
  destruct (Catalog.failing conn _); [done|]. intros [= <-]. by destruct limit.
Qed.

Lemma select_images_exif_selected conn pattern limit rows :
  Catalog.select_images_exif conn pattern limit = Ok rows →
  rows = (fun r => (Catalog.i_path r, default "" (Catalog.i_exif r)))
           <$> selected conn (fun r => Catalog.like pattern (Catalog.i_path r) = true
                                       ∧ Catalog.i_exif r ≠ None ∧ Catalog.i_exif r ≠ Some "")
                 limit.
Proof.
  unfold Catalog.select_images_exif, Catalog.execute.
  destruct (Catalog.failing conn _); [done|]. intros [= <-]. by destruct limit.
Qed.

(** *** Direct children *)

(** Whether a row of path [img_path] stays when not recursive. *)
Definition direct_child (h : Host.t) (folder_path img_path : string) : bool :=
  match is_direct_child h folder_path img_path with
  | Ok keep => keep
  | Raise _ => false
  end.

Lemma is_direct_child_nonempty h folder_path img_path :
  img_path ≠ "" →
  is_direct_child h folder_path img_path = Ok (direct_child h folder_path img_path).
Proof.
  intros Hne. unfold direct_child, is_direct_child, posixpath.relpath.
  rewrite bool_decide_eq_false_2 by done. cbn zeta. by case_match.
Qed.

Lemma direct_children_filter {A} h folder_path (path_of : A → string) rows :
  Forall (fun row => path_of row ≠ "") rows →
  direct_children h folder_path path_of rows
  = Ok (filter (fun row => direct_child h folder_path (path_of row) = true) rows).
Proof.
  induction 1 as [|row rows Hrow _ IH]; [done|].
  cbn [direct_children]. rewrite is_direct_child_nonempty, IH by done.
  cbn [mbind result_bind]. rewrite filter_cons.
  by destruct (direct_child h folder_path (path_of row)).
Qed.

Lemma fetch_images_recursive h conn folder_path limit :
  fetch_images h conn folder_path true limit
  = Catalog.select_images conn (path_pattern folder_path)
      (if truthy limit then limit else None).
Proof.
  unfold fetch_images. destruct (truthy limit);
    by destruct (Catalog.select_images conn _ _).
Qed.

Lemma fetch_exif_recursive h conn folder_path max_images :
  fetch_exif h conn folder_path true max_images
  = Catalog.select_images_exif conn (path_pattern folder_path)
      (if truthy max_images then max_images else None).
Proof.
  unfold fetch_exif. destruct (truthy max_images);
    by destruct (Catalog.select_images_exif conn _ _).
Qed.

(** The rows kept when not recursive, for the queries of images and of
    images with metadata. *)
Lemma fetch_images_direct h conn folder_path limit :
  fetch_images h conn folder_path false limit
  = filter (fun row => direct_child h folder_path row.2 = true)
      <$> fetch_images h conn folder_path true limit.
Proof.
  rewrite fetch_images_recursive. unfold fetch_images.
  replace (if truthy limit
           then Catalog.select_images conn (path_pattern folder_path) limit
           else Catalog.select_images conn (path_pattern folder_path) None)
    with (Catalog.select_images conn (path_pattern folder_path)
            (if truthy limit then limit else None)) by (by destruct (truthy limit)).
  destruct (Catalog.select_images conn _ _) as [rows|e] eqn:Hrows; [|done].
  cbn [mbind result_bind negb fmap result_fmap].
  apply direct_children_filter. rewrite (select_images_selected _ _ _ _ Hrows).
  apply Forall_fmap. eapply Forall_impl; [apply selected_keep|].
  intros r [Hlike _] Hempty. cbn in Hempty. rewrite Hempty in Hlike.
  by rewrite like_path_pattern_empty in Hlike.
Qed.

Lemma fetch_exif_direct h conn folder_path max_images :
  fetch_exif h conn folder_path false max_images
  = filter (fun row => direct_child h folder_path row.1 = true)
      <$> fetch_exif h conn folder_path true max_images.
Proof.
  rewrite fetch_exif_recursive. unfold fetch_exif.
  replace (if truthy max_images
           then Catalog.select_images_exif conn (path_pattern folder_path) max_images
           else Catalog.select_images_exif conn (path_pattern folder_path) None)
    with (Catalog.select_images_exif conn (path_pattern folder_path)
            (if truthy max_images then max_images else None))
    by (by destruct (truthy max_images)).
  destruct (Catalog.select_images_exif conn _ _) as [rows|e] eqn:Hrows; [|done].
  cbn [mbind result_bind negb fmap result_fmap].
  apply direct_children_filter. rewrite (select_images_exif_selected _ _ _ _ Hrows).
  apply Forall_fmap. eapply Forall_impl; [apply selected_keep|].
  intros r [[Hlike _] _] Hempty. cbn in Hempty. rewrite Hempty in Hlike.
  by rewrite like_path_pattern_empty in Hlike.
Qed.

(** X5. Not recursive, the rows analyzed are the rows fetched for the
    whole tree (after the limit, when there is one) whose path relative to
    the folder holds no separator and is not [.]; they come in the same
    order, and the filter raises nothing: a path the query selects is never
    empty. So a step raises when not recursive exactly when it raises when
    recursive. *)
Theorem non_recursive_rows h conn folder_path limit :
  fetch_images h conn folder_path false limit
  = filter (fun row => direct_child h folder_path row.2 = true)
      <$> fetch_images h conn folder_path true limit
  ∧ fetch_exif h conn folder_path false limit
    = filter (fun row => direct_child h folder_path row.1 = true)
        <$> fetch_exif h conn folder_path true limit
  ∧ raises (fetch_images h conn folder_path false limit)
    = raises (fetch_images h conn folder_path true limit)
  ∧ raises (fetch_exif h conn folder_path false limit)
    = raises (fetch_exif h conn folder_path true limit).
Proof.
  rewrite fetch_images_direct, fetch_exif_direct. split_and!; [done|done| |].
  - by destruct (fetch_images h conn folder_path true limit).
  - by destruct (fetch_exif h conn folder_path true limit).
Qed.

(** *** Direct children, by name *)

(** [/] followed by the names [comps], each separated from the next. *)
Definition rooted (comps : list string) : string := "/" +:+ posixpath.join_sep comps.

Lemma rooted_normal comps :
  Forall posixpath.name comps → posixpath.normpath (rooted comps) = rooted comps.
Proof.
  intros Hnames.
  assert (rooted comps = posixpath.assemble 1 comps) as -> by done.
  apply posixpath.normpath_fixed; [|lia]. by exists 0%nat, comps.
Qed.

Lemma rooted_components comps :
  Forall posixpath.name comps →
  filter (fun x : string => x ≠ "") (posixpath.split_sep (rooted comps)) = comps.
Proof.
  intros Hnames. unfold rooted.
  change ("/" +:+ posixpath.join_sep comps)
    with (posixpath.slashes 1 +:+ posixpath.join_sep comps).
  rewrite posixpath.split_sep_slashes. cbn [replicate app].
  rewrite filter_cons, decide_False by (by intros ?).
  destruct (decide (comps = [])) as [->|Hne]; [done|].
  rewrite posixpath.split_join_sep; [|eapply Forall_impl; [done|apply posixpath.name_no_slash]|done].
  clear Hne. induction Hnames as [|w ws [Hw _] _ IH]; [done|].
  by rewrite filter_cons, decide_True, IH.
Qed.

Lemma commonprefix_len_app (a b : list string) :
  posixpath.commonprefix_len a (a ++ b) = length a.
Proof.
  induction a as [|x a IH]; [by destruct b|]. simpl.
  by rewrite bool_decide_eq_true_2, IH.
Qed.

Lemma relpath_rooted cwd comps rest :
  Forall posixpath.name comps → Forall posixpath.name rest → rest ≠ [] →
  posixpath.relpath cwd (rooted (comps ++ rest)) (rooted comps)
  = Ok (posixpath.join_sep rest).
Proof.
  intros Hcomps Hrest Hne. unfold posixpath.relpath, posixpath.abspath.
  rewrite bool_decide_eq_false_2 by done.
  change (posixpath.isabs (rooted ?l)) with true. cbn iota zeta.
  rewrite !rooted_normal, !rooted_components by (done || by apply Forall_app).
  rewrite commonprefix_len_app, Nat.sub_diag, drop_app_length. cbn [replicate app].
  by destruct rest.
Qed.

Lemma contains_sep_no_slash s :
  posixpath.no_slash s → Str.contains posixpath.sep s = false.
Proof.
  induction s as [|c s IH]; [done|]. intros [Hc Hs]. cbn [Str.contains Str.startswith].
  rewrite (IH Hs). unfold posixpath.sep. cbn [Str.startswith].
  by rewrite (proj2 (Ascii.eqb_neq "/" c)) by done.
Qed.

Lemma contains_sep_append a b :
  Str.contains posixpath.sep (a +:+ String "/" b) = true.
Proof.
  induction a as [|c a IH]; [done|]. rewrite Str.append_cons. cbn [Str.contains].
  rewrite IH. apply orb_true_r.
Qed.

(** X6. For a folder [/c1/../ck] of plain names (none empty, [.] or [..],
    none holding a separator) and an image below it, at [/c1/../ck/r1/../rn],
    the image is a direct child exactly when one name follows the folder:
    files of a subfolder are left out when not recursive. *)
Theorem direct_child_names h comps rest :
  Forall posixpath.name comps → Forall posixpath.name rest → rest ≠ [] →
  is_direct_child h (rooted comps) (rooted (comps ++ rest))
    = Ok (bool_decide (length rest = 1%nat))
  ∧ direct_child h (rooted comps) (rooted (comps ++ rest)) = bool_decide (length rest = 1%nat).
Proof.
  intros Hcomps Hrest Hne.
  assert (is_direct_child h (rooted comps) (rooted (comps ++ rest))
          = Ok (bool_decide (length rest = 1%nat))) as Heq; [|by unfold direct_child; rewrite Heq].
  unfold is_direct_child. rewrite relpath_rooted by done. cbn [mbind result_bind].
  destruct rest as [|w [|w' ws]]; [done| |].
  - inversion Hrest as [|? ? (_ & Hdot & _ & Hslash) _]; subst.
    cbn [posixpath.join_sep Str.join_char]. rewrite contains_sep_no_slash by done.
    by rewrite (bool_decide_eq_false_2 (w = ".")) by done.
  - change (posixpath.join_sep (w :: w' :: ws))
      with (w +:+ String "/" (posixpath.join_sep (w' :: ws))).
    by rewrite contains_sep_append.
Qed.

(** *** The rows of a folder *)

Lemma path_pattern_prefix folder_path : path_pattern folder_path = (folder_path +:+ "/") +:+ "%".
Proof. unfold path_pattern, posixpath.sep. by rewrite Str.append_assoc. Qed.

(** X7. The rows fetched for a folder, recursively and without a limit.
    Every image of the catalog whose path begins with the folder and a
    separator is among them. So is nothing else when the folder's path holds
    neither [%] nor [_], except that letters are compared without regard to
    case: the rows are the images whose lower-cased path begins with the
    lower-cased folder and a separator. *)
Theorem rows_under_folder h conn folder_path rows :
  fetch_images h conn folder_path true None = Ok rows →
  (∀ r, r ∈ Catalog.image conn →
        Str.startswith (folder_path +:+ "/") (Catalog.i_path r) = true →
        (Catalog.i_id r, Catalog.i_path r) ∈ rows)
  ∧ (wildcard_free folder_path = true →
     ∀ id path,
       (id, path) ∈ rows ↔
       ∃ r, r ∈ Catalog.image conn ∧ Catalog.i_id r = id ∧ Catalog.i_path r = path
            ∧ Str.startswith (Str.lower (folder_path +:+ "/")) (Str.lower path) = true).
Proof.
  rewrite fetch_images_recursive. cbn [truthy]. intros ->%select_images_selected.
  cbn [selected]. split.
  - intros r Hr Hstart. apply list_elem_of_fmap. exists r. split; [done|].
    apply list_elem_of_filter. split; [|done].
    rewrite path_pattern_prefix. by apply like_prefix.
  - intros Hfree id path.
    assert (wildcard_free (folder_path +:+ "/") = true) as Hfree'.
    { unfold wildcard_free in *. by rewrite Str.all_chars_append, Hfree. }
    rewrite list_elem_of_fmap. split.
    + intros (r & [= -> ->] & [Hlike Hr]%list_elem_of_filter). exists r.
      split_and!; try done. by rewrite path_pattern_prefix, like_wildcard_free in Hlike.
    + intros (r & Hr & <- & <- & Hstart). exists r. split; [done|].
      apply list_elem_of_filter. split; [|done].
      by rewrite path_pattern_prefix, like_wildcard_free.
Qed.

Lemma descending_app {A} (key : A → Z) l1 l2 :
  PySort.descending key (l1 ++ l2) →
  ∀ a b, a ∈ l1 → b ∈ l2 → key b ≤ key a.
Proof.
  unfold PySort.descending. induction l1 as [|x l1 IH]; intros Hsorted a b Ha Hb.
  - by apply elem_of_nil in Ha.
  - simpl in Hsorted. inversion Hsorted as [|? ? Hrest Hx]; subst.
    apply elem_of_cons in Ha as [->|Ha]; [|by apply IH].
    apply (proj1 (Forall_forall _ _) Hx). apply elem_of_app. by right.
Qed.

(** X8. A positive limit keeps the most recent images: the rows fetched
    are [limit] of the images of the folder, or all of them when there are
    fewer, and no image left out has a later date than one that is kept. *)
Theorem limit_keeps_most_recent h conn folder_path n rows :
  0 < n →
  fetch_images h conn folder_path true (Some n) = Ok rows →
  ∃ kept dropped,
    rows = (fun r => (Catalog.i_id r, Catalog.i_path r)) <$> kept
    ∧ kept ++ dropped
        ≡ₚ filter (fun r => Catalog.like (path_pattern folder_path) (Catalog.i_path r) = true)
             (Catalog.image conn)
    ∧ length kept = (Z.to_nat n `min` length (kept ++ dropped))%nat
    ∧ ∀ a b, a ∈ kept → b ∈ dropped → Catalog.i_date b ≤ Catalog.i_date a.
Proof.
  intros Hn. rewrite fetch_images_recursive. cbn [truthy].
  rewrite (proj2 (Z.eqb_neq n 0)) by lia. cbn [negb].
  intros ->%select_images_selected. cbn [selected]. unfold Catalog.sql_limit.
  rewrite (proj2 (Z.ltb_ge n 0)) by lia.
  set (matching := filter _ (Catalog.image conn)).
  set (sorted := Catalog.order_by_desc (Catalog.engine conn) _ Catalog.i_date matching).
  exists (take (Z.to_nat n) sorted), (drop (Z.to_nat n) sorted).
  rewrite take_drop. split_and!.
  - done.
  - apply Catalog.order_by_desc_perm.
  - by rewrite length_take.
  - apply descending_app. rewrite take_drop. apply Catalog.order_by_desc_sorted.
Qed.

(** *** Media statistics *)

(** A joined row: a link of the catalog to one of the images, and its tag,
    a custom one. *)
Lemma elem_of_custom_links conn image_ids l t :
  (l, t) ∈ Catalog.custom_links conn image_ids ↔
  l ∈ Catalog.image_tag conn ∧ t ∈ Catalog.tag conn
  ∧ Catalog.it_tag_id l = Catalog.t_id t
  ∧ Catalog.it_image_id l ∈ image_ids
  ∧ Catalog.t_type t = "custom".
Proof.
  unfold Catalog.custom_links. rewrite list_elem_of_bind. split.
  - intros (l' & Hin & Hl'). apply list_elem_of_bind in Hin as (t' & Hin & Ht').
    case_bool_decide as Hjoin; [|by apply elem_of_nil in Hin].
    apply list_elem_of_singleton in Hin as [= -> ->]. by destruct Hjoin as (? & ? & ?).
  - intros (Hl & Ht & H1 & H2 & H3). exists l. split; [|done].
    apply list_elem_of_bind. exists t. split; [|done].
    rewrite bool_decide_eq_true_2 by done. by apply list_elem_of_singleton.
Qed.

(** No more images are tagged than are asked about. *)
Lemma count_tagged_bounds conn image_ids tagged_count :
  Catalog.count_tagged conn image_ids = Ok tagged_count →
  0 ≤ tagged_count ≤ Z.of_nat (length image_ids).
Proof.
  unfold Catalog.count_tagged, Catalog.execute.
  destruct (Catalog.failing conn _); [done|]. intros [= <-]. split; [lia|].
  apply inj_le, submseteq_length, NoDup_submseteq; [apply NoDup_remove_dups|].
  intros id [[l t] [-> Hlt]]%elem_of_remove_dups%list_elem_of_fmap.
  by apply elem_of_custom_links in Hlt as (_ & _ & _ & ? & _).
Qed.

Lemma fetch_images_limit h conn folder_path recursive n rows :
  0 < n → fetch_images h conn folder_path recursive (Some n) = Ok rows →
  Z.of_nat (length rows) ≤ n.
Proof.
  intros Hn Hrows.
  assert (∃ all, fetch_images h conn folder_path true (Some n) = Ok all
                 ∧ rows `sublist_of` all) as (all & Hall & Hsub).
  { destruct recursive; [by exists rows|].
    rewrite fetch_images_direct in Hrows.
    destruct (fetch_images h conn folder_path true (Some n)) as [all|]; [|done].
    injection Hrows as <-. exists all. split; [done|apply sublist_filter]. }
  apply sublist_length in Hsub.
  rewrite fetch_images_recursive in Hall. cbn [truthy] in Hall.
  rewrite (proj2 (Z.eqb_neq n 0)) in Hall by lia. cbn [negb] in Hall.
  apply select_images_selected in Hall. rewrite Hall, length_fmap in Hsub.
  cbn [selected] in Hsub.
  pose proof (sql_limit_length n
    (Catalog.order_by_desc (Catalog.engine conn) _ Catalog.i_date
       (filter (fun r => Catalog.like (path_pattern folder_path) (Catalog.i_path r) = true)
               (Catalog.image conn)))). lia.
Qed.

(** X9. The media statistics, for any host, catalog, folder, mode and
    limit: images and videos add up to the indexed media, as do tagged and
    untagged; the number analyzed is the number indexed; no count is
    negative, so that no more images are tagged than are indexed;
    [limit_applied] tells whether a limit was passed; statistics that carry
    an error are all zero; and a positive limit is never exceeded. *)
Theorem media_stats_invariants h conn folder_path recursive limit :
  total_images (get_media_stats h conn folder_path recursive limit)
    + total_videos (get_media_stats h conn folder_path recursive limit)
    = indexed_media (get_media_stats h conn folder_path recursive limit)
  ∧ tagged_images (get_media_stats h conn folder_path recursive limit)
      + untagged_images (get_media_stats h conn folder_path recursive limit)
    = indexed_media (get_media_stats h conn folder_path recursive limit)
  ∧ analyzed_count (get_media_stats h conn folder_path recursive limit)
    = indexed_media (get_media_stats h conn folder_path recursive limit)
  ∧ 0 ≤ total_videos (get_media_stats h conn folder_path recursive limit)
      ≤ indexed_media (get_media_stats h conn folder_path recursive limit)
  ∧ 0 ≤ tagged_images (get_media_stats h conn folder_path recursive limit)
      ≤ indexed_media (get_media_stats h conn folder_path recursive limit)
  ∧ limit_applied (get_media_stats h conn folder_path recursive limit) = is_not_None limit
  ∧ (media_error (get_media_stats h conn folder_path recursive limit) ≠ None →
     get_media_stats h conn folder_path recursive limit
     = no_media limit (media_error (get_media_stats h conn folder_path recursive limit)))
  ∧ (∀ n, limit = Some n → 0 < n →
       analyzed_count (get_media_stats h conn folder_path recursive limit) ≤ n).
Proof.
  unfold get_media_stats, media_stats_body.
  destruct (fetch_images h conn _ recursive limit) as [image_rows|e] eqn:Hrows;
    cbn [mbind result_bind]; [|split_and!; try done; intros; simpl; lia].
  destruct (Z.of_nat (length image_rows.*1) =? 0) eqn:Hzero;
    [split_and!; try done; intros; simpl; lia|].
  destruct (Catalog.count_tagged conn image_rows.*1) as [tagged_count|e] eqn:Htagged;
    cbn [mbind result_bind]; [|split_and!; try done; intros; simpl; lia].
  apply count_tagged_bounds in Htagged.
  cbn [total_images total_videos indexed_media tagged_images untagged_images analyzed_count
       limit_applied media_error].
  pose proof (length_filter (fun row : Z * string => is_video h row.2 = true) image_rows) as Hv.
  rewrite length_fmap in *.
  split_and!; try done; try lia.
  intros n -> Hn. by eapply fetch_images_limit.
Qed.

(** *** The entries of the tag histogram *)

(** The groups of a [GROUP BY]: one for each key met (those in [seen]
    apart), with a row of that key and the number of rows of that key. *)
Lemma group_by_spec {A} (key : A → Z) (seen : list Z) (rows : list A) :
  Forall (fun g : A * Z =>
            g.1 ∈ rows ∧ (key g.1 ∉ seen)
            ∧ g.2 = Z.of_nat (length (filter (fun r => key r = key g.1) rows)))
         (Catalog.group_by key seen rows)
  ∧ NoDup ((fun g : A * Z => key g.1) <$> Catalog.group_by key seen rows).
Proof.
  revert seen. induction rows as [|r rows IH]; intros seen; [by split; constructor|].
  cbn [Catalog.group_by]. case_bool_decide as Hseen.
  - destruct (IH seen) as [Hgroups Hnodup]. split; [|done].
    eapply Forall_impl; [exact Hgroups|]. intros g (Hg & Hkey & Hcount). split_and!.
    + by right.
    + done.
    + rewrite filter_cons, decide_False; [done|]. intros Heq. apply Hkey. by rewrite <- Heq.
  - destruct (IH (key r :: seen)) as [Hgroups Hnodup]. split.
    + constructor.
      * cbn [fst snd]. split_and!; [by left|done|].
        rewrite filter_cons, decide_True by done. simpl. lia.
      * eapply Forall_impl; [exact Hgroups|]. intros g (Hg & Hkey & Hcount). split_and!.
        -- by right.
        -- intros Hin. apply Hkey. by right.
        -- rewrite filter_cons, decide_False; [done|]. intros Heq. apply Hkey.
           rewrite <- Heq. by left.
    + rewrite fmap_cons. apply NoDup_cons. split; [|done].
      intros [g [Heq Hg]]%list_elem_of_fmap.
      apply (proj1 (Forall_forall _ _) Hgroups) in Hg as (_ & Hkey & _).
      apply Hkey. cbn [fst] in Heq. rewrite Heq. by left.
Qed.

(** The tag of id [id] as the histogram counts it: the joined rows of that
    tag. *)
Definition applications_of (conn : Catalog.Conn) (image_ids : list Z) (id : Z) : Z :=
  Z.of_nat (length (filter (fun lt : Catalog.ImageTagRow * Catalog.TagRow =>
                              Catalog.t_id lt.2 = id)
                           (Catalog.custom_links conn image_ids))).

Definition well_counted (conn : Catalog.Conn) (image_ids : list Z) (row : Catalog.TagCount)
  : Prop :=
  1 ≤ Catalog.tc_count row
  ∧ Catalog.tc_count row = applications_of conn image_ids (Catalog.tc_id row)
  ∧ Catalog.tc_type row = "custom"
  ∧ ∃ t, t ∈ Catalog.tag conn ∧ Catalog.t_id t = Catalog.tc_id row
         ∧ Catalog.t_name t = Catalog.tc_name row.

Lemma group_by_tag_spec conn image_ids :
  Forall (well_counted conn image_ids)
         (Catalog.group_by_tag (Catalog.custom_links conn image_ids))
  ∧ NoDup (Catalog.tc_id <$> Catalog.group_by_tag (Catalog.custom_links conn image_ids)).
Proof.
  unfold Catalog.group_by_tag.
  destruct (group_by_spec (fun lt : Catalog.ImageTagRow * Catalog.TagRow => Catalog.t_id lt.2)
              [] (Catalog.custom_links conn image_ids)) as [Hgroups Hnodup].
  split.
  - apply Forall_fmap. eapply Forall_impl; [exact Hgroups|].
    intros [[l t] n] (Hin & _ & Hcount). cbn [fst snd] in *.
    pose proof Hin as (_ & Ht & _ & _ & Hcustom)%elem_of_custom_links.
    unfold well_counted, applications_of. cbn [Catalog.tc_count Catalog.tc_id
      Catalog.tc_type Catalog.tc_name fst snd].
    split_and!; [|done|done|by exists t].
    assert ((l, t) ∈ filter (fun lt : Catalog.ImageTagRow * Catalog.TagRow =>
                               Catalog.t_id lt.2 = Catalog.t_id t)
                            (Catalog.custom_links conn image_ids)) as Hmem
      by (by apply list_elem_of_filter).
    rewrite Hcount. destruct (filter _ _); [by apply elem_of_nil in Hmem|simpl; lia].
  - by rewrite <- list_fmap_compose.
Qed.

Lemma top_tags_rows conn image_ids limit rows :
  Catalog.select_tag_counts conn image_ids limit = Ok rows →
  Forall (well_counted conn image_ids) rows
  ∧ NoDup (Catalog.tc_id <$> rows)
  ∧ (0 ≤ limit → Z.of_nat (length rows) ≤ limit).
Proof.
  unfold Catalog.select_tag_counts, Catalog.execute.
  destruct (Catalog.failing conn _); [done|]. intros [= <-].
  destruct (group_by_tag_spec conn image_ids) as [Hgroups Hnodup].
  set (sorted := Catalog.order_by_desc (Catalog.engine conn) _ Catalog.tc_count
                   (Catalog.group_by_tag (Catalog.custom_links conn image_ids))).
  assert (sorted ≡ₚ Catalog.group_by_tag (Catalog.custom_links conn image_ids)) as Hperm
    by apply Catalog.order_by_desc_perm.
  pose proof (sql_limit_sublist limit sorted) as Hsub.
  split_and!.
  - apply Forall_forall. intros row Hrow.
    apply (elem_of_sublist _ _ _ Hrow) in Hsub. rewrite Hperm in Hsub.
    by apply (proj1 (Forall_forall _ _) Hgroups).
  - apply (sublist_NoDup _ (Catalog.tc_id <$> sorted)); [by rewrite Hperm|].
    by apply fmap_sublist.
  - by apply sql_limit_length.
Qed.

(** X10. The entries of the tag histogram. Each entry is a custom tag of
    the catalog with its name; no tag comes twice; the count of an entry is
    the number of applications of that tag to the analyzed images, and is at
    least one; and there are at most [limit] entries. *)
Theorem top_tags_entries h conn folder_path recursive limit max_images image_rows :
  fetch_images h conn (posixpath.normpath folder_path) recursive max_images = Ok image_rows →
  NoDup (tag_id <$> get_top_tags h conn folder_path recursive limit max_images)
  ∧ Forall (fun entry =>
              1 ≤ count entry
              ∧ count entry = applications_of conn image_rows.*1 (tag_id entry)
              ∧ tag_type entry = "custom"
              ∧ ∃ t, t ∈ Catalog.tag conn ∧ Catalog.t_id t = tag_id entry
                     ∧ Catalog.t_name t = tag_name entry)
           (get_top_tags h conn folder_path recursive limit max_images)
  ∧ (0 ≤ limit →
     Z.of_nat (length (get_top_tags h conn folder_path recursive limit max_images)) ≤ limit).
Proof.
  intros Hrows. unfold get_top_tags, top_tags_body. rewrite Hrows. cbn [mbind result_bind].
  destruct (image_rows.*1) as [|id ids] eqn:Hids;
    [by split_and!; [constructor|constructor|]|].
  destruct (Catalog.select_tag_counts conn (id :: ids) limit) as [rows|e] eqn:Hselect;
    cbn [mbind result_bind]; [|by split_and!; [constructor|constructor|]].
  destruct (top_tags_rows _ _ _ _ Hselect) as (Hcounted & Hnodup & Hlen).
  split_and!.
  - by rewrite <- list_fmap_compose.
  - apply Forall_fmap. eapply Forall_impl; [exact Hcounted|]. by intros row ?.
  - by rewrite length_fmap.
Qed.

(** *** Counters *)

(** [counter[key]], [0] for a key the counter does not hold. *)
Definition counter_get (key : string) (counter : list (string * Z)) : Z :=
  PySort.sum_by (fun kv : string * Z => if bool_decide (kv.1 = key) then kv.2 else 0) counter.

(** The number of times [w] stands in [words]. *)
Definition occurrences (w : string) (words : list string) : Z :=
  Z.of_nat (length (filter (fun x => x = w) words)).

Lemma counter_get_add key k counter :
  counter_get key (counter_add k counter)
  = counter_get key counter + (if bool_decide (k = key) then 1 else 0).
Proof.
  unfold counter_get. induction counter as [|[k' n] counter IH]; [simpl; lia|].
  cbn [counter_add]. unfold PySort.sum_by in *.
  destruct (decide (k' = k)) as [->|Hne].
  - rewrite (bool_decide_eq_true_2 (k = k)) by done. cbn [foldr fst snd].
    case_bool_decide; lia.
  - rewrite (bool_decide_eq_false_2 (k' = k)) by done. cbn [foldr fst snd].
    rewrite IH. lia.
Qed.

Lemma counter_add_keys k counter :
  (counter_add k counter).*1 = if bool_decide (k ∈ counter.*1) then counter.*1
                               else counter.*1 ++ [k].
Proof.
  induction counter as [|[k' n] counter IH]; [done|].
  cbn [counter_add]. destruct (decide (k' = k)) as [->|Hk].
  - rewrite (bool_decide_eq_true_2 (k = k)) by done.
    by rewrite bool_decide_eq_true_2 by (by left).
  - rewrite (bool_decide_eq_false_2 (k' = k)) by done.
    rewrite !fmap_cons, IH. cbn [fst]. destruct (decide (k ∈ counter.*1)) as [Hin|Hin].
    + rewrite (bool_decide_eq_true_2 (k ∈ counter.*1)) by done.
      by rewrite bool_decide_eq_true_2 by (by right).
    + rewrite (bool_decide_eq_false_2 (k ∈ counter.*1)) by done.
      rewrite bool_decide_eq_false_2; [done|].
      intros [?|?]%elem_of_cons; [by apply Hk|by apply Hin].
Qed.

Lemma counter_add_at_least_one k counter :
  Forall (fun kv : string * Z => 1 ≤ kv.2) counter →
  Forall (fun kv : string * Z => 1 ≤ kv.2) (counter_add k counter).
Proof.
  induction 1 as [|[k' n] counter Hn Hc IH]; [by repeat constructor|].
  cbn [counter_add]. case_bool_decide; constructor; simpl in *; (lia || done).
Qed.

(** A counter built from words: its keys are the words, each once; the
    value of a key is the number of times the word stands in the list. *)
Lemma Counter_spec words :
  NoDup (Counter words).*1
  ∧ (∀ w, w ∈ (Counter words).*1 ↔ w ∈ words)
  ∧ (∀ w, counter_get w (Counter words) = occurrences w words)
  ∧ Forall (fun kv : string * Z => 1 ≤ kv.2) (Counter words).
Proof.
  unfold Counter.
  assert (∀ counter seen,
            NoDup counter.*1 →
            (∀ w, w ∈ counter.*1 ↔ w ∈ seen) →
            (∀ w, counter_get w counter = occurrences w seen) →
            Forall (fun kv : string * Z => 1 ≤ kv.2) counter →
            let counter' := fold_left (fun c w => counter_add w c) words counter in
            NoDup counter'.*1
            ∧ (∀ w, w ∈ counter'.*1 ↔ w ∈ seen ++ words)
            ∧ (∀ w, counter_get w counter' = occurrences w (seen ++ words))
            ∧ Forall (fun kv : string * Z => 1 ≤ kv.2) counter') as Hgen.
  { induction words as [|k words IH]; intros counter seen Hnd Hkeys Hget Hpos.
    - cbn [fold_left]. rewrite app_nil_r. by split_and!.
    - cbn [fold_left]. replace (seen ++ k :: words) with ((seen ++ [k]) ++ words)
        by (by rewrite <- app_assoc).
      apply IH.
      + rewrite counter_add_keys. case_bool_decide as Hin; [done|].
        apply NoDup_app. split_and!; [done| |apply NoDup_singleton].
        intros w Hw ->%list_elem_of_singleton. by apply Hin.
      + intros w. rewrite counter_add_keys, elem_of_app, list_elem_of_singleton.
        case_bool_decide as Hin; rewrite ?elem_of_app, ?list_elem_of_singleton, Hkeys; [|done].
        split; [by left|]. intros [?|Heq]; [done|]. rewrite Heq. by apply Hkeys.
      + intros w. rewrite counter_get_add, Hget. unfold occurrences.
        rewrite filter_app, length_app, filter_cons, filter_nil.
        case_bool_decide; [rewrite decide_True by done|rewrite decide_False by done];
          simpl; lia.
      + by apply counter_add_at_least_one. }
  apply (Hgen [] []); [constructor|done|done|constructor].
Qed.

Lemma counter_get_absent k counter : k ∉ counter.*1 → counter_get k counter = 0.
Proof.
  unfold counter_get, PySort.sum_by. induction counter as [|[k' m] counter IH]; [done|].
  rewrite fmap_cons, not_elem_of_cons. intros [Hk Hin]. cbn [foldr fst snd].
  rewrite bool_decide_eq_false_2 by done. by rewrite IH.
Qed.

Lemma counter_get_elem w n counter :
  NoDup counter.*1 → (w, n) ∈ counter → counter_get w counter = n.
Proof.
  induction counter as [|[k m] counter IH]; intros Hnd Hin.
  - by apply elem_of_nil in Hin.
  - rewrite fmap_cons in Hnd. apply NoDup_cons in Hnd as [Hk Hnd].
    unfold counter_get, PySort.sum_by in *. cbn [foldr fst snd] in *.
    apply elem_of_cons in Hin as [[= -> ->]|Hin].
    + rewrite bool_decide_eq_true_2 by done.
      pose proof (counter_get_absent k counter Hk) as Hrest.
      unfold counter_get, PySort.sum_by in Hrest. lia.
    + rewrite bool_decide_eq_false_2.
      * rewrite IH by done. lia.
      * intros ->. apply Hk. by apply (list_elem_of_fmap_2 fst _ (w, n)).
Qed.

Lemma most_common_sublist n counter :
  ∃ sorted, sorted ≡ₚ counter ∧ most_common n counter `sublist_of` sorted
            ∧ PySort.descending snd (most_common n counter).
Proof.
  exists (PySort.sorted_desc snd counter). unfold most_common. split_and!.
  - apply PySort.sorted_desc_perm.
  - apply sublist_take.
  - apply PySort.descending_take, PySort.sorted_desc_descending.
Qed.

(** What [most_common] shows of a counter built from words. *)
Lemma most_common_Counter n words :
  NoDup (most_common n (Counter words)).*1
  ∧ Forall (fun kv : string * Z => kv.2 = occurrences kv.1 words ∧ 1 ≤ kv.2 ∧ kv.1 ∈ words)
           (most_common n (Counter words))
  ∧ PySort.descending snd (most_common n (Counter words))
  ∧ (0 ≤ n → Z.of_nat (length (most_common n (Counter words))) ≤ n).
Proof.
  destruct (Counter_spec words) as (Hnd & Hkeys & Hget & Hpos).
  destruct (most_common_sublist n (Counter words)) as (sorted & Hperm & Hsub & Hdesc).
  split_and!.
  - apply (sublist_NoDup _ sorted.*1); [by rewrite Hperm|by apply fmap_sublist].
  - apply Forall_forall. intros [w m] Hin.
    apply (elem_of_sublist _ _ _ Hin) in Hsub. rewrite Hperm in Hsub. cbn [fst snd].
    split_and!.
    + by rewrite <- Hget, (counter_get_elem w m).
    + by apply (proj1 (Forall_forall _ _) Hpos (w, m)).
    + apply Hkeys. by apply (list_elem_of_fmap_2 fst _ (w, m)).
  - done.
  - intros Hn. unfold most_common. rewrite length_take. lia.
Qed.

(** The words of a row are tokens of two characters at least, none a
    stopword; they stand in the lower-cased positive prompt of the row. *)
Lemma row_words_spec u stopwords row w :
  w ∈ row_words u stopwords row →
  Text.is_token u w = true ∧ Text.ends_with_word u w = true
  ∧ 2 ≤ Unicode.len w ∧ (w ∉ stopwords)
  ∧ ∃ pre post,
      Unicode.lower u (Text.extract_positive_prompt row.2) = pre +:+ w +:+ post.
Proof.
  unfold row_words. case_bool_decide; [by intros ?%elem_of_nil|].
  rewrite Text.extract_words_from_text_filter.
  intros [[Hlen Hstop] Hin]%list_elem_of_filter.
  destruct (Text.findall_words u (Unicode.lower u (Text.extract_positive_prompt row.2)))
    as (_ & Htokens & Horder).
  rewrite Forall_forall in Htokens. destruct (Htokens w Hin) as [Htoken Hend].
  split_and!; [done|done|done|done|].
  by apply (proj1 (Forall_forall _ _) (Str.occur_in_order_each _ _ Horder)).
Qed.

Lemma elem_of_concat {A} (x : A) (ls : list (list A)) :
  x ∈ concat ls ↔ ∃ l, x ∈ l ∧ l ∈ ls.
Proof.
  induction ls as [|l ls IH]; simpl.
  - split; [by intros ?%elem_of_nil|by intros (? & _ & ?%elem_of_nil)].
  - rewrite elem_of_app, IH. split.
    + intros [?|(l' & ? & ?)]; [exists l; split; [done|by left]|exists l'; split; [done|by right]].
    + intros (l' & Hx & [->|?]%elem_of_cons); [by left|right; by exists l'].
Qed.

(** The words counted for the rows [rows]. *)
Definition prompt_words (u : Unicode.t) (stopwords : gset string)
    (rows : list (string * string)) : list string :=
  concat (row_words u stopwords <$> rows).

(** X11. The word histogram, when the stopwords can be read and the query
    returns rows. The analysis is returned; it counts the rows as prompts
    and the distinct words as words found. No word comes twice in
    [top_words]; the count of a word is the number of times it stands among
    the words of the positive prompts, at least once; every word counted is a
    token (a lower-case letter or digit, then word characters of the host's
    database and hyphens, the last a word character) of two characters at
    least that is not a stopword and stands in the lower-cased positive
    prompt of a row; the entries go by count descending, and are at most
    [limit]. *)
Theorem top_words_entries h conn folder_path recursive limit max_images stopwords rows :
  get_stopwords conn = Ok stopwords →
  fetch_exif h conn (posixpath.normpath folder_path) recursive max_images = Ok rows →
  rows ≠ [] →
  ∃ analysis,
    analyze_prompt_words h conn folder_path recursive limit max_images = Ok analysis
    ∧ prompt_error analysis = None
    ∧ total_prompts_analyzed analysis = Z.of_nat (length rows)
    ∧ total_words_found analysis
      = Some (Z.of_nat (size (list_to_set (prompt_words (Host.unicode h) stopwords rows)
                                : gset string)))
    ∧ NoDup (word <$> top_words analysis)
    ∧ Forall (fun entry =>
                word_count entry
                = occurrences (word entry) (prompt_words (Host.unicode h) stopwords rows)
                ∧ 1 ≤ word_count entry
                ∧ word entry ∈ prompt_words (Host.unicode h) stopwords rows)
             (top_words analysis)
    ∧ PySort.descending word_count (top_words analysis)
    ∧ (0 ≤ limit → Z.of_nat (length (top_words analysis)) ≤ limit)
    ∧ (∀ w, w ∈ prompt_words (Host.unicode h) stopwords rows →
            Text.is_token (Host.unicode h) w = true
            ∧ Text.ends_with_word (Host.unicode h) w = true
            ∧ 2 ≤ Unicode.len w ∧ (w ∉ stopwords)
            ∧ ∃ row pre post,
                row ∈ rows
                ∧ Unicode.lower (Host.unicode h) (Text.extract_positive_prompt row.2)
                  = pre +:+ w +:+ post).
Proof.
  intros Hstop Hrows Hne. unfold analyze_prompt_words, prompt_words_body.
  rewrite Hstop. cbn [mbind result_bind]. rewrite Hrows. cbn [mbind result_bind].
  destruct rows as [|row rows]; [done|]. eexists. split; [done|].
  cbn [prompt_error total_prompts_analyzed total_words_found top_words].
  fold (prompt_words (Host.unicode h) stopwords (row :: rows)).
  set (words := prompt_words (Host.unicode h) stopwords (row :: rows)).
  destruct (most_common_Counter limit words) as (Hnd & Hentries & Hdesc & Hlen).
  destruct (Counter_spec words) as (Hcnd & Hkeys & _ & _).
  split_and!.
  - done.
  - done.
  - do 2 f_equal. rewrite <- (length_fmap fst), <- (size_list_to_set (C := gset string)) by done.
    f_equal. apply set_eq. intros w. by rewrite !elem_of_list_to_set, Hkeys.
  - by rewrite <- list_fmap_compose.
  - apply Forall_fmap. eapply Forall_impl; [exact Hentries|]. by intros [w n] ?.
  - by eapply PySort.descending_fmap.
  - by rewrite length_fmap.
  - intros w (ws & Hw & (r & -> & Hr)%list_elem_of_fmap)%elem_of_concat.
    destruct (row_words_spec _ _ _ _ Hw) as (? & ? & ? & ? & pre & post & Hpiece).
    split_and!; [done..|]. by exists r, pre, post.
Qed.

(** *** The order of the word histogram *)

(** The words of a list in the order they are first met, each once. *)
Fixpoint first_occurrences (words : list string) : list string :=
  match words with
  | [] => []
  | w :: words' => w :: filter (fun x => x ≠ w) (first_occurrences words')
  end.

Lemma elem_of_first_occurrences w words : w ∈ first_occurrences words ↔ w ∈ words.
Proof.
  induction words as [|x words IH]; [done|]. cbn [first_occurrences].
  rewrite !elem_of_cons, list_elem_of_filter, IH.
  destruct (decide (w = x)); naive_solver.
Qed.

Lemma NoDup_first_occurrences words : NoDup (first_occurrences words).
Proof.
  induction words as [|x words IH]; [constructor|]. cbn [first_occurrences].
  apply NoDup_cons. split; [|by apply NoDup_filter].
  by intros [? _]%list_elem_of_filter.
Qed.

Lemma first_occurrences_snoc words k :
  first_occurrences (words ++ [k])
  = first_occurrences words ++ (if bool_decide (k ∈ words) then [] else [k]).
Proof.
  induction words as [|x words IH]; [done|].
  cbn [app first_occurrences]. rewrite IH, filter_app. f_equal. f_equal.
  destruct (decide (k = x)) as [->|Hne].
  - rewrite (bool_decide_eq_true_2 (x ∈ x :: words)) by (by left).
    case_bool_decide; [done|]. by rewrite filter_cons, decide_False by (by intros ?).
  - destruct (decide (k ∈ words)) as [Hin|Hin].
    + rewrite (bool_decide_eq_true_2 (k ∈ words)) by done.
      by rewrite (bool_decide_eq_true_2 (k ∈ x :: words)) by (by right).
    + rewrite (bool_decide_eq_false_2 (k ∈ words)) by done.
      rewrite (bool_decide_eq_false_2 (k ∈ x :: words))
        by (by intros [?|?]%elem_of_cons).
      by rewrite filter_cons, decide_True by done.
Qed.

Lemma occurrences_snoc w words k :
  occurrences w (words ++ [k]) = occurrences w words + (if bool_decide (k = w) then 1 else 0).
Proof.
  unfold occurrences. rewrite filter_app, length_app, filter_cons, filter_nil.
  case_bool_decide; [rewrite decide_True by done|rewrite decide_False by done]; simpl; lia.
Qed.

Lemma counter_add_present (g : string → Z) k keys :
  NoDup keys → k ∈ keys →
  counter_add k ((fun w => (w, g w)) <$> keys)
  = (fun w => (w, g w + (if bool_decide (k = w) then 1 else 0))) <$> keys.
Proof.
  induction keys as [|x keys IH]; intros Hnd Hin; [by apply elem_of_nil in Hin|].
  apply NoDup_cons in Hnd as [Hx Hnd]. rewrite !fmap_cons. cbn [counter_add].
  destruct (decide (x = k)) as [->|Hne].
  - rewrite (bool_decide_eq_true_2 (k = k)) by done. f_equal.
    apply list_fmap_ext. intros i w Hw. rewrite bool_decide_eq_false_2; [by rewrite Z.add_0_r|].
    intros <-. apply Hx. by eapply list_elem_of_lookup_2.
  - rewrite (bool_decide_eq_false_2 (x = k)) by done.
    rewrite (bool_decide_eq_false_2 (k = x)) by (by intros ->). rewrite Z.add_0_r.
    apply elem_of_cons in Hin as [->|Hin]; [done|]. by rewrite IH.
Qed.

Lemma counter_add_absent (g : string → Z) k keys :
  k ∉ keys →
  counter_add k ((fun w => (w, g w)) <$> keys)
  = ((fun w => (w, g w + (if bool_decide (k = w) then 1 else 0))) <$> keys) ++ [(k, 1)].
Proof.
  induction keys as [|x keys IH]; intros Hin; [done|].
  apply not_elem_of_cons in Hin as [Hne Hin]. rewrite !fmap_cons. cbn [counter_add app].
  rewrite (bool_decide_eq_false_2 (x = k)) by (by intros ->).
  rewrite (bool_decide_eq_false_2 (k = x)) by done. by rewrite Z.add_0_r, IH.
Qed.

(** A counter built from words, in full: the words in the order they are
    first met, each with the number of times it stands in the list. *)
Lemma Counter_first_occurrences words :
  Counter words = (fun w => (w, occurrences w words)) <$> first_occurrences words.
Proof.
  unfold Counter.
  assert (∀ seen,
            fold_left (fun c w => counter_add w c) words
              ((fun w => (w, occurrences w seen)) <$> first_occurrences seen)
            = (fun w => (w, occurrences w (seen ++ words)))
                <$> first_occurrences (seen ++ words)) as Hgen.
  { induction words as [|k words IH]; intros seen.
    - cbn [fold_left]. by rewrite app_nil_r.
    - cbn [fold_left]. replace (seen ++ k :: words) with ((seen ++ [k]) ++ words)
        by (by rewrite <- app_assoc).
      rewrite <- IH. f_equal. rewrite first_occurrences_snoc.
      destruct (decide (k ∈ seen)) as [Hin|Hin].
      + rewrite (bool_decide_eq_true_2 (k ∈ seen)) by done. rewrite app_nil_r.
        rewrite counter_add_present
          by (apply NoDup_first_occurrences || by apply elem_of_first_occurrences).
        apply list_fmap_ext. intros i w _. by rewrite occurrences_snoc.
      + rewrite (bool_decide_eq_false_2 (k ∈ seen)) by done.
        rewrite counter_add_absent by (by rewrite elem_of_first_occurrences).
        rewrite fmap_app. f_equal.
        * apply list_fmap_ext. intros i w _. by rewrite occurrences_snoc.
        * cbn [fmap list_fmap]. rewrite occurrences_snoc.
          rewrite bool_decide_eq_true_2 by done. do 2 f_equal.
          unfold occurrences.
          assert (filter (fun x => x = k) seen = []) as ->; [|done].
          induction seen as [|x seen IHs]; [done|].
          apply not_elem_of_cons in Hin as [Hne Hin].
          by rewrite filter_cons, decide_False, IHs by (done || by intros ->). }
  apply (Hgen []).
Qed.

(** The sort keeps rows of equal key in the order they come in. *)
Lemma insert_desc_stable {A} (key : A → Z) (v : Z) x l :
  filter (fun y => key y = v) (PySort.insert_desc key x l)
  = filter (fun y => key y = v) (x :: l).
Proof.
  induction l as [|y l IH]; [done|]. cbn [PySort.insert_desc].
  destruct (key y <=? key x) eqn:Hle; [done|]. apply Z.leb_gt in Hle.
  rewrite filter_cons, IH, !filter_cons.
  destruct (decide (key y = v)), (decide (key x = v)); (done || lia).
Qed.

Lemma sorted_desc_stable {A} (key : A → Z) (v : Z) l :
  filter (fun y => key y = v) (PySort.sorted_desc key l) = filter (fun y => key y = v) l.
Proof.
  induction l as [|x l IH]; [done|]. cbn [PySort.sorted_desc foldr].
  fold (PySort.sorted_desc key l). by rewrite insert_desc_stable, !filter_cons, IH.
Qed.

Lemma filter_take_prefix {A} (P : A → Prop) `{!∀ x, Decision (P x)} n l :
  filter P (take n l) `prefix_of` filter P l.
Proof.
  exists (filter P (drop n l)). by rewrite <- filter_app, take_drop.
Qed.

(** X12. The order of [top_words] among words of equal count: for any
    count, the words shown with that count are the first of the words with
    that count, in the order the words are first met in the prompts. *)
Theorem top_words_ties h conn folder_path recursive limit max_images stopwords rows analysis v :
  get_stopwords conn = Ok stopwords →
  fetch_exif h conn (posixpath.normpath folder_path) recursive max_images = Ok rows →
  analyze_prompt_words h conn folder_path recursive limit max_images = Ok analysis →
  word <$> filter (fun entry => word_count entry = v) (top_words analysis)
    `prefix_of`
  filter (fun w => occurrences w (prompt_words (Host.unicode h) stopwords rows) = v)
         (first_occurrences (prompt_words (Host.unicode h) stopwords rows)).
Proof.
  intros Hstop Hrows. unfold analyze_prompt_words, prompt_words_body.
  rewrite Hstop. cbn [mbind result_bind]. rewrite Hrows. cbn [mbind result_bind].
  destruct rows as [|row rows]; [by intros [= <-]; exists []|]. intros [= <-].
  cbn [top_words]. fold (prompt_words (Host.unicode h) stopwords (row :: rows)).
  set (words := prompt_words (Host.unicode h) stopwords (row :: rows)).
  unfold most_common.
  assert (∀ (items : list (string * Z)),
            word <$> filter (fun entry => word_count entry = v)
                       (word_entry (sum_values (Counter words)) <$> items)
            = (filter (fun kv : string * Z => kv.2 = v) items).*1) as Hentries.
  { induction items as [|[w n] items IH]; [done|].
    rewrite fmap_cons, !filter_cons. cbn [word_entry word_count fst snd].
    case_decide; [rewrite !fmap_cons; f_equal|]; exact IH. }
  rewrite Hentries.
  assert ((filter (fun kv : string * Z => kv.2 = v) (Counter words)).*1
          = filter (fun w => occurrences w words = v) (first_occurrences words)) as <-.
  { rewrite Counter_first_occurrences.
    induction (first_occurrences words) as [|w ws IH]; [done|].
    rewrite fmap_cons, !filter_cons. cbn [snd].
    case_decide; [rewrite !fmap_cons; f_equal|]; exact IH. }
  rewrite <- (sorted_desc_stable snd v (Counter words)).
  destruct (filter_take_prefix (fun kv : string * Z => kv.2 = v) (Z.to_nat limit)
              (PySort.sorted_desc snd (Counter words))) as [rest ->].
  exists (rest.*1). by rewrite fmap_app.
Qed.

(** *** The metadata summary *)

(** The model names and the sizes found in the rows, a row after the
    other. *)
Definition found_models (rows : list (string * string)) : list string :=
  omap (fun row : string * string => find_model model_patterns row.2) rows.

Definition found_sizes (rows : list (string * string)) : list string :=
  omap (fun row : string * string => find_size size_patterns row.2) rows.

Lemma fold_add_found (find : string → option string) rows counter :
  fold_left (fun counter (row : string * string) => add_found (find row.2) counter) rows counter
  = fold_left (fun counter w => counter_add w counter)
      (omap (fun row : string * string => find row.2) rows) counter.
Proof.
  revert counter. induction rows as [|row rows IH]; intros counter; [done|].
  cbn [fold_left omap list_omap]. rewrite IH. by destruct (find row.2).
Qed.

Lemma filter_Forall {A} (P : A → Prop) `{!∀ x, Decision (P x)} l :
  Forall P l → filter P l = l.
Proof.
  induction 1 as [|x l Hx _ IH]; [done|]. by rewrite filter_cons, decide_True, IH.
Qed.

(** The rows with metadata the query returns have metadata. *)
Lemma fetch_exif_nonempty h conn folder_path recursive max_images rows :
  fetch_exif h conn folder_path recursive max_images = Ok rows →
  filter (fun row : string * string => row.2 ≠ "") rows = rows.
Proof.
  intros Hrows.
  assert (∃ all, fetch_exif h conn folder_path true max_images = Ok all
                 ∧ rows `sublist_of` all) as (all & Hall & Hsub).
  { destruct recursive; [by exists rows|].
    rewrite fetch_exif_direct in Hrows.
    destruct (fetch_exif h conn folder_path true max_images) as [all|]; [|done].
    injection Hrows as <-. exists all. split; [done|apply sublist_filter]. }
  rewrite fetch_exif_recursive in Hall. apply select_images_exif_selected in Hall.
  apply filter_Forall.
  { apply Forall_forall. intros row Hrow. apply (elem_of_sublist _ _ _ Hrow) in Hsub.
    rewrite Hall in Hsub. apply list_elem_of_fmap in Hsub as (r & -> & Hr).
    apply (proj1 (Forall_forall _ _) (selected_keep _ _ _)) in Hr as [(_ & Hsome & Hfull) _].
    cbn [snd]. destruct (Catalog.i_exif r) as [exif|]; [|done].
    intros Hempty. apply Hfull. f_equal. exact Hempty. }
Qed.

Lemma omap_length {A B} (f : A → option B) l : (length (omap f l) ≤ length l)%nat.
Proof.
  induction l as [|x l IH]; [done|]. cbn [omap list_omap].
  fold (omap f l). destruct (f x); simpl; lia.
Qed.

Lemma find_model_nonempty patterns exif_data model_name :
  find_model patterns exif_data = Some model_name → model_name ≠ "".
Proof.
  induction patterns as [|pattern patterns IH]; [done|]. cbn [find_model].
  destruct (Re.search pattern exif_data) as [m|]; [|done].
  case_bool_decide; [done|]. by intros [= <-].
Qed.

(** [entries] is the histogram of [found]: no key twice, each key with the
    number of times it stands in [found], at least once, by count
    descending, ten entries at most, the counts adding up to no more than
    the length of [found]. *)
Definition histogram_of (found : list string) (entries : list (string * Z)) : Prop :=
  NoDup entries.*1
  ∧ Forall (fun kv : string * Z => kv.2 = occurrences kv.1 found ∧ 1 ≤ kv.2) entries
  ∧ PySort.descending snd entries
  ∧ (length entries ≤ 10)%nat
  ∧ sum_values entries ≤ Z.of_nat (length found).

Lemma most_common_histogram found : histogram_of found (most_common 10 (Counter found)).
Proof.
  destruct (most_common_Counter 10 found) as (Hnd & Hentries & Hdesc & Hlen).
  unfold histogram_of. split_and!; [done| |done|lia|].
  - eapply Forall_impl; [exact Hentries|]. by intros kv (? & ? & _).
  - etrans; [apply sum_values_most_common, Counter_positive|].
    by rewrite sum_values_Counter.
Qed.

(** X13. The metadata summary, when the query returns rows. It carries
    no error. A row gives one model name at most and one size at most, so
    that no more are found than there are rows; [models] is the histogram of
    the names found and [sizes] that of the sizes found: no key comes twice,
    the count of a key is the number of rows it was found in, at least one,
    the entries go by count descending, and they are ten at most. *)
Theorem metadata_summary_entries h conn path recursive max_images rows :
  fetch_exif h conn (posixpath.normpath path) recursive max_images = Ok rows →
  metadata_error (get_metadata_summary h conn path recursive max_images) = None
  ∧ histogram_of (found_models rows)
      (models (get_metadata_summary h conn path recursive max_images))
  ∧ histogram_of (found_sizes rows)
      (sizes (get_metadata_summary h conn path recursive max_images))
  ∧ (length (found_models rows) ≤ length rows)%nat
  ∧ (length (found_sizes rows) ≤ length rows)%nat.
Proof.
  intros Hrows. unfold get_metadata_summary, metadata_summary_body.
  rewrite Hrows. cbn [mbind result_bind metadata_error models sizes].
  rewrite (fetch_exif_nonempty _ _ _ _ _ _ Hrows), !fold_add_found.
  fold (Counter (found_models rows)). fold (Counter (found_sizes rows)).
  split_and!; [done|apply most_common_histogram..|apply omap_length|apply omap_length].
Qed.

(** *** What the patterns capture *)










(** *** [strip] *)







(** *** A limit of zero *)

Definition with_limit_applied (b : bool) (stats : MediaStats) : MediaStats :=
  {| total_images := total_images stats;
     total_videos := total_videos stats;
     indexed_media := indexed_media stats;
     tagged_images := tagged_images stats;
     untagged_images := untagged_images stats;
     analyzed_count := analyzed_count stats;
     limit_applied := b;
     media_error := media_error stats |}.

(** The images of the catalog under a folder, all of them, and those of
    them that have metadata. *)
Definition images_under (conn : Catalog.Conn) (folder_path : string) : list Catalog.ImageRow :=
  filter (fun r => Catalog.like (path_pattern folder_path) (Catalog.i_path r) = true)
         (Catalog.image conn).

Definition images_with_metadata_under (conn : Catalog.Conn) (folder_path : string)
  : list Catalog.ImageRow :=
  filter (fun r => Catalog.like (path_pattern folder_path) (Catalog.i_path r) = true
                   ∧ Catalog.i_exif r ≠ None ∧ Catalog.i_exif r ≠ Some "")
         (Catalog.image conn).

Definition id_and_path (r : Catalog.ImageRow) : Z * string := (Catalog.i_id r, Catalog.i_path r).

Definition path_and_exif (r : Catalog.ImageRow) : string * string :=
  (Catalog.i_path r, default "" (Catalog.i_exif r)).

Lemma fetch_images_zero h conn folder_path recursive :
  fetch_images h conn folder_path recursive (Some 0)
  = fetch_images h conn folder_path recursive None.
Proof. done. Qed.

Lemma fetch_exif_zero h conn folder_path recursive :
  fetch_exif h conn folder_path recursive (Some 0)
  = fetch_exif h conn folder_path recursive None.
Proof. done. Qed.

Lemma media_stats_body_zero h conn folder_path recursive :
  media_stats_body h conn folder_path recursive (Some 0)
  = with_limit_applied true <$> media_stats_body h conn folder_path recursive None.
Proof.
  unfold media_stats_body. rewrite fetch_images_zero.
  destruct (fetch_images h conn folder_path recursive None) as [rows|e]; [|done].
  cbn [mbind result_bind fmap result_fmap].
  case_match; [done|].
  by destruct (Catalog.count_tagged conn _).
Qed.

(** The rows of the images under a folder: all of them, or the direct
    children among them when not recursive. *)
Definition image_rows_under (h : Host.t) (conn : Catalog.Conn) (folder_path : string)
    (recursive : bool) : list (Z * string) :=
  let rows := id_and_path <$> images_under conn folder_path in
  if recursive then rows
  else filter (fun row => direct_child h folder_path row.2 = true) rows.

Definition exif_rows_under (h : Host.t) (conn : Catalog.Conn) (folder_path : string)
    (recursive : bool) : list (string * string) :=
  let rows := path_and_exif <$> images_with_metadata_under conn folder_path in
  if recursive then rows
  else filter (fun row => direct_child h folder_path row.1 = true) rows.

(** The rows an unlimited query fetches on a connection that works: every
    image whose path matches the pattern of the folder. *)
Lemma fetch_images_unlimited h conn folder_path recursive :
  Catalog.healthy conn →
  fetch_images h conn folder_path recursive None
  = Ok (image_rows_under h conn folder_path recursive).
Proof.
  intros Hok.
  assert (fetch_images h conn folder_path true None
          = Ok (id_and_path <$> images_under conn folder_path)) as Hall.
  { unfold fetch_images, Catalog.select_images, Catalog.execute.
    cbn [truthy]. by rewrite Hok. }
  destruct recursive; [done|]. by rewrite fetch_images_direct, Hall.
Qed.

Lemma fetch_exif_unlimited h conn folder_path recursive :
  Catalog.healthy conn →
  fetch_exif h conn folder_path recursive None
  = Ok (exif_rows_under h conn folder_path recursive).
Proof.
  intros Hok.
  assert (fetch_exif h conn folder_path true None
          = Ok (path_and_exif <$> images_with_metadata_under conn folder_path)) as Hall.
  { unfold fetch_exif, Catalog.select_images_exif, Catalog.execute.
    cbn [truthy]. by rewrite Hok. }
  destruct recursive; [done|]. by rewrite fetch_exif_direct, Hall.
Qed.

(** The tag histogram of the rows fetched, on a connection that works. *)
Lemma top_tags_of_rows h conn folder_path recursive limit max_images image_rows :
  Catalog.healthy conn →
  fetch_images h conn (posixpath.normpath folder_path) recursive max_images = Ok image_rows →
  get_top_tags h conn folder_path recursive limit max_images
  = tag_entry
      (sum_counts
         (Catalog.sql_limit limit
            (Catalog.order_by_desc (Catalog.engine conn) _ Catalog.tc_count
               (Catalog.group_by_tag (Catalog.custom_links conn image_rows.*1)))))
    <$> Catalog.sql_limit limit
          (Catalog.order_by_desc (Catalog.engine conn) _ Catalog.tc_count
             (Catalog.group_by_tag (Catalog.custom_links conn image_rows.*1))).
Proof.
  intros Hok Hrows. unfold get_top_tags, top_tags_body. rewrite Hrows.
  cbn [mbind result_bind].
  destruct (image_rows.*1) as [|id ids] eqn:Hids.
  - rewrite Catalog.custom_links_nil. cbn [Catalog.group_by_tag Catalog.group_by fmap list_fmap].
    pose proof (Catalog.order_by_desc_perm (Catalog.engine conn) _ Catalog.tc_count []) as Hperm.
    apply Permutation_nil_r in Hperm. rewrite Hperm.
    unfold Catalog.sql_limit. rewrite take_nil. by destruct (limit <? 0).
  - unfold Catalog.select_tag_counts, Catalog.execute. by rewrite Hok.
Qed.

(** C10. A limit of zero is the query without a limit. The row-fetching
    steps fetch the same rows for [Some 0] as for [None]; [get_top_tags],
    [analyze_prompt_words] and [get_metadata_summary] return the same; and
    [get_media_stats] returns the same statistics with [limit_applied] true,
    where it is false without a limit. On a connection that works the rows
    fetched with the limit zero are every image of the catalog under the
    folder (every one with metadata, for the rows with metadata), not zero
    rows, or their direct children when not recursive; and they are the rows
    analyzed: [analyzed_count] is their number, the tag histogram is the
    histogram of the custom tags applied to them, the prompts analyzed are
    theirs and the words counted the words of their prompts, and the models
    and sizes summarized are those found in their metadata. *)
Theorem zero_limit_is_no_limit h conn folder_path recursive limit :
  fetch_images h conn folder_path recursive (Some 0)
    = fetch_images h conn folder_path recursive None
  ∧ fetch_exif h conn folder_path recursive (Some 0)
    = fetch_exif h conn folder_path recursive None
  ∧ get_media_stats h conn folder_path recursive (Some 0)
    = with_limit_applied true (get_media_stats h conn folder_path recursive None)
  ∧ limit_applied (get_media_stats h conn folder_path recursive (Some 0)) = true
  ∧ limit_applied (get_media_stats h conn folder_path recursive None) = false
  ∧ get_top_tags h conn folder_path recursive limit (Some 0)
    = get_top_tags h conn folder_path recursive limit None
  ∧ analyze_prompt_words h conn folder_path recursive limit (Some 0)
    = analyze_prompt_words h conn folder_path recursive limit None
  ∧ get_metadata_summary h conn folder_path recursive (Some 0)
    = get_metadata_summary h conn folder_path recursive None
  ∧ (Catalog.healthy conn →
     fetch_images h conn folder_path recursive (Some 0)
       = Ok (image_rows_under h conn folder_path recursive)
     ∧ fetch_exif h conn folder_path recursive (Some 0)
       = Ok (exif_rows_under h conn folder_path recursive)
     ∧ analyzed_count (get_media_stats h conn folder_path recursive (Some 0))
       = Z.of_nat (length (image_rows_under h conn (posixpath.normpath folder_path)
                             recursive))
     ∧ get_top_tags h conn folder_path recursive limit (Some 0)
       = tag_entry
           (sum_counts
              (Catalog.sql_limit limit
                 (Catalog.order_by_desc (Catalog.engine conn) _ Catalog.tc_count
                    (Catalog.group_by_tag
                       (Catalog.custom_links conn
                          (image_rows_under h conn (posixpath.normpath folder_path)
                             recursive).*1)))))
         <$> Catalog.sql_limit limit
               (Catalog.order_by_desc (Catalog.engine conn) _ Catalog.tc_count
                  (Catalog.group_by_tag
                     (Catalog.custom_links conn
                        (image_rows_under h conn (posixpath.normpath folder_path)
                           recursive).*1)))
     ∧ (∀ stopwords,
          get_stopwords conn = Ok stopwords →
          ∃ analysis,
            analyze_prompt_words h conn folder_path recursive limit (Some 0) = Ok analysis
            ∧ total_prompts_analyzed analysis
              = Z.of_nat (length (exif_rows_under h conn (posixpath.normpath folder_path)
                                    recursive))
            ∧ Forall (fun entry =>
                        word_count entry
                        = occurrences (word entry)
                            (prompt_words (Host.unicode h) stopwords
                               (exif_rows_under h conn (posixpath.normpath folder_path)
                                  recursive)))
                     (top_words analysis))
     ∧ get_metadata_summary h conn folder_path recursive (Some 0)
       = {| models := most_common 10
                        (Counter (found_models
                                    (exif_rows_under h conn (posixpath.normpath folder_path)
                                       recursive)));
            sizes := most_common 10
                       (Counter (found_sizes
                                   (exif_rows_under h conn (posixpath.normpath folder_path)
                                      recursive)));
            metadata_error := None |}).
Proof.
  assert (get_media_stats h conn folder_path recursive (Some 0)
          = with_limit_applied true (get_media_stats h conn folder_path recursive None)) as Hms.
  { unfold get_media_stats. rewrite media_stats_body_zero.
    by destruct (media_stats_body h conn _ recursive None). }
  split_and!; try done.
  - by rewrite Hms.
  - unfold get_media_stats.
    by destruct (media_stats_body h conn _ recursive None) as [stats|e] eqn:Hb;
      [|done]; unfold media_stats_body in Hb;
      destruct (fetch_images h conn _ recursive None); [|done];
      cbn [mbind result_bind] in Hb; case_match; [by injection Hb as <-|];
      destruct (Catalog.count_tagged conn _); [by injection Hb as <-|done].
  - intros Hok. split_and!.
    + by rewrite fetch_images_zero, fetch_images_unlimited.
    + by rewrite fetch_exif_zero, fetch_exif_unlimited.
    + unfold get_media_stats. rewrite media_stats_body_zero.
      unfold media_stats_body. rewrite fetch_images_unlimited by done.
      cbn [mbind result_bind fmap result_fmap].
      rewrite !length_fmap.
      destruct (Z.of_nat _ =? 0) eqn:Hz.
      * apply Z.eqb_eq in Hz. simpl. lia.
      * unfold Catalog.count_tagged, Catalog.execute. by rewrite Hok.
    + apply top_tags_of_rows; [done|].
      by rewrite fetch_images_zero, fetch_images_unlimited.
    + intros stopwords Hstop.
      set (rows := exif_rows_under h conn (posixpath.normpath folder_path) recursive).
      unfold analyze_prompt_words, prompt_words_body. rewrite Hstop.
      cbn [mbind result_bind]. rewrite fetch_exif_zero, fetch_exif_unlimited by done.
      cbn [mbind result_bind]. fold rows.
      destruct rows as [|row rows']; [by eexists; split_and!; [done|done|constructor]|].
      eexists. split; [done|]. cbn [total_prompts_analyzed top_words]. split; [done|].
      fold (prompt_words (Host.unicode h) stopwords (row :: rows')).
      destruct (most_common_Counter limit
                  (prompt_words (Host.unicode h) stopwords (row :: rows')))
        as (_ & Hentries & _).
      apply Forall_fmap. eapply Forall_impl; [exact Hentries|]. by intros [w n] [? _].
    + unfold get_metadata_summary, metadata_summary_body.
      pose proof (fetch_exif_nonempty h conn (posixpath.normpath folder_path) recursive
                    (Some 0)) as Hfull.
      rewrite fetch_exif_zero, fetch_exif_unlimited in Hfull |- * by done.
      cbn [mbind result_bind]. rewrite (Hfull _ eq_refl), !fold_add_found. done.
Qed.

(** *** The whole record *)

Definition without_metadata (record : FolderStatsRecord) : FolderStatsRecord :=
  {| folder_path := folder_path record;
     recursive := recursive record;
     counts := counts record;
     media_stats := media_stats record;
     top_tags := top_tags record;
     prompt_analysis := prompt_analysis record;
     metadata_summary := None;
     analysis_limit := analysis_limit record |}.

Lemma get_top_tags_length h conn path recursive limit max_images :
  0 ≤ limit →
  Z.of_nat (length (get_top_tags h conn path recursive limit max_images)) ≤ limit.
Proof.
  intros Hlimit.
  destruct (get_top_tags_cases h conn path recursive limit max_images)
    as [->|(image_rows & _ & _ & _ & ->)]; [simpl; lia|].
  rewrite length_fmap. by apply sql_limit_length.
Qed.

Lemma analyze_prompt_words_length h conn path recursive limit max_images analysis :
  0 ≤ limit →
  analyze_prompt_words h conn path recursive limit max_images = Ok analysis →
  Z.of_nat (length (top_words analysis)) ≤ limit.
Proof.
  intros Hlimit. unfold analyze_prompt_words.
  destruct (get_stopwords conn) as [stopwords|]; [|done]. cbn [mbind result_bind].
  unfold prompt_words_body.
  destruct (fetch_exif h conn _ recursive max_images) as [[|row rows]|];
    cbn [mbind result_bind]; intros [= <-]; cbn [top_words no_prompts]; [simpl; lia| |simpl; lia].
  rewrite length_fmap. unfold most_common. rewrite length_take. lia.
Qed.

(** X15. The record of a folder. The path is taken in normal form: a
    path and its normal form give the same, and the record carries the
    normal form. The record tells the mode and the limit it was asked with;
    its counts are those of the whole folder, whatever the limit; it has ten
    tags and twenty words at most; and [include_metadata] decides nothing but
    the metadata summary, and not whether the call raises. *)
Theorem compute_folder_stats_record h path rec_mode include_metadata limit :
  compute_folder_stats h (posixpath.normpath path) rec_mode include_metadata limit
    = compute_folder_stats h path rec_mode include_metadata limit
  ∧ compute_folder_stats h path rec_mode false limit
    = without_metadata <$> compute_folder_stats h path rec_mode true limit
  ∧ (∀ limit', counts <$> compute_folder_stats h path rec_mode include_metadata limit'
               = counts <$> compute_folder_stats h path rec_mode include_metadata limit)
  ∧ (∀ record,
       compute_folder_stats h path rec_mode include_metadata limit = Ok record →
       folder_path record = posixpath.normpath path
       ∧ recursive record = rec_mode
       ∧ analysis_limit record = limit
       ∧ counts record
         = get_file_and_folder_counts h (posixpath.normpath path) rec_mode
       ∧ (metadata_summary record = None ↔ include_metadata = false)
       ∧ (length (top_tags record) ≤ 10)%nat
       ∧ (length (top_words (prompt_analysis record)) ≤ 20)%nat).
Proof.
  split_and!.
  - unfold compute_folder_stats, get_media_stats, get_top_tags, analyze_prompt_words,
      get_metadata_summary. by rewrite !posixpath.normpath_idempotent.
  - unfold compute_folder_stats. destruct (negb _ || negb _); [done|].
    by destruct (analyze_prompt_words h _ _ rec_mode 20 limit).
  - intros limit'. unfold compute_folder_stats. destruct (negb _ || negb _); [done|].
    unfold analyze_prompt_words.
    destruct (get_stopwords _); cbn [mbind result_bind]; [|done].
    by destruct (prompt_words_body _ _ _ _ _ _ limit'),
                (prompt_words_body _ _ _ _ _ _ limit).
  - intros record. unfold compute_folder_stats. destruct (negb _ || negb _); [done|].
    destruct (analyze_prompt_words h _ _ rec_mode 20 limit) as [analysis|] eqn:Hwords;
      cbn [mbind result_bind]; [|done].
    intros [= <-]. cbn [folder_path recursive analysis_limit counts metadata_summary
                        top_tags prompt_analysis].
    split_and!; try done.
    + by destruct include_metadata.
    + pose proof (get_top_tags_length h (Host.get_conn h) (posixpath.normpath path)
                    rec_mode 10 limit ltac:(lia)) as Hlen.
      apply Nat2Z.inj_le. exact Hlen.
    + pose proof (analyze_prompt_words_length _ _ _ _ 20 _ _ ltac:(lia) Hwords) as Hlen.
      apply Nat2Z.inj_le. exact Hlen.
Qed.

(** *** The cached statistics *)

(** Modelled from the spec: the cache store, the class [FolderStats] of
    [scripts/iib/db/datamodel.py], which is not among the sources. The
    specification has it tell whether the entry of a path has expired (true
    when the path has no entry or its entry is older than the time to live),
    read the entry of a path (the record with its [computed_at], when there
    is one) and write it (overwriting the entry and setting [computed_at]).
    What each call answers, an exception included, is a field here;
    [cache_stats] answers with the [computed_at] the record holds after
    it. *)
Record CachedStats := { cached_stats : FolderStatsRecord; cached_computed_at : string }.

Record FolderStats := {
  is_cache_expired : string → Result bool;
  get_cached_stats : string → Result (option CachedStats);
  cache_stats : string → FolderStatsRecord → Result (option string)
}.

Record CacheInfo := { is_cached : bool; computed_at : option string; cache_valid : bool }.

(** The statistics with the [cache_info] key set. *)
Record CachedOrComputed := { stats : FolderStatsRecord; cache_info : CacheInfo }.

Definition get_cached_or_compute_stats (h : Host.t) (store : FolderStats) (folder_path : string)
    (recursive force_refresh include_metadata : bool) (analysis_limit : option Z)
  : Result CachedOrComputed :=
  let folder_path := posixpath.normpath folder_path in
  cache_expired ← is_cache_expired store folder_path;
  cached ← (if negb force_refresh && negb cache_expired
            then get_cached_stats store folder_path
            else Ok None);
  match cached with
  | Some cached =>
      Ok {| stats := cached_stats cached;
            cache_info := {| is_cached := true;
                             computed_at := Some (cached_computed_at cached);
                             cache_valid := true |} |}
  | None =>
      stats ← compute_folder_stats h folder_path recursive include_metadata analysis_limit;
      let computed_at :=
        match cache_stats store folder_path stats with
        | Ok computed_at => computed_at
        | Raise _ => None
        end in
      Ok {| stats := stats;
            cache_info := {| is_cached := false;
                             computed_at := computed_at;
                             cache_valid := true |} |}
  end.

(** The store [store] with [write] for its [cache_stats]. *)
Definition with_cache_stats (store : FolderStats)
    (write : string → FolderStatsRecord → Result (option string)) : FolderStats :=
  {| is_cache_expired := is_cache_expired store;
     get_cached_stats := get_cached_stats store;
     cache_stats := write |}.

(** X16. Statistics from the cache or computed. What is returned not
    from the cache is the record [compute_folder_stats] returns for the path
    (and the call raises what it raises); what is returned from the cache is
    the entry read, and then the call was not forced and the store had told
    the entry fresh. A forced call never returns from the cache. Writing the
    cache decides nothing but [computed_at]: with a store whose writes fail
    the call returns the same statistics, with [computed_at] unset, and
    raises in the same cases. [cache_valid] is always true. *)
Theorem get_cached_or_compute_stats_cases h store path rec_mode force_refresh include_metadata
    limit :
  (∀ result,
     get_cached_or_compute_stats h store path rec_mode force_refresh include_metadata limit
       = Ok result →
     cache_valid (cache_info result) = true
     ∧ (is_cached (cache_info result) = false →
        compute_folder_stats h path rec_mode include_metadata limit = Ok (stats result))
     ∧ (is_cached (cache_info result) = true →
        force_refresh = false
        ∧ is_cache_expired store (posixpath.normpath path) = Ok false
        ∧ ∃ cached,
            get_cached_stats store (posixpath.normpath path) = Ok (Some cached)
            ∧ stats result = cached_stats cached
            ∧ computed_at (cache_info result) = Some (cached_computed_at cached)))
  ∧ (force_refresh = true →
     ∀ expired, is_cache_expired store (posixpath.normpath path) = Ok expired →
       stats <$> get_cached_or_compute_stats h store path rec_mode true include_metadata limit
       = compute_folder_stats h path rec_mode include_metadata limit)
  ∧ (∀ write,
       stats <$> get_cached_or_compute_stats h (with_cache_stats store write) path rec_mode
                   force_refresh include_metadata limit
       = stats <$> get_cached_or_compute_stats h store path rec_mode force_refresh
                     include_metadata limit)
  ∧ (∀ result e,
       get_cached_or_compute_stats h
         (with_cache_stats store (fun _ _ => Raise e)) path rec_mode force_refresh
         include_metadata limit = Ok result →
       is_cached (cache_info result) = false →
       computed_at (cache_info result) = None).
Proof.
  assert (compute_folder_stats h (posixpath.normpath path) rec_mode include_metadata limit
          = compute_folder_stats h path rec_mode include_metadata limit) as Hnorm.
  { unfold compute_folder_stats, get_media_stats, get_top_tags, analyze_prompt_words,
      get_metadata_summary. by rewrite !posixpath.normpath_idempotent. }
  unfold get_cached_or_compute_stats. cbn [with_cache_stats is_cache_expired get_cached_stats
    cache_stats]. rewrite Hnorm.
  split_and!.
  - intros result.
    destruct (is_cache_expired store _) as [expired|]; cbn [mbind result_bind]; [|done].
    destruct force_refresh, expired; cbn [negb andb mbind result_bind];
      try (destruct (compute_folder_stats h path rec_mode include_metadata limit);
           cbn [mbind result_bind]; [|done]; intros [= <-]; by split_and!).
    destruct (get_cached_stats store _) as [[cached|]|]; cbn [mbind result_bind]; [| |done].
    + intros [= <-]. split_and!; [done|done|]. intros _. split_and!; [done|done|].
      by exists cached.
    + destruct (compute_folder_stats h path rec_mode include_metadata limit);
        cbn [mbind result_bind]; [|done]. intros [= <-]. by split_and!.
  - intros _ expired ->. cbn [mbind result_bind negb andb].
    by destruct (compute_folder_stats h path rec_mode include_metadata limit).
  - intros write.
    destruct (is_cache_expired store _) as [expired|]; cbn [mbind result_bind]; [|done].
    destruct (if negb force_refresh && negb expired then _ else _) as [[cached|]|];
      cbn [mbind result_bind]; [done| |done].
    by destruct (compute_folder_stats h path rec_mode include_metadata limit).
  - intros result e.
    destruct (is_cache_expired store _) as [expired|]; cbn [mbind result_bind]; [|done].
    destruct (if negb force_refresh && negb expired then _ else _) as [[cached|]|];
      cbn [mbind result_bind]; [by intros [= <-]| |done].
    destruct (compute_folder_stats h path rec_mode include_metadata limit);
      cbn [mbind result_bind]; [|done]. by intros [= <-].
Qed.

End folder_stats.

(** ** The background scheduler ([folder_stats_bg.py])

    The module's globals are a [State]; a function that assigns them returns
    the new one. [running] is the work handed to worker threads and not yet
    finished: the queue of the pool, which outlives [shutdown(wait=False)].
    Each call runs as one step: the pending set is only touched under
    [_jobs_lock]. *)

Module folder_stats_bg.

Record ThreadPoolExecutor := { max_workers : Z; thread_name_prefix : string }.

(** The arguments of a call of [_compute_stats_task]. *)
Record Job := { job_folder_path : string; job_recursive : bool; job_analysis_limit : Z }.

#[global] Instance job_eq_dec : EqDecision Job.
Proof. solve_decision. Defined.

Record State := {
  _executor : option ThreadPoolExecutor;
  _pending_jobs : gset string;
  _initialized : bool;
  running : list Job
}.

(** The globals when the module is loaded. *)
Definition initial : State :=
  {| _executor := None; _pending_jobs := ∅; _initialized := false; running := [] |}.

(** [ThreadPoolExecutor(max_workers=..)] raises on a size that is not
    positive. *)
Definition init_background_worker (st : State) (max_workers : Z) : Result State :=
  if negb (_initialized st) then
    if max_workers <=? 0 then Raise (ValueError "max_workers must be greater than 0")
    else Ok {| _executor := Some {| max_workers := max_workers;
                                    thread_name_prefix := "folder-stats-" |};
               _pending_jobs := _pending_jobs st;
               _initialized := true;
               running := running st |}
  else Ok st.

Definition shutdown_background_worker (st : State) : State :=
  match _executor st with
  | Some _ =>
      {| _executor := None;
         _pending_jobs := _pending_jobs st;
         _initialized := false;
         running := running st |}
  | None => st
  end.

Definition is_job_pending (st : State) (folder_path : string) : bool :=
  let folder_path := posixpath.normpath folder_path in
  bool_decide (folder_path ∈ _pending_jobs st).

(** Modelled from the spec: [FolderStats.cache_stats] followed by
    [conn.commit()], of [scripts/iib/db/datamodel.py], which is not among
    the sources. The cache store overwrites the entry of the path or
    fails; what it answers here is a parameter. *)
Definition CacheStats : Type := string → folder_stats.FolderStatsRecord → Result unit.

(** The [try] block of [_compute_stats_task]. *)
Definition compute_and_cache (h : Host.t) (cache_stats : CacheStats)
    (folder_path : string) (recursive : bool) (analysis_limit : Z) : Result unit :=
  stats ← folder_stats.compute_folder_stats h folder_path recursive false (Some analysis_limit);
  cache_stats folder_path stats.

(** [_compute_stats_task]: the state after it, and what its [try] block
    came to (logged, and nothing else). The [finally] clause discards the
    path whichever it is. *)
Definition _compute_stats_task (h : Host.t) (cache_stats : CacheStats) (st : State)
    (folder_path : string) (recursive : bool) (analysis_limit : Z)
  : State * Result unit :=
  let folder_path := posixpath.normpath folder_path in
  let outcome := compute_and_cache h cache_stats folder_path recursive analysis_limit in
  ({| _executor := _executor st;
      _pending_jobs := _pending_jobs st ∖ {[folder_path]};
      _initialized := _initialized st;
      running := running st |},
   outcome).

(** Modelled from the spec: [FolderStats.is_cache_expired] of
    [scripts/iib/db/datamodel.py], which is not among the sources, called on
    [DataBase.get_conn()]: true when the path has no entry or its entry is
    older than the time to live. What the two calls come to at the time of
    the call, an answer or the exception one of them raises, is a
    parameter. *)
Definition CacheCheck : Type := string → Result bool.

(** The cache is consulted unless the submission is forced; nothing
    catches what the check raises. *)
Definition submit_folder_for_processing (is_cache_expired : CacheCheck) (st : State)
    (folder_path : string) (recursive : bool) (analysis_limit : Z) (force : bool)
  : State * Result bool :=
  match (if negb (_initialized st) then init_background_worker st 4 else Ok st) with
  | Raise e => (st, Raise e)
  | Ok st =>
      let folder_path := posixpath.normpath folder_path in
      if is_job_pending st folder_path then (st, Ok false)
      else
        match (if negb force then is_cache_expired folder_path else Ok true) with
        | Raise e => (st, Raise e)
        | Ok false => (st, Ok false)
        | Ok true =>
            if bool_decide (folder_path ∈ _pending_jobs st) then (st, Ok false)
            else
              let st := {| _executor := _executor st;
                           _pending_jobs := {[folder_path]} ∪ _pending_jobs st;
                           _initialized := _initialized st;
                           running := running st |} in
              match _executor st with
              | Some _ =>
                  ({| _executor := _executor st;
                      _pending_jobs := _pending_jobs st;
                      _initialized := _initialized st;
                      running := running st ++ [{| job_folder_path := folder_path;
                                                   job_recursive := recursive;
                                                   job_analysis_limit := analysis_limit |}] |},
                   Ok true)
              | None =>
                  (st, Raise (AttributeError "'NoneType' object has no attribute 'submit'"))
              end
        end
  end.

(** The loop of [batch_submit_folders]: a submission that raises ends
    it. *)
Fixpoint batch_submit_loop (is_cache_expired : CacheCheck) (st : State)
    (folder_paths : list string) (recursive : bool) (analysis_limit : Z) (force : bool)
    (submitted : Z) : State * Result Z :=
  match folder_paths with
  | [] => (st, Ok submitted)
  | folder_path :: folder_paths' =>
      match submit_folder_for_processing is_cache_expired st folder_path recursive
              analysis_limit force with
      | (st', Ok accepted) =>
          batch_submit_loop is_cache_expired st' folder_paths' recursive analysis_limit force
            (if accepted then submitted + 1 else submitted)
      | (st', Raise e) => (st', Raise e)
      end
  end.

Definition batch_submit_folders (is_cache_expired : CacheCheck) (st : State)
    (folder_paths : list string) (recursive : bool) (analysis_limit : Z) (force : bool)
  : State * Result Z :=
  match (if negb (_initialized st) then init_background_worker st 4 else Ok st) with
  | Raise e => (st, Raise e)
  | Ok st => batch_submit_loop is_cache_expired st folder_paths recursive analysis_limit force 0
  end.

Definition get_pending_jobs (st : State) : list string := elements (_pending_jobs st).

Definition get_pending_job_count (st : State) : Z := Z.of_nat (size (_pending_jobs st)).

(** *** Runs of the scheduler *)

Inductive Event :=
| Init (max_workers : Z)
| Shutdown
| Submit (is_cache_expired : CacheCheck) (folder_path : string) (recursive : bool)
         (analysis_limit : Z) (force : bool)
| Finish (h : Host.t) (cache_stats : CacheStats) (job : Job).

(** The first [job] of the work in hand leaves it. *)
Fixpoint finish_job (job : Job) (jobs : list Job) : list Job :=
  match jobs with
  | [] => []
  | j :: jobs' => if bool_decide (j = job) then jobs' else j :: finish_job job jobs'
  end.

(** One call, or one worker running a job it was handed to its end. *)
Definition step (st : State) (ev : Event) : option State :=
  match ev with
  | Init n =>
      match init_background_worker st n with
      | Ok st' => Some st'
      | Raise _ => Some st
      end
  | Shutdown => Some (shutdown_background_worker st)
  | Submit is_cache_expired folder_path recursive analysis_limit force =>
      Some (submit_folder_for_processing is_cache_expired st folder_path recursive
              analysis_limit force).1
  | Finish h cache_stats job =>
      if bool_decide (job ∈ running st) then
        let st' := (_compute_stats_task h cache_stats st (job_folder_path job)
                      (job_recursive job) (job_analysis_limit job)).1 in
        Some {| _executor := _executor st';
                _pending_jobs := _pending_jobs st';
                _initialized := _initialized st';
                running := finish_job job (running st') |}
      else None
  end.

Inductive reachable : State → Prop :=
| reachable_initial : reachable initial
| reachable_step st ev st' : reachable st → step st ev = Some st' → reachable st'.

(** *** What a submission does *)

(** The state after the lazy initialisation at the head of a submission. *)
Definition ensure_initialized (st : State) : State :=
  if _initialized st then st
  else {| _executor := Some {| max_workers := 4; thread_name_prefix := "folder-stats-" |};
          _pending_jobs := _pending_jobs st;
          _initialized := true;
          running := running st |}.

(** Whether a submission is accepted: the path is not pending, and the
    submission is forced or the cache entry of the path has expired. For a
    path that is not pending and a submission that is not forced the cache
    is consulted, and what the check raises is raised. *)
Definition accepts (is_cache_expired : CacheCheck) (st : State) (folder_path : string)
    (force : bool) : Result bool :=
  if bool_decide (posixpath.normpath folder_path ∈ _pending_jobs st) then Ok false
  else if force then Ok true
  else is_cache_expired (posixpath.normpath folder_path).

Definition job_of (folder_path : string) (recursive : bool) (analysis_limit : Z) : Job :=
  {| job_folder_path := posixpath.normpath folder_path;
     job_recursive := recursive;
     job_analysis_limit := analysis_limit |}.

(** The globals are consistent: there is a pool exactly when the module is
    initialised. *)
Definition pool_consistent (st : State) : Prop :=
  _initialized st = true ↔ is_Some (_executor st).

Lemma lazy_init st :
  (if negb (_initialized st) then init_background_worker st 4 else Ok st)
  = Ok (ensure_initialized st).
Proof.
  unfold ensure_initialized, init_background_worker. by destruct (_initialized st).
Qed.

Lemma ensure_initialized_pool st :
  pool_consistent st → is_Some (_executor (ensure_initialized st)).
Proof.
  intros Hpool. unfold ensure_initialized.
  destruct (_initialized st) eqn:Hinit; [by apply Hpool|]. by eexists.
Qed.

Lemma ensure_initialized_pending st :
  _pending_jobs (ensure_initialized st) = _pending_jobs st
  ∧ running (ensure_initialized st) = running st
  ∧ _initialized (ensure_initialized st) = true.
Proof. unfold ensure_initialized. by destruct (_initialized st) eqn:Hinit. Qed.

(** A submission, in full. *)
Lemma submit_spec is_cache_expired st folder_path recursive analysis_limit force :
  pool_consistent st →
  submit_folder_for_processing is_cache_expired st folder_path recursive analysis_limit force
  = match accepts is_cache_expired st folder_path force with
    | Ok true =>
        ({| _executor := _executor (ensure_initialized st);
            _pending_jobs := {[posixpath.normpath folder_path]} ∪ _pending_jobs st;
            _initialized := true;
            running := running st ++ [job_of folder_path recursive analysis_limit] |},
         Ok true)
    | Ok false => (ensure_initialized st, Ok false)
    | Raise e => (ensure_initialized st, Raise e)
    end.
Proof.
  intros Hpool. unfold submit_folder_for_processing, accepts, is_job_pending.
  rewrite lazy_init, posixpath.normpath_idempotent.
  destruct (ensure_initialized_pending st) as (-> & -> & ->).
  case_bool_decide as Hpending; [done|].
  destruct force; cbn [negb].
  - destruct (ensure_initialized_pool st Hpool) as [pool ->]. done.
  - destruct (is_cache_expired _) as [[|]|e]; [|done|done].
    destruct (ensure_initialized_pool st Hpool) as [pool ->]. done.
Qed.

(** *** The invariant of the runs *)

Record Inv (st : State) : Prop := {
  inv_pool : pool_consistent st;
  inv_nodup : NoDup (job_folder_path <$> running st);
  inv_pending : ∀ path, path ∈ _pending_jobs st ↔ path ∈ job_folder_path <$> running st;
  inv_normal : Forall (fun job => posixpath.normpath (job_folder_path job)
                                  = job_folder_path job) (running st)
}.

Lemma Inv_initial : Inv initial.
Proof.
  split; simpl.
  - split; [done|]. by intros [? ?].
  - constructor.
  - intros path. set_solver.
  - constructor.
Qed.

Lemma finish_job_paths job jobs :
  NoDup (job_folder_path <$> jobs) → job ∈ jobs →
  NoDup (job_folder_path <$> finish_job job jobs)
  ∧ (∀ path, path ∈ job_folder_path <$> finish_job job jobs ↔
             path ∈ job_folder_path <$> jobs ∧ path ≠ job_folder_path job)
  ∧ (∀ j, j ∈ finish_job job jobs → j ∈ jobs).
Proof.
  induction jobs as [|j jobs IH]; intros Hnd Hin; [by apply elem_of_nil in Hin|].
  rewrite fmap_cons in Hnd. apply NoDup_cons in Hnd as [Hj Hnd].
  cbn [finish_job]. case_bool_decide as Heq.
  - subst j. split_and!; [done| |by intros; right].
    intros path. rewrite fmap_cons, elem_of_cons. split.
    + intros Hpath. split; [by right|]. by intros ->.
    + by intros [[?|?] ?].
  - apply elem_of_cons in Hin as [->|Hin]; [done|].
    destruct (IH Hnd Hin) as (IH1 & IH2 & IH3). split_and!.
    + rewrite fmap_cons. apply NoDup_cons. split; [|done].
      rewrite IH2. by intros [? _].
    + intros path. rewrite !fmap_cons, !elem_of_cons, IH2. split.
      * intros [->|[? ?]]; [|by split; [right|]]. split; [by left|].
        intros Hpath. apply Hj. rewrite Hpath. by apply list_elem_of_fmap_2.
      * intros [[->|?] ?]; [by left|by right].
    + intros j'. rewrite !elem_of_cons. intros [->|?]; [by left|right; by apply IH3].
Qed.

Lemma Inv_step st ev st' : Inv st → step st ev = Some st' → Inv st'.
Proof.
  intros Hinv. pose proof Hinv as [Hpool Hnd Hpend Hnorm].
  destruct ev as [n| |ce path r l f|h cs job]; cbn [step].
  - unfold init_background_worker.
    destruct (_initialized st) eqn:Hinit; cbn [negb]; [by intros [= <-]|].
    destruct (n <=? 0); intros [= <-]; [done|].
    by split.
  - intros [= <-]. unfold shutdown_background_worker.
    destruct (_executor st) eqn:Hex; [|done].
    split; try done; simpl; split; [done|by intros [? ?]].
  - intros [= <-]. rewrite submit_spec by done.
    assert (Inv (ensure_initialized st)) as Hinit.
    { destruct (ensure_initialized_pending st) as (Hp & Hr & Hi).
      split; rewrite ?Hp, ?Hr; try done.
      split; [intros _; by apply ensure_initialized_pool|done]. }
    destruct (accepts ce st path f) as [[|]|e] eqn:Hacc; cbn [fst]; [|done|done].
    + assert (posixpath.normpath path ∉ _pending_jobs st) as Hfree.
      { unfold accepts in Hacc. by case_bool_decide. }
      split; cbn [_executor _pending_jobs _initialized running].
      * split; [intros _; by apply ensure_initialized_pool|done].
      * rewrite fmap_app. apply NoDup_app. split_and!; [done| |by apply NoDup_singleton].
        intros p Hp. cbn [fmap list_fmap job_of job_folder_path].
        rewrite list_elem_of_singleton. intros ->. by apply Hfree, Hpend.
      * intros p. rewrite fmap_app, elem_of_app, elem_of_union, <- Hpend.
        cbn [fmap list_fmap job_of job_folder_path].
        rewrite list_elem_of_singleton, elem_of_singleton. tauto.
      * apply Forall_app. split; [done|]. constructor; [|constructor].
        cbn [job_of job_folder_path]. apply posixpath.normpath_idempotent.
  - case_bool_decide as Hin; [|done]. intros [= <-].
    cbn [_compute_stats_task fst _executor _pending_jobs _initialized running].
    destruct (finish_job_paths job (running st) Hnd Hin) as (H1 & H2 & H3).
    assert (posixpath.normpath (job_folder_path job) = job_folder_path job) as ->.
    { by apply (proj1 (Forall_forall _ _) Hnorm). }
    split; cbn [_executor _pending_jobs _initialized running]; [done|done| |].
    + intros p. rewrite elem_of_difference, elem_of_singleton, H2, Hpend. done.
    + apply Forall_forall. intros j Hj. apply (proj1 (Forall_forall _ _) Hnorm). by apply H3.
Qed.

Lemma reachable_Inv st : reachable st → Inv st.
Proof. induction 1; [apply Inv_initial|by eapply Inv_step]. Qed.

Lemma NoDup_paths_count path jobs :
  NoDup (job_folder_path <$> jobs) →
  (length (filter (fun job => job_folder_path job = path) jobs) ≤ 1)%nat.
Proof.
  induction jobs as [|j jobs IH]; [simpl; lia|].
  rewrite fmap_cons, NoDup_cons. intros [Hj Hnd]. rewrite filter_cons.
  case_decide as Heq; [|by apply IH].
  assert (filter (fun job => job_folder_path job = path) jobs = []) as ->; [|simpl; lia].
  destruct (filter _ jobs) as [|j' js] eqn:Hfilter; [done|]. destruct Hj.
  assert (j' ∈ filter (fun job => job_folder_path job = path) jobs) as Hj'.
  { rewrite Hfilter. by left. }
  apply list_elem_of_filter in Hj' as [Hpath Hj']. rewrite Heq, <- Hpath.
  by apply list_elem_of_fmap_2.
Qed.

(** C1. In every state the scheduler reaches, no two jobs in hand are for
    the same path, and the pending set is the set of the paths of the jobs
    in hand. A submission for a path in the pending set returns false and
    leaves the set, its size and the jobs in hand as they are. Any
    submission either is accepted (it returns true, the path was not
    pending, the path is added to the set and its job is handed over) or is
    rejected (it returns false, set and jobs unchanged) or, not forced and
    for a path not pending, raises what the cache check raises (set and
    jobs unchanged). A finished task
    leaves the set without its path, whatever the host and the cache store,
    so whether its computation returned or raised; after a worker finishes a
    job in hand, its path is not pending. *)
Theorem one_pending_job_per_path st :
  reachable st →
  (∀ path, (length (filter (fun job => job_folder_path job = path) (running st)) ≤ 1)%nat)
  ∧ (∀ path, path ∈ _pending_jobs st ↔ path ∈ job_folder_path <$> running st)
  ∧ (∀ ce path r l f,
       posixpath.normpath path ∈ _pending_jobs st →
       (submit_folder_for_processing ce st path r l f).2 = Ok false
       ∧ _pending_jobs (submit_folder_for_processing ce st path r l f).1 = _pending_jobs st
       ∧ get_pending_job_count (submit_folder_for_processing ce st path r l f).1
         = get_pending_job_count st
       ∧ running (submit_folder_for_processing ce st path r l f).1 = running st)
  ∧ (∀ ce path r l f,
       ((submit_folder_for_processing ce st path r l f).2 = Ok true
        ∧ (posixpath.normpath path ∉ _pending_jobs st)
        ∧ _pending_jobs (submit_folder_for_processing ce st path r l f).1
          = {[posixpath.normpath path]} ∪ _pending_jobs st
        ∧ running (submit_folder_for_processing ce st path r l f).1
          = running st ++ [job_of path r l])
       ∨ ((submit_folder_for_processing ce st path r l f).2 = Ok false
          ∧ _pending_jobs (submit_folder_for_processing ce st path r l f).1
            = _pending_jobs st
          ∧ running (submit_folder_for_processing ce st path r l f).1 = running st)
       ∨ (∃ e, (submit_folder_for_processing ce st path r l f).2 = Raise e
               ∧ f = false
               ∧ (posixpath.normpath path ∉ _pending_jobs st)
               ∧ ce (posixpath.normpath path) = Raise e
               ∧ _pending_jobs (submit_folder_for_processing ce st path r l f).1
                 = _pending_jobs st
               ∧ running (submit_folder_for_processing ce st path r l f).1 = running st))
  ∧ (∀ h cache_stats path r l,
       (_pending_jobs (_compute_stats_task h cache_stats st path r l).1
        = _pending_jobs st ∖ {[posixpath.normpath path]})
       ∧ posixpath.normpath path ∉ _pending_jobs (_compute_stats_task h cache_stats st path r l).1)
  ∧ (∀ h cache_stats job st',
       step st (Finish h cache_stats job) = Some st' →
       (job_folder_path job ∉ _pending_jobs st')
       ∧ (_pending_jobs st' = _pending_jobs st ∖ {[job_folder_path job]})).
Proof.
  intros Hreach. pose proof (reachable_Inv st Hreach) as [Hpool Hnd Hpend Hnorm].
  split_and!.
  - intros path. by apply NoDup_paths_count.
  - done.
  - intros ce path r l f Hin. rewrite submit_spec by done.
    unfold accepts. rewrite bool_decide_eq_true_2 by done. cbn [fst snd].
    destruct (ensure_initialized_pending st) as (Hp & Hr & _).
    unfold get_pending_job_count. by rewrite Hp, Hr.
  - intros ce path r l f. rewrite submit_spec by done.
    destruct (ensure_initialized_pending st) as (Hp & Hr & _).
    destruct (accepts ce st path f) as [[|]|e] eqn:Hacc; cbn [fst snd _pending_jobs running].
    + left. split_and!; try done. unfold accepts in Hacc. by case_bool_decide.
    + right. left. by rewrite Hp, Hr.
    + right. right. exists e. rewrite Hp, Hr. unfold accepts in Hacc.
      case_bool_decide; [done|]. by destruct f.
  - intros h cache_stats path r l. cbn [_compute_stats_task fst _pending_jobs].
    split; [done|]. set_solver.
  - intros h cache_stats job st'. cbn [step]. case_bool_decide as Hin; [|done].
    intros [= <-]. cbn [_compute_stats_task fst _pending_jobs].
    rewrite (proj1 (Forall_forall _ _) Hnorm job Hin). split; [set_solver|done].
Qed.

(** C9, as the code has it: after [shutdown_background_worker] the pool is
    gone and the module is no longer initialised, while the pending set and
    the jobs in hand stay; the next submission creates a pool of four
    workers again and is decided as any other: accepted, its job handed
    over, exactly when the path is not pending and the submission is forced
    or the cache entry has expired (what the cache check raises is
    raised). *)
Theorem submit_after_shutdown st ce path r l f :
  reachable st →
  _executor (shutdown_background_worker st) = None
  ∧ _initialized (shutdown_background_worker st) = false
  ∧ _pending_jobs (shutdown_background_worker st) = _pending_jobs st
  ∧ running (shutdown_background_worker st) = running st
  ∧ (submit_folder_for_processing ce (shutdown_background_worker st) path r l f).2
    = accepts ce st path f
  ∧ _executor (submit_folder_for_processing ce (shutdown_background_worker st) path r l f).1
    = Some {| max_workers := 4; thread_name_prefix := "folder-stats-" |}
  ∧ running (submit_folder_for_processing ce (shutdown_background_worker st) path r l f).1
    = match accepts ce st path f with
      | Ok true => running st ++ [job_of path r l]
      | _ => running st
      end.
Proof.
  intros Hreach. pose proof (reachable_Inv st Hreach) as [Hpool _ _ _].
  assert (Inv (shutdown_background_worker st)) as [Hpool' _ _ _].
  { eapply Inv_step; [by apply reachable_Inv|]. by instantiate (1 := Shutdown). }
  assert (_executor (shutdown_background_worker st) = None
          ∧ _initialized (shutdown_background_worker st) = false
          ∧ _pending_jobs (shutdown_background_worker st) = _pending_jobs st
          ∧ running (shutdown_background_worker st) = running st) as (Hex & Hinit & Hp & Hr).
  { unfold shutdown_background_worker. destruct (_executor st) eqn:Hex; [done|].
    split_and!; try done. destruct (_initialized st) eqn:Hinit; [|done].
    destruct (proj1 Hpool Hinit) as [? ?]. congruence. }
  assert (accepts ce (shutdown_background_worker st) path f = accepts ce st path f) as Hacc
    by (unfold accepts; by rewrite Hp).
  split_and!; try done; rewrite submit_spec by done;
    rewrite Hacc; unfold ensure_initialized; rewrite Hinit, ?Hr;
    by destruct (accepts ce st path f) as [[|]|e].
Qed.

(** *** Batches, the pool and the introspection *)

(** Whether a check answers that the entry has expired. *)
Definition expired (answer : Result bool) : bool :=
  match answer with
  | Ok true => true
  | _ => false
  end.

(** The paths a batch adds to the pending set: those submitted by force or
    whose cache entry has expired, normalised. *)
Definition batch_accepted (is_cache_expired : CacheCheck) (force : bool)
    (folder_paths : list string) : list string :=
  filter (fun path => force || expired (is_cache_expired path) = true)
         (posixpath.normpath <$> folder_paths).

Lemma ensure_initialized_reachable st : reachable st → reachable (ensure_initialized st).
Proof.
  intros Hreach. eapply reachable_step; [exact Hreach|].
  instantiate (1 := Init 4). cbn [step]. unfold init_background_worker, ensure_initialized.
  by destruct (_initialized st).
Qed.

Lemma submit_reachable ce st path r l f :
  reachable st → reachable (submit_folder_for_processing ce st path r l f).1.
Proof.
  intros Hreach. eapply reachable_step; [exact Hreach|].
  by instantiate (1 := Submit ce path r l f).
Qed.

(** The loop of a batch: it returns the count it began with and the number
    of paths it made pending, or, the paths before it dealt with, raises
    what the check of a path raises, the first time a check consulted
    raises. *)
Lemma batch_submit_loop_spec ce folder_paths r l f : ∀ st submitted,
  reachable st →
  ∃ st' res,
    batch_submit_loop ce st folder_paths r l f submitted = (st', res)
    ∧ reachable st'
    ∧ match res with
      | Ok total =>
          _pending_jobs st' = _pending_jobs st ∪ list_to_set (batch_accepted ce f folder_paths)
          ∧ get_pending_job_count st' = get_pending_job_count st + (total - submitted)
          ∧ 0 ≤ total - submitted ≤ Z.of_nat (length folder_paths)
      | Raise e =>
          f = false
          ∧ ∃ done path rest,
              folder_paths = done ++ path :: rest
              ∧ ce (posixpath.normpath path) = Raise e
              ∧ (posixpath.normpath path ∉ _pending_jobs st')
              ∧ _pending_jobs st' = _pending_jobs st ∪ list_to_set (batch_accepted ce f done)
      end
    ∧ ((f = true ∨ Forall (fun path => ∃ b, ce (posixpath.normpath path) = Ok b) folder_paths) →
       ∃ total, res = Ok total)
    ∧ (∀ done path rest e,
         folder_paths = done ++ path :: rest →
         f = false →
         Forall (fun path => ∃ b, ce (posixpath.normpath path) = Ok b) done →
         ce (posixpath.normpath path) = Raise e →
         posixpath.normpath path ∉ _pending_jobs st →
         res = Raise e).
Proof.
  induction folder_paths as [|path paths IH]; intros st submitted Hreach.
  - exists st, (Ok submitted). cbn [batch_submit_loop].
    split_and!; [done|done|set_solver|lia|lia|simpl; lia|by eexists|].
    intros done path rest e Hnil. by destruct done.
  - cbn [batch_submit_loop].
    pose proof (submit_reachable ce st path r l f Hreach) as Hreach1.
    pose proof (reachable_Inv st Hreach) as [Hpool _ _ _].
    rewrite submit_spec in Hreach1 |- * by done.
    destruct (ensure_initialized_pending st) as (Hp & Hr & _).
    unfold batch_accepted in *. rewrite fmap_cons, filter_cons.
    destruct (accepts ce st path f) as [[|]|e] eqn:Hacc; cbn [fst] in Hreach1; cbn beta iota.
    + assert ((posixpath.normpath path ∉ _pending_jobs st)
              ∧ f || expired (ce (posixpath.normpath path)) = true) as [Hfree Hwanted].
      { unfold accepts in Hacc. case_bool_decide; [done|]. split; [done|].
        destruct f; [done|]. by rewrite Hacc. }
      destruct (IH _ (submitted + 1) Hreach1)
        as (st' & res & -> & Hreach' & Hres & Hanswers & Hraises).
      exists st', res. rewrite decide_True by done.
      split_and!; [done|done| | |].
      * unfold get_pending_job_count in *. cbn [_pending_jobs] in *.
        destruct res as [total|e].
        -- destruct Hres as (Hset & Hcount & Hn). split_and!.
           ++ rewrite Hset. set_solver.
           ++ rewrite Hcount, size_union by set_solver. rewrite size_singleton. lia.
           ++ lia.
           ++ simpl. lia.
        -- destruct Hres as (Hf & done & p & rest & -> & Hp' & Hfree' & Hset).
           split; [done|]. exists (path :: done), p, rest.
           split_and!; [done|done|done|].
           rewrite Hset, fmap_cons, filter_cons, decide_True by done. set_solver.
      * intros [?|Hall]; apply Hanswers; [by left|right]. by inversion Hall.
      * intros done p rest e Hsplit Hf Hdone Hp' Hfree'.
        destruct done as [|d done]; simplify_eq/=.
        { unfold accepts in Hacc. case_bool_decide; [done|]. congruence. }
        inversion Hdone as [|? ? [b Hb] Hdone']; subst.
        apply (Hraises done p rest e); [done|done|done|done|].
        cbn [_pending_jobs]. intros [Heq%elem_of_singleton|?]%elem_of_union; [|done].
        rewrite Heq in Hp'. congruence.
    + destruct (IH (ensure_initialized st) submitted Hreach1)
        as (st' & res & -> & Hreach' & Hres & Hanswers & Hraises).
      exists st', res. unfold get_pending_job_count in *. rewrite Hp in *.
      assert (_pending_jobs st ∪ list_to_set
                (if decide (f || expired (ce (posixpath.normpath path)) = true)
                 then posixpath.normpath path
                        :: filter (fun path => f || expired (ce path) = true)
                                  (posixpath.normpath <$> paths)
                 else filter (fun path => f || expired (ce path) = true)
                             (posixpath.normpath <$> paths))
              = _pending_jobs st ∪ list_to_set
                  (filter (fun path => f || expired (ce path) = true)
                          (posixpath.normpath <$> paths))) as Hsame.
      { unfold accepts in Hacc. case_bool_decide as Hpend.
        - case_decide; set_solver.
        - rewrite decide_False; [done|]. destruct f; [done|]. by rewrite Hacc. }
      split_and!; [done|done| | |].
      * destruct res as [total|e].
        -- destruct Hres as (Hset & Hcount & Hn). rewrite Hsame.
           split_and!; [done|done|lia|simpl; lia].
        -- destruct Hres as (Hf & done & p & rest & -> & Hp' & Hfree' & Hset).
           split; [done|]. exists (path :: done), p, rest.
           split_and!; [done|done|done|].
           rewrite Hset, fmap_cons, filter_cons.
           unfold accepts in Hacc. case_bool_decide as Hpend.
           ++ case_decide; set_solver.
           ++ rewrite decide_False; [done|]. destruct f; [done|]. by rewrite Hacc.
      * intros [?|Hall]; apply Hanswers; [by left|right]. by inversion Hall.
      * intros done p rest e Hsplit Hf Hdone Hp' Hfree'.
        destruct done as [|d done]; simplify_eq/=.
        { unfold accepts in Hacc. case_bool_decide; [done|]. congruence. }
        inversion Hdone as [|? ? [b Hb] Hdone']; subst.
        by apply (Hraises done p rest e).
    + assert ((posixpath.normpath path ∉ _pending_jobs st)
              ∧ f = false ∧ ce (posixpath.normpath path) = Raise e) as (Hfree & -> & Hraise).
      { unfold accepts in Hacc. case_bool_decide; [done|]. by destruct f. }
      exists (ensure_initialized st), (Raise e).
      split_and!; [done|done|done| | |].
      * exists [], path, paths. rewrite Hp.
        split_and!; [done|done|done|set_solver].
      * intros [?|Hall]; [done|]. inversion Hall as [|? ? [b Hb] _]; subst. congruence.
      * intros done p rest e' Hsplit _ Hdone Hp' _.
        destruct done as [|d done]; simplify_eq/=; [congruence|].
        inversion Hdone as [|? ? [b Hb] _]; subst. congruence.
Qed.

(** X17. A batch in any state the scheduler reaches. When it returns, it
    returns the number of paths it made pending: the pending set grows by
    exactly the paths (normalised) that are forced or expired, a path given
    twice or already pending counting once or not at all. It raises only
    what a cache check raises, at the first path, not pending and not
    forced, whose check raises, and there it does raise: the paths accepted
    before it stay pending, and no count is returned. Forced, or when every
    check answers, it returns. *)
Theorem batch_submit_folders_count ce st folder_paths r l f :
  reachable st →
  ∃ st' res,
    batch_submit_folders ce st folder_paths r l f = (st', res)
    ∧ reachable st'
    ∧ (∀ n, res = Ok n →
         _pending_jobs st' = _pending_jobs st ∪ list_to_set (batch_accepted ce f folder_paths)
         ∧ get_pending_job_count st' = get_pending_job_count st + n
         ∧ 0 ≤ n ≤ Z.of_nat (length folder_paths))
    ∧ (∀ e, res = Raise e →
         f = false
         ∧ ∃ done path rest,
             folder_paths = done ++ path :: rest
             ∧ ce (posixpath.normpath path) = Raise e
             ∧ (posixpath.normpath path ∉ _pending_jobs st')
             ∧ _pending_jobs st' = _pending_jobs st ∪ list_to_set (batch_accepted ce f done))
    ∧ ((f = true ∨ Forall (fun path => ∃ b, ce (posixpath.normpath path) = Ok b) folder_paths) →
       ∃ n, res = Ok n)
    ∧ (∀ done path rest e,
         folder_paths = done ++ path :: rest →
         f = false →
         Forall (fun path => ∃ b, ce (posixpath.normpath path) = Ok b) done →
         ce (posixpath.normpath path) = Raise e →
         posixpath.normpath path ∉ _pending_jobs st →
         res = Raise e).
Proof.
  intros Hreach. unfold batch_submit_folders. rewrite lazy_init.
  destruct (batch_submit_loop_spec ce folder_paths r l f (ensure_initialized st) 0
              (ensure_initialized_reachable st Hreach))
    as (st' & res & Hloop & Hreach' & Hres & Hanswers & Hraises).
  destruct (ensure_initialized_pending st) as (Hp & _ & _).
  exists st', res. rewrite Hloop. unfold get_pending_job_count in *. rewrite Hp in *.
  split_and!; [done|done| | |done|done].
  - intros n ->. destruct Hres as (Hset & Hcount & [Hn1 Hn2]). rewrite Z.sub_0_r in *.
    by split_and!.
  - by intros e ->.
Qed.

(** X18. The life of the pool, from any state the scheduler reaches. Once
    [init_background_worker] has returned, the module is initialised and any
    later call of it, with any number of workers, returns with nothing
    changed: the pool keeps its first size. A first call creates the pool
    of the size asked, which is positive (otherwise the call raises). The
    pending set and the jobs in hand are not touched. Shutting down twice is
    shutting down once, and an initialisation after a shutdown creates a
    pool of the size it is given. *)
Theorem worker_pool_lifecycle st n st' :
  reachable st →
  init_background_worker st n = Ok st' →
  _initialized st' = true
  ∧ (∀ m, init_background_worker st' m = Ok st')
  ∧ (_initialized st = false →
     0 < n ∧ _executor st' = Some {| max_workers := n; thread_name_prefix := "folder-stats-" |})
  ∧ (_initialized st = true → st' = st)
  ∧ _pending_jobs st' = _pending_jobs st
  ∧ running st' = running st
  ∧ shutdown_background_worker (shutdown_background_worker st')
    = shutdown_background_worker st'
  ∧ (∀ m, 0 < m →
       init_background_worker (shutdown_background_worker st') m
       = Ok {| _executor := Some {| max_workers := m; thread_name_prefix := "folder-stats-" |};
               _pending_jobs := _pending_jobs st;
               _initialized := true;
               running := running st |}).
Proof.
  intros Hreach Hinit. pose proof (reachable_Inv st Hreach) as [Hpool _ _ _].
  unfold init_background_worker in Hinit.
  destruct (_initialized st) eqn:Hst; cbn [negb] in Hinit.
  - injection Hinit as <-. destruct (proj1 Hpool Hst) as [pool Hex].
    unfold init_background_worker, shutdown_background_worker.
    rewrite Hst, Hex. cbn [negb _executor _initialized _pending_jobs running].
    split_and!; try done.
    intros m Hm. by rewrite (proj2 (Z.leb_gt m 0)) by done.
  - destruct (n <=? 0) eqn:Hn; [done|]. apply Z.leb_gt in Hn. injection Hinit as <-.
    unfold init_background_worker, shutdown_background_worker.
    cbn [negb _executor _initialized _pending_jobs running].
    split_and!; try done.
    intros m Hm. by rewrite (proj2 (Z.leb_gt m 0)) by done.
Qed.

(** X19. What the introspection functions answer in any state the scheduler
    reaches: the pending count is the length of the list of pending paths
    and the number of jobs handed over and not finished; the list has no
    path twice and holds the paths of those jobs, each in normal form; and a
    path is reported pending exactly when its normal form is in the list,
    however it is spelled. *)
Theorem pending_introspection st :
  reachable st →
  get_pending_job_count st = Z.of_nat (length (get_pending_jobs st))
  ∧ get_pending_job_count st = Z.of_nat (length (running st))
  ∧ NoDup (get_pending_jobs st)
  ∧ get_pending_jobs st ≡ₚ job_folder_path <$> running st
  ∧ (∀ path, path ∈ get_pending_jobs st → posixpath.normpath path = path)
  ∧ (∀ path, is_job_pending st path = true ↔ posixpath.normpath path ∈ get_pending_jobs st)
  ∧ (∀ path, is_job_pending st (posixpath.normpath path) = is_job_pending st path).
Proof.
  intros Hreach. pose proof (reachable_Inv st Hreach) as [_ Hnd Hpend Hnorm].
  unfold get_pending_job_count, get_pending_jobs, is_job_pending.
  assert (_pending_jobs st = list_to_set (job_folder_path <$> running st)) as Hset.
  { apply set_eq. intros path. by rewrite Hpend, elem_of_list_to_set. }
  split_and!.
  - done.
  - by rewrite Hset, size_list_to_set, length_fmap.
  - apply NoDup_elements.
  - rewrite Hset. by apply elements_list_to_set.
  - intros path [job [-> Hjob]]%elem_of_elements%Hpend%list_elem_of_fmap.
    by apply (proj1 (Forall_forall _ _) Hnorm).
  - intros path. by rewrite bool_decide_eq_true, elem_of_elements.
  - intros path. by rewrite posixpath.normpath_idempotent.
Qed.

Lemma finish_job_length job jobs :
  job ∈ jobs → length (finish_job job jobs) = (length jobs - 1)%nat.
Proof.
  induction jobs as [|j jobs IH]; [by intros ?%elem_of_nil|].
  cbn [finish_job]. case_bool_decide as Heq; [simpl; lia|].
  intros [->|Hin]%elem_of_cons; [done|]. cbn [length]. rewrite IH by done.
  destruct jobs; [by apply elem_of_nil in Hin|simpl; lia].
Qed.

Lemma pending_count_running st :
  Inv st → get_pending_job_count st = Z.of_nat (length (running st)).
Proof.
  intros [_ Hnd Hpend _]. unfold get_pending_job_count.
  assert (_pending_jobs st = list_to_set (job_folder_path <$> running st)) as ->.
  { apply set_eq. intros path. by rewrite Hpend, elem_of_list_to_set. }
  by rewrite size_list_to_set, length_fmap.
Qed.

(** X20. A job handed over comes to its end, whatever its computation
    does: the worker's step is defined, the pending count goes down by one,
    the path of the job is no longer pending, and a forced submission of
    that path is accepted again. *)
Theorem finished_job_leaves st h cache_stats job :
  reachable st → job ∈ running st →
  ∃ st',
    step st (Finish h cache_stats job) = Some st'
    ∧ reachable st'
    ∧ get_pending_job_count st' = get_pending_job_count st - 1
    ∧ is_job_pending st' (job_folder_path job) = false
    ∧ (∀ ce r l,
         (submit_folder_for_processing ce st' (job_folder_path job) r l true).2 = Ok true).
Proof.
  intros Hreach Hin.
  destruct (step st (Finish h cache_stats job)) as [st'|] eqn:Hstep;
    [|by cbn [step] in Hstep; rewrite bool_decide_eq_true_2 in Hstep].
  exists st'. pose proof (reachable_step _ _ _ Hreach Hstep) as Hreach'.
  pose proof (reachable_Inv _ Hreach) as Hinv. pose proof (reachable_Inv _ Hreach') as Hinv'.
  assert (posixpath.normpath (job_folder_path job) = job_folder_path job) as Hnormal.
  { destruct Hinv as [_ _ _ Hnorm]. by apply (proj1 (Forall_forall _ _) Hnorm). }
  assert (job_folder_path job ∉ _pending_jobs st') as Hgone.
  { cbn [step] in Hstep. rewrite bool_decide_eq_true_2 in Hstep by done.
    injection Hstep as <-. cbn [_compute_stats_task fst _pending_jobs].
    rewrite Hnormal. set_solver. }
  split_and!; [done|done| | |].
  - rewrite !pending_count_running by done.
    cbn [step] in Hstep. rewrite bool_decide_eq_true_2 in Hstep by done.
    injection Hstep as <-. cbn [_compute_stats_task fst running].
    rewrite finish_job_length by done.
    destruct (running st); [by apply elem_of_nil in Hin|simpl; lia].
  - unfold is_job_pending. rewrite Hnormal. by apply bool_decide_eq_false.
  - intros ce r l. rewrite submit_spec by apply Hinv'.
    unfold accepts. rewrite Hnormal.
    by rewrite (bool_decide_eq_false_2 (job_folder_path job ∈ _pending_jobs st')).
Qed.

End folder_stats_bg.

(** ** Worked examples

    A folder [/data] with one picture, in a catalog that gives the picture
    some custom tags. *)

Module Examples.

Import Catalog Host folder_stats folder_stats_bg.

(** *** A database

    The Unicode database cut down to Latin-1: beyond U+00FF no character is
    a letter, and none is changed by [lower()]. A character of Latin-1 above
    ASCII is two bytes, the first [0xC2] or [0xC3]. *)

Definition latin1_isalnum (c : string) : bool :=
  match c with
  | String a EmptyString =>
      Unicode.is_ascii a && (Re.is_digit a || Re.is_lower a || Re.in_range 65 90 a)
  | String a (String b EmptyString) =>
      let n := nat_of_ascii b in
      (nat_of_ascii a =? 194)%nat
      && bool_decide (n ∈ [170; 178; 179; 181; 185; 186; 188; 189; 190]%nat)
      || (nat_of_ascii a =? 195)%nat && Re.in_range 128 191 b
         && negb (n =? 151)%nat && negb (n =? 183)%nat
  | _ => false
  end.

(** [after_c3]: the byte before was [0xC3]; the capital letters U+00C0 to
    U+00DE, but for the sign U+00D7, are 32 below their small letters. *)
Definition latin1_lower_byte (after_c3 : bool) (c : ascii) : ascii :=
  let n := nat_of_ascii c in
  if after_c3 && (128 <=? n)%nat && (n <=? 158)%nat && negb (n =? 151)%nat
  then ascii_of_nat (n + 32)
  else Str.lower_char c.

Fixpoint latin1_lower_from (after_c3 : bool) (s : string) : string :=
  match s with
  | EmptyString => EmptyString
  | String c s' =>
      String (latin1_lower_byte after_c3 c)
             (latin1_lower_from (nat_of_ascii c =? 195)%nat s')
  end.

Definition latin1_lower (s : string) : string := latin1_lower_from false s.

Lemma latin1_isalnum_ascii c :
  Unicode.is_ascii c = true →
  latin1_isalnum (String c "") = Re.is_digit c || Re.is_lower c || Re.in_range 65 90 c.
Proof. intros Hc. cbn [latin1_isalnum]. by rewrite Hc. Qed.

Lemma latin1_lower_byte_ascii after_c3 c :
  Unicode.is_ascii c = true → latin1_lower_byte after_c3 c = Str.lower_char c.
Proof.
  intros Hc. unfold Unicode.is_ascii in Hc. apply Nat.ltb_lt in Hc. unfold latin1_lower_byte.
  rewrite (proj2 (Nat.leb_gt 128 (nat_of_ascii c))) by lia. by rewrite andb_false_r.
Qed.

Lemma latin1_lower_ascii s :
  Str.all_chars Unicode.is_ascii s = true → latin1_lower s = Str.lower s.
Proof.
  unfold latin1_lower. generalize false.
  induction s as [|c s IH]; intros after_c3; [done|]. simpl.
  intros [Hc Hs]%andb_true_iff. by rewrite latin1_lower_byte_ascii, IH.
Qed.

Lemma latin1_lower_byte_small after_c3 d :
  (97 ≤ nat_of_ascii d ≤ 122 ∨ 160 ≤ nat_of_ascii d ≤ 190)%nat →
  latin1_lower_byte after_c3 d = d ∧ (nat_of_ascii d =? 195)%nat = false.
Proof.
  intros Hd. unfold latin1_lower_byte, Str.lower_char, Str.is_upper.
  assert ((nat_of_ascii d <=? 90)%nat = false) as -> by (apply Nat.leb_gt; lia).
  assert ((128 <=? nat_of_ascii d)%nat && (nat_of_ascii d <=? 158)%nat = false) as Hout.
  { apply andb_false_iff. destruct Hd; [left|right]; apply Nat.leb_gt; lia. }
  rewrite <- (andb_assoc after_c3), Hout, !andb_false_r. cbn [andb].
  split; [done|]. apply Nat.eqb_neq. lia.
Qed.

Lemma latin1_lower_byte_fixed after_c3 c :
  latin1_lower_byte after_c3 (latin1_lower_byte after_c3 c) = latin1_lower_byte after_c3 c
  ∧ (nat_of_ascii (latin1_lower_byte after_c3 c) =? 195)%nat = (nat_of_ascii c =? 195)%nat.
Proof.
  pose proof (nat_ascii_bounded c) as Hbound.
  remember (latin1_lower_byte after_c3 c) as c' eqn:Hc'.
  unfold latin1_lower_byte, Str.lower_char in Hc'.
  destruct (after_c3 && (128 <=? nat_of_ascii c)%nat && (nat_of_ascii c <=? 158)%nat
            && negb (nat_of_ascii c =? 151)%nat) eqn:Hcase.
  - apply andb_true_iff in Hcase
      as [[[_ H1%Nat.leb_le]%andb_true_iff H2%Nat.leb_le]%andb_true_iff _].
    destruct (latin1_lower_byte_small after_c3 c') as [-> ->].
    { subst c'. rewrite nat_ascii_embedding by lia. lia. }
    split; [done|]. symmetry. apply Nat.eqb_neq. lia.
  - destruct (Str.is_upper c) eqn:Hup.
    + unfold Str.is_upper in Hup.
      apply andb_true_iff in Hup as [H1%Nat.leb_le H2%Nat.leb_le].
      destruct (latin1_lower_byte_small after_c3 c') as [-> ->].
      { subst c'. rewrite nat_ascii_embedding by lia. lia. }
      split; [done|]. symmetry. apply Nat.eqb_neq. lia.
    + subst c'. split; [|done]. unfold latin1_lower_byte, Str.lower_char.
      by rewrite Hcase, Hup.
Qed.

Lemma latin1_lower_idempotent s : latin1_lower (latin1_lower s) = latin1_lower s.
Proof.
  unfold latin1_lower. generalize false.
  induction s as [|c s IH]; intros after_c3; [done|]. cbn [latin1_lower_from].
  destruct (latin1_lower_byte_fixed after_c3 c) as [-> ->]. by rewrite IH.
Qed.

Definition latin1 : Unicode.t :=
  {| Unicode.isalnum := latin1_isalnum;
     Unicode.lower := latin1_lower;
     Unicode.isalnum_ascii := latin1_isalnum_ascii;
     Unicode.lower_ascii := latin1_lower_ascii;
     Unicode.lower_idempotent := latin1_lower_idempotent |}.

(** *** A picture and its tags *)

Definition picture : ImageRow :=
  {| i_id := 1; i_path := "/data/a.png"; i_date := 10; i_exif := Some "a cat, a dog" |}.

Definition custom_tag (id : Z) : TagRow :=
  {| t_id := id; t_name := "tag"; t_type := "custom" |}.

Definition tagged (tag_id : Z) : ImageTagRow :=
  {| it_image_id := 1; it_tag_id := tag_id |}.

(** The catalog with the picture carrying the tags [tag_ids], in the order
    they were applied; [refused] are the statements that fail. *)
Definition catalog (tag_ids : list Z) (refused : Statement → option string) : Conn :=
  {| image := [picture];
     tag := custom_tag <$> tag_ids;
     image_tag := tagged <$> tag_ids;
     global_setting := ∅;
     failing := refused;
     engine := stable_engine |}.

Definition none_refused : Statement → option string := fun _ => None.

Definition host (conn : Conn) : Host.t :=
  {| cwd := "/";
     root := Dir (Some [("data", Dir (Some [("a.png", File (Some 100))]))]);
     is_media_file := fun _ => true;
     get_video_type := fun _ => None;
     db := conn;
     unicode := latin1 |}.

Lemma none_refused_healthy tag_ids : healthy (catalog tag_ids none_refused).
Proof. by intros st. Qed.

(** *** Percentages (C2) *)

Definition six_tags : Conn := catalog [1; 2; 3; 4; 5; 6] none_refused.

(** C2, counterexample: six tags applied once each to the picture. Every
    percentage is [round(1 / 6 * 100, 2)], that is 16.67, and the six add up
    to 100.02, more than 100. *)
Lemma percentages_exceed_100 :
  ¬ (PyFloat.sum_Q (percentage <$> get_top_tags (host six_tags) six_tags "/data" true 10 None)
     <= inject_Z 100)%Q.
Proof. intros H. apply Qle_bool_iff in H. vm_compute in H. discriminate H. Qed.

Lemma histogram_percentages_witness :
  PyFloat.percentage 5 0 = PyFloat.Int 0
  ∧ Forall (fun entry =>
              percentage entry
              = PyFloat.percentage (count entry)
                  (sum_entry_counts
                     (get_top_tags (host six_tags) six_tags "/data" true 10 None)))
           (get_top_tags (host six_tags) six_tags "/data" true 10 None)
  ∧ ∃ analysis total_words,
      analyze_prompt_words (host six_tags) six_tags "/data" true 20 None = Ok analysis
      ∧ sum_word_counts (top_words analysis) ≤ total_words.
Proof.
  destruct (histogram_percentages (host six_tags) six_tags "/data" true 10 None)
    as (H0 & Htags & _).
  destruct (histogram_percentages (host six_tags) six_tags "/data" true 20 None)
    as (_ & _ & Hwords).
  split_and!; [apply H0|exact Htags|].
  destruct (analyze_prompt_words (host six_tags) six_tags "/data" true 20 None)
    as [analysis|e] eqn:Hanalysis; [|by vm_compute in Hanalysis].
  destruct (Hwords analysis eq_refl) as (total_words & _ & Hle & _).
  by exists analysis, total_words.
Defined.

(** *** The counts of the tag histogram (C3) *)

Definition eleven_tags : Conn := catalog (seqZ 1 11) none_refused.

(** C3, counterexample: eleven tags applied to the picture and the limit
    of ten that [compute_folder_stats] passes. The picture is the one image
    analyzed, it has eleven tag applications, and the counts returned add
    up to ten. *)
Lemma top_tags_miss_an_application :
  fetch_images (host eleven_tags) eleven_tags "/data" true None = Ok [(1, "/data/a.png")]
  ∧ tag_applications eleven_tags [1] = 11
  ∧ sum_entry_counts (get_top_tags (host eleven_tags) eleven_tags "/data" true 10 None) = 10.
Proof. split_and!; vm_compute; reflexivity. Qed.

Lemma top_tags_counts_witness :
  sum_entry_counts (get_top_tags (host six_tags) six_tags "/data" true 10 None)
  = tag_applications six_tags [1]
  ∧ sum_entry_counts (get_top_tags (host eleven_tags) eleven_tags "/data" true 10 None)
    ≤ tag_applications eleven_tags [1].
Proof.
  split.
  - assert (fetch_images (host six_tags) six_tags (posixpath.normpath "/data") true None
            = Ok [(1, "/data/a.png")]) as Hfetch by (vm_compute; reflexivity).
    destruct (top_tags_counts (host six_tags) six_tags "/data" true 10 None _ Hfetch)
      as (_ & Heq & _).
    apply Heq; [vm_compute; reflexivity|right; vm_compute; discriminate].
  - assert (fetch_images (host eleven_tags) eleven_tags (posixpath.normpath "/data") true None
            = Ok [(1, "/data/a.png")]) as Hfetch by (vm_compute; reflexivity).
    destruct (top_tags_counts (host eleven_tags) eleven_tags "/data" true 10 None _ Hfetch)
      as (Hle & _).
    exact Hle.
Defined.

(** *** The order of the tag histogram (C5) *)

(** What the specification asks of the histogram: by count descending, and
    by tag identifier ascending among equal counts. *)
Fixpoint ordered_by_count_then_id (entries : list TagEntry) : bool :=
  match entries with
  | a :: rest =>
      match rest with
      | b :: _ =>
          ((count b <? count a) || ((count b =? count a) && (tag_id a <=? tag_id b)))
          && ordered_by_count_then_id rest
      | [] => true
      end
  | [] => true
  end.

(** Tag 2 was applied to the picture before tag 1. *)
Definition two_tags : Conn := catalog [2; 1] none_refused.

(** C5, counterexample: two tags applied once each, tag 2 before tag 1, in
    a catalog whose engine keeps rows of equal count in the order it met
    them. The histogram has tag 2 before tag 1: equal counts, identifiers
    descending. *)
Lemma top_tags_ties_not_by_id :
  (fun entry => (tag_id entry, count entry))
    <$> get_top_tags (host two_tags) two_tags "/data" true 10 None = [(2, 1); (1, 1)]
  ∧ ordered_by_count_then_id (get_top_tags (host two_tags) two_tags "/data" true 10 None)
    = false.
Proof. split; vm_compute; reflexivity. Qed.

(** *** Errors (C4) *)

(** The error strings a record carries. *)
Definition errors_of (record : FolderStatsRecord) : list string :=
  option_list (media_error (media_stats record))
  ++ option_list (prompt_error (prompt_analysis record))
  ++ option_list (metadata_summary record ≫= metadata_error).

Definition locked_histogram (st : Statement) : option string :=
  match st with
  | SelectTagCounts _ _ => Some "database is locked"
  | _ => None
  end.

Definition locked : Conn := catalog [1] locked_histogram.

(** C4, counterexample: the histogram query fails on a locked database.
    The validation passes, the [try] block of [get_top_tags] raises, and
    the record returned has the empty histogram and no error string
    anywhere. *)
Lemma failed_histogram_carries_no_error :
  Host.isdir (host locked) (posixpath.normpath "/data") = true
  ∧ top_tags_body (host locked) locked (posixpath.normpath "/data") true 10 None
    = Raise (DatabaseError "database is locked")
  ∧ ∃ record,
      compute_folder_stats (host locked) "/data" true true None = Ok record
      ∧ top_tags record = []
      ∧ errors_of record = [].
Proof.
  split_and!; [vm_compute; reflexivity|vm_compute; reflexivity|].
  destruct (compute_folder_stats (host locked) "/data" true true None)
    as [record|e] eqn:Hrecord; [|by vm_compute in Hrecord].
  exists record. split; [done|].
  vm_compute in Hrecord. injection Hrecord as <-. by split.
Qed.

(** A stopword setting that holds a number: the validation passes and the
    stopwords can not be read. [get_stopwords] is called outside the [try]
    of [analyze_prompt_words], and [compute_folder_stats] raises. *)
Lemma unreadable_stopwords_raise :
  compute_folder_stats
    (host (with_setting (catalog [1] none_refused) STOPWORDS_SETTING_KEY "[1]"))
    "/data" true true None
  = Raise (AttributeError "object has no attribute 'lower'").
Proof. vm_compute. reflexivity. Qed.

Lemma compute_folder_stats_errors_witness :
  compute_folder_stats (host locked) "/nowhere" true true None
    = Raise (ValueError "Invalid folder path: /nowhere")
  ∧ ∃ record,
      compute_folder_stats (host locked) "/data" true true None = Ok record
      ∧ top_tags record = [].
Proof.
  split.
  - apply (compute_folder_stats_errors (host locked) "/nowhere" true true None).
    left. vm_compute. reflexivity.
  - destruct (compute_folder_stats_errors (host locked) "/data" true true None)
      as [_ Hok].
    assert (Host.exists_ (host locked) (posixpath.normpath "/data") = true) as Hexists
      by (vm_compute; reflexivity).
    assert (Host.isdir (host locked) (posixpath.normpath "/data") = true) as Hisdir
      by (vm_compute; reflexivity).
    assert (get_stopwords (Host.get_conn (host locked))
            = Ok (list_to_set DEFAULT_STOPWORDS)) as Hstop
      by (by apply get_stopwords_unset).
    destruct (Hok Hexists Hisdir _ Hstop) as (record & Hrecord & _ & Htags & _).
    exists record. split; [exact Hrecord|].
    apply (Htags (DatabaseError "database is locked")). vm_compute. reflexivity.
Defined.

(** *** Stopwords (C8) *)



(** *** A limit of zero (C10) *)

(** C10 at the picture with six tags: with the limit zero the picture is
    analyzed, its metadata fetched and its six tags counted. *)
Lemma zero_limit_is_no_limit_witness :
  analyzed_count (get_media_stats (host six_tags) six_tags "/data" true (Some 0)) = 1
  ∧ limit_applied (get_media_stats (host six_tags) six_tags "/data" true (Some 0)) = true
  ∧ fetch_exif (host six_tags) six_tags "/data" true (Some 0)
    = Ok [("/data/a.png", "a cat, a dog")]
  ∧ length (get_top_tags (host six_tags) six_tags "/data" true 10 (Some 0)) = 6%nat.
Proof.
  destruct (zero_limit_is_no_limit (host six_tags) six_tags "/data" true 10)
    as (_ & _ & _ & Happlied & _ & _ & _ & _ & Hworking).
  destruct (Hworking (none_refused_healthy _))
    as (_ & Hexif & Hcount & Htags & _).
  split_and!; [|exact Happlied| |].
  - rewrite Hcount. vm_compute. reflexivity.
  - rewrite Hexif. vm_compute. reflexivity.
  - rewrite Htags. vm_compute. reflexivity.
Defined.

(** *** The scheduler (C1, C9) *)

Definition always_expired : CacheCheck := fun _ => Ok true.
Definition never_expired : CacheCheck := fun _ => Ok false.

(** A cache that cannot be read for the path [/bad]. *)
Definition locked_for_bad : CacheCheck :=
  fun path =>
    if bool_decide (path = "/bad") then Raise (DatabaseError "database is locked")
    else Ok true.
Definition cache_ok : CacheStats := fun _ _ => Ok ().

(** The state after [/data/] is submitted to the module as loaded. *)
Definition one_submitted : State :=
  (submit_folder_for_processing always_expired initial "/data/" true 500 false).1.

Lemma one_submitted_reachable : reachable one_submitted.
Proof.
  eapply reachable_step; [apply reachable_initial|].
  by instantiate (1 := Submit always_expired "/data/" true 500 false).
Qed.

Lemma one_pending_job_per_path_witness :
  (submit_folder_for_processing always_expired one_submitted "/data" true 500 true).2
    = Ok false
  ∧ get_pending_job_count
      (submit_folder_for_processing always_expired one_submitted "/data" true 500 true).1
    = get_pending_job_count one_submitted
  ∧ raises (_compute_stats_task (host six_tags) cache_ok one_submitted "/data" true 500).2
    = false
  ∧ ("/data" ∉ _pending_jobs
                 (_compute_stats_task (host six_tags) cache_ok one_submitted "/data" true 500).1)
  ∧ raises (_compute_stats_task (host six_tags) cache_ok one_submitted "/nowhere" true 500).2
    = true.
Proof.
  destruct (one_pending_job_per_path one_submitted one_submitted_reachable)
    as (_ & _ & Hdup & _ & Hdone & _).
  destruct (Hdup always_expired "/data" true 500 true) as (Hfalse & _ & Hcount & _).
  { apply elem_of_union_l, elem_of_singleton. vm_compute. reflexivity. }
  split_and!.
  - exact Hfalse.
  - exact Hcount.
  - vm_compute. reflexivity.
  - apply (Hdone (host six_tags) cache_ok "/data" true 500).
  - vm_compute. reflexivity.
Defined.

(** The state after the pool is created. *)
Definition initialized : State :=
  {| _executor := Some {| max_workers := 4; thread_name_prefix := "folder-stats-" |};
     _pending_jobs := ∅;
     _initialized := true;
     running := [] |}.

Lemma initialized_reachable : reachable initialized.
Proof.
  eapply reachable_step; [apply reachable_initial|]. by instantiate (1 := Init 4).
Qed.

(** C9, counterexample: the pool is created, shut down, and [/data] is
    submitted by force. The submission returns true and its job is handed
    to a new pool. *)
Lemma accepted_after_shutdown :
  (submit_folder_for_processing never_expired (shutdown_background_worker initialized)
     "/data" true 500 true).2 = Ok true
  ∧ running (submit_folder_for_processing never_expired
               (shutdown_background_worker initialized) "/data" true 500 true).1
    = [job_of "/data" true 500].
Proof. split; vm_compute; reflexivity. Qed.

Lemma submit_after_shutdown_witness :
  (submit_folder_for_processing always_expired (shutdown_background_worker initialized)
     "/data" true 500 false).2 = Ok true
  ∧ _initialized (shutdown_background_worker initialized) = false.
Proof.
  destruct (submit_after_shutdown initialized always_expired "/data" true 500 false
              initialized_reachable) as (_ & Hinit & _ & _ & Hresult & _).
  split; [exact Hresult|exact Hinit].
Defined.

(** *** A gallery

    The folder [/data] with a picture and a video, and a picture in its
    subfolder [sub]; beside it the folder [/other]. *)

Definition nl_join (lines : list string) : string := Str.join_char Text.nl lines.

Definition gallery_images : list ImageRow :=
  [ {| i_id := 1; i_path := "/data/a.png"; i_date := 10;
       i_exif := Some (nl_join ["a cat, a Dog"; "Negative prompt: bad hands";
                                "Steps: 20, Size: 512x768, Model: sdxl"]) |};
    {| i_id := 2; i_path := "/data/sub/b.png"; i_date := 20;
       i_exif := Some (nl_join ["a dog"; "Steps: 5, Size: 512X768"]) |};
    {| i_id := 3; i_path := "/data/c.mp4"; i_date := 30; i_exif := None |};
    {| i_id := 4; i_path := "/other/d.png"; i_date := 40; i_exif := Some "a bird" |} ].

Definition gallery : Conn :=
  {| image := gallery_images;
     tag := [custom_tag 1; custom_tag 2; {| t_id := 3; t_name := "size"; t_type := "size" |}];
     image_tag := [ {| it_image_id := 1; it_tag_id := 1 |};
                    {| it_image_id := 2; it_tag_id := 1 |};
                    {| it_image_id := 2; it_tag_id := 2 |};
                    {| it_image_id := 3; it_tag_id := 3 |} ];
     global_setting := ∅;
     failing := none_refused;
     engine := stable_engine |}.

Definition museum : Host.t :=
  {| cwd := "/";
     root := Dir (Some [ ("data", Dir (Some [ ("a.png", File (Some 100));
                                             ("c.mp4", File (Some 1000));
                                             ("sub", Dir (Some [("b.png", File (Some 50))])) ]));
                         ("other", Dir (Some [("d.png", File None)])) ]);
     is_media_file := fun _ => true;
     get_video_type := fun path => if Str.contains ".mp4" path then Some "mp4" else None;
     db := gallery;
     unicode := latin1 |}.


Lemma gallery_stopwords : get_stopwords gallery = Ok (list_to_set DEFAULT_STOPWORDS).
Proof. by apply get_stopwords_unset. Qed.

(** X1 at a blob whose [Steps:] line comes before its [Negative prompt:]
    line: the cut is at the negative prompt, and the [Steps:] line stays. *)
Lemma extract_positive_prompt_prefix_witness :
  Str.contains Text.NEGATIVE_MARKER
    (Text.extract_positive_prompt (nl_join ["a cat"; "Steps: 5"; "Negative prompt: bad"]))
  = false
  ∧ Text.extract_positive_prompt (nl_join ["a cat"; "Steps: 5"; "Negative prompt: bad"])
    = nl_join ["a cat"; "Steps: 5"].
Proof.
  destruct (Text.extract_positive_prompt_prefix
              (nl_join ["a cat"; "Steps: 5"; "Negative prompt: bad"]))
    as (_ & Hnone & _ & _ & Hcut & _).
  split; [exact Hnone|].
  apply (Hcut (nl_join ["a cat"; "Steps: 5"]) " bad"); vm_compute; reflexivity.
Defined.

(** X2 at [Un CAFÉ]. *)
Lemma extract_words_case_insensitive_witness :
  Text.extract_words_from_text latin1 (Some (Unicode.lower latin1 "Un CAFÉ")) {["un"]} 2
  = Text.extract_words_from_text latin1 (Some "Un CAFÉ") {["un"]} 2.
Proof. exact (proj1 (Text.extract_words_case_insensitive latin1 "Un CAFÉ" {["un"]} 2)). Defined.

(** C7 at two texts with letters beyond ASCII: [é] is a word character,
    so [café] is a token; [É] is lower-cased to [é], which begins no token
    and leaves none to begin after it. *)
Lemma extract_words_from_text_spec_witness :
  Text.extract_words_from_text latin1 (Some "Café au lait") ∅ 2 = ["café"; "au"; "lait"]
  ∧ Text.extract_words_from_text latin1 (Some "École 1girl") ∅ 2 = ["1girl"].
Proof.
  destruct (Text.extract_words_from_text_spec latin1) as (_ & Hwords & _).
  split.
  - destruct (Hwords "Café au lait" ∅ 2) as (_ & _ & _ & -> & _). vm_compute. reflexivity.
  - destruct (Hwords "École 1girl" ∅ 2) as (_ & _ & _ & -> & _). vm_compute. reflexivity.
Defined.

(** X21 at a text with a hyphen at the end of a word and one inside a
    word. *)
Lemma extract_words_ends_witness :
  Text.extract_words_from_text latin1 (Some "Semi- auto-focus") ∅ 2 = ["semi"; "auto-focus"]
  ∧ Forall (fun w => Text.is_token latin1 w = true ∧ Text.ends_with_word latin1 w = true)
           (Text.extract_words_from_text latin1 (Some "Semi- auto-focus") ∅ 2).
Proof.
  split; [vm_compute; reflexivity|].
  exact (Text.extract_words_ends latin1 (Some "Semi- auto-focus") ∅ 2).
Defined.



(** X4 at [/data]: two files directly in it, three in its tree. *)
Lemma file_and_folder_counts_bounds_witness :
  file_count (get_file_and_folder_counts museum "/data" false) = 2
  ∧ file_count (get_file_and_folder_counts museum "/data" true) = 3
  ∧ counts_le (get_file_and_folder_counts museum "/data" false)
              (get_file_and_folder_counts museum "/data" true)
  ∧ 0 ≤ total_size_bytes (get_file_and_folder_counts museum "/data" false)
      ≤ total_size_bytes (get_file_and_folder_counts museum "/data" true).
Proof.
  destruct (file_and_folder_counts_bounds museum "/data" true) as (_ & Hle & _ & Hsize).
  split_and!; [vm_compute; reflexivity|vm_compute; reflexivity|exact Hle| |];
    apply Hsize; vm_compute; reflexivity.
Defined.

(** X5 at [/data]: the picture of the subfolder is left out. *)
Lemma non_recursive_rows_witness :
  fetch_images museum gallery "/data" false None = Ok [(1, "/data/a.png"); (3, "/data/c.mp4")].
Proof.
  destruct (non_recursive_rows museum gallery "/data" None) as (-> & _).
  vm_compute. reflexivity.
Defined.

(** X6 at [/data], for a file in it and a file of its subfolder. *)
Lemma direct_child_names_witness :
  is_direct_child museum "/data" "/data/a.png" = Ok true
  ∧ is_direct_child museum "/data" "/data/sub/b.png" = Ok false.
Proof.
  assert (Forall posixpath.name ["data"]) as Hdata by (by repeat constructor).
  assert (Forall posixpath.name ["a.png"]) as Ha by (by repeat constructor).
  assert (Forall posixpath.name ["sub"; "b.png"]) as Hb by (by repeat constructor).
  split.
  - by apply (direct_child_names museum ["data"] ["a.png"]).
  - by apply (direct_child_names museum ["data"] ["sub"; "b.png"]).
Defined.

(** X7 at [/data]: the picture of the subfolder is fetched, the picture of
    [/other] is not. *)
Lemma rows_under_folder_witness :
  (2, "/data/sub/b.png")
    ∈ [(1, "/data/a.png"); (2, "/data/sub/b.png"); (3, "/data/c.mp4")]
  ∧ ((4, "/other/d.png")
       ∉ [(1, "/data/a.png"); (2, "/data/sub/b.png"); (3, "/data/c.mp4")]).
Proof.
  assert (fetch_images museum gallery "/data" true None
          = Ok [(1, "/data/a.png"); (2, "/data/sub/b.png"); (3, "/data/c.mp4")]) as Hrows
    by (vm_compute; reflexivity).
  destruct (rows_under_folder museum gallery "/data" _ Hrows) as [Hall Honly].
  split.
  - apply (Hall {| i_id := 2; i_path := "/data/sub/b.png"; i_date := 20;
                   i_exif := Some (nl_join ["a dog"; "Steps: 5, Size: 512X768"]) |}).
    + apply list_elem_of_further, list_elem_of_here.
    + vm_compute. reflexivity.
  - intros Hin. apply Honly in Hin as (r & _ & _ & _ & Hstart); [|vm_compute; reflexivity].
    vm_compute in Hstart. discriminate Hstart.
Defined.

(** X8 at [/data] with the limit 2: the two latest are kept. *)
Lemma limit_keeps_most_recent_witness :
  ∃ kept dropped : list ImageRow,
    [(3, "/data/c.mp4"); (2, "/data/sub/b.png")]
      = (fun r => (i_id r, i_path r)) <$> kept
    ∧ length kept = 2%nat
    ∧ ∀ a b, a ∈ kept → b ∈ dropped → i_date b ≤ i_date a.
Proof.
  assert (fetch_images museum gallery "/data" true (Some 2)
          = Ok [(3, "/data/c.mp4"); (2, "/data/sub/b.png")]) as Hrows
    by (vm_compute; reflexivity).
  destruct (limit_keeps_most_recent museum gallery "/data" 2 _ ltac:(lia) Hrows)
    as (kept & dropped & Hkept & Hperm & Hlen & Hdate).
  exists kept, dropped. split_and!; [exact Hkept| |exact Hdate].
  apply (f_equal length) in Hkept. rewrite length_fmap in Hkept. by simpl in Hkept.
Defined.

(** X9 at [/data]: two pictures and a video. *)
Lemma media_stats_invariants_witness :
  total_images (get_media_stats museum gallery "/data" true None) = 2
  ∧ total_videos (get_media_stats museum gallery "/data" true None) = 1
  ∧ tagged_images (get_media_stats museum gallery "/data" true None)
      + untagged_images (get_media_stats museum gallery "/data" true None)
    = indexed_media (get_media_stats museum gallery "/data" true None)
  ∧ analyzed_count (get_media_stats museum gallery "/data" true (Some 2)) ≤ 2.
Proof.
  destruct (media_stats_invariants museum gallery "/data" true None)
    as (_ & Htagged & _).
  destruct (media_stats_invariants museum gallery "/data" true (Some 2))
    as (_ & _ & _ & _ & _ & _ & _ & Hlimit).
  split_and!; [vm_compute; reflexivity|vm_compute; reflexivity|exact Htagged|].
  by apply Hlimit.
Defined.

(** X10 at [/data]: tag 1 applied twice, tag 2 once; the tag of type
    [size] is not counted. *)
Lemma top_tags_entries_witness :
  (fun entry => (tag_id entry, count entry))
    <$> get_top_tags museum gallery "/data" true 10 None = [(1, 2); (2, 1)]
  ∧ NoDup (tag_id <$> get_top_tags museum gallery "/data" true 10 None)
  ∧ Z.of_nat (length (get_top_tags museum gallery "/data" true 10 None)) ≤ 10.
Proof.
  assert (fetch_images museum gallery (posixpath.normpath "/data") true None
          = Ok [(1, "/data/a.png"); (2, "/data/sub/b.png"); (3, "/data/c.mp4")]) as Hrows
    by (vm_compute; reflexivity).
  destruct (top_tags_entries museum gallery "/data" true 10 None _ Hrows)
    as (Hnodup & _ & Hlen).
  split_and!; [vm_compute; reflexivity|exact Hnodup|by apply Hlen].
Defined.

(** The rows with metadata of [/data], and their words. *)
Definition gallery_exif : list (string * string) :=
  [ ("/data/a.png", nl_join ["a cat, a Dog"; "Negative prompt: bad hands";
                             "Steps: 20, Size: 512x768, Model: sdxl"]);
    ("/data/sub/b.png", nl_join ["a dog"; "Steps: 5, Size: 512X768"]) ].

Lemma gallery_exif_fetched :
  fetch_exif museum gallery (posixpath.normpath "/data") true None = Ok gallery_exif.
Proof. vm_compute. reflexivity. Qed.

(** X11 at [/data]: [dog] twice, [cat] once, the negative prompt left
    out. *)
Lemma top_words_entries_witness :
  ∃ analysis,
    analyze_prompt_words museum gallery "/data" true 20 None = Ok analysis
    ∧ total_prompts_analyzed analysis = 2
    ∧ (fun entry => (word entry, word_count entry)) <$> top_words analysis
      = [("dog", 2); ("cat", 1)]
    ∧ NoDup (word <$> top_words analysis).
Proof.
  destruct (top_words_entries museum gallery "/data" true 20 None _ gallery_exif
              gallery_stopwords gallery_exif_fetched ltac:(done))
    as (analysis & Hanalysis & _ & Hprompts & _ & Hnodup & _).
  exists analysis. split_and!; [exact Hanalysis|exact Hprompts| |exact Hnodup].
  vm_compute in Hanalysis. injection Hanalysis as <-. vm_compute. reflexivity.
Defined.

(** X12 at [/data], for the words counted once. *)
Lemma top_words_ties_witness :
  ∃ analysis,
    analyze_prompt_words museum gallery "/data" true 20 None = Ok analysis
    ∧ word <$> filter (fun entry => word_count entry = 1) (top_words analysis)
        `prefix_of`
      filter (fun w => occurrences w (prompt_words latin1 (list_to_set DEFAULT_STOPWORDS)
                                        gallery_exif) = 1)
             (first_occurrences (prompt_words latin1 (list_to_set DEFAULT_STOPWORDS)
                                   gallery_exif)).
Proof.
  destruct (analyze_prompt_words museum gallery "/data" true 20 None)
    as [analysis|e] eqn:Hanalysis; [|by vm_compute in Hanalysis].
  exists analysis. split; [reflexivity|].
  exact (top_words_ties museum gallery "/data" true 20 None _ gallery_exif analysis 1
           gallery_stopwords gallery_exif_fetched Hanalysis).
Defined.

(** X13 at [/data]: one model, and the same size written with [x] and
    with [X], two keys. *)
Lemma metadata_summary_entries_witness :
  models (get_metadata_summary museum gallery "/data" true None) = [("sdxl", 1)]
  ∧ sizes (get_metadata_summary museum gallery "/data" true None)
    = [("512x768", 1); ("512X768", 1)]
  ∧ histogram_of (found_sizes gallery_exif)
      (sizes (get_metadata_summary museum gallery "/data" true None)).
Proof.
  destruct (metadata_summary_entries museum gallery "/data" true None _ gallery_exif_fetched)
    as (_ & _ & Hsizes & _).
  split_and!; [vm_compute; reflexivity|vm_compute; reflexivity|exact Hsizes].
Defined.


(** X15 at [/data] written with and without a closing separator. *)
Lemma compute_folder_stats_record_witness :
  compute_folder_stats museum "/data" true true (Some 2)
    = compute_folder_stats museum "/data/" true true (Some 2)
  ∧ compute_folder_stats museum "/data/" true false (Some 2)
    = without_metadata <$> compute_folder_stats museum "/data/" true true (Some 2).
Proof.
  destruct (compute_folder_stats_record museum "/data/" true true (Some 2))
    as (Hnormal & Hmeta & _).
  split; [exact Hnormal|exact Hmeta].
Defined.

(** A store with no entry, whose writes fail. *)
Definition broken_store : FolderStats :=
  {| is_cache_expired := fun _ => Ok true;
     get_cached_stats := fun _ => Ok None;
     cache_stats := fun _ _ => Raise (DatabaseError "database is locked") |}.

(** X16 at a forced call on a store whose writes fail. *)
Lemma get_cached_or_compute_stats_cases_witness :
  stats <$> get_cached_or_compute_stats museum broken_store "/data" true true true None
  = compute_folder_stats museum "/data" true true None.
Proof.
  destruct (get_cached_or_compute_stats_cases museum broken_store "/data" true true true None)
    as (_ & Hforced & _ & _).
  exact (Hforced eq_refl true eq_refl).
Defined.

(** X17: [/data] is pending, [/other] is given twice; one path is made
    pending. With a cache that cannot be read for [/bad], the batch raises
    at [/bad]: [/other] before it stays pending, [/more] after it is not
    reached. *)
Lemma batch_submit_folders_count_witness :
  (batch_submit_folders always_expired one_submitted ["/data"; "/other/"; "/other"]
     true 500 false).2 = Ok 1
  ∧ get_pending_job_count
      (batch_submit_folders always_expired one_submitted ["/data"; "/other/"; "/other"]
         true 500 false).1
    = get_pending_job_count one_submitted + 1
  ∧ (batch_submit_folders locked_for_bad one_submitted ["/other"; "/bad"; "/more"]
       true 500 false).2 = Raise (DatabaseError "database is locked")
  ∧ get_pending_jobs
      (batch_submit_folders locked_for_bad one_submitted ["/other"; "/bad"; "/more"]
         true 500 false).1
    ≡ₚ ["/data"; "/other"].
Proof.
  destruct (batch_submit_folders_count always_expired one_submitted
              ["/data"; "/other/"; "/other"] true 500 false one_submitted_reachable)
    as (st' & res & Hbatch & _ & Hreturned & _).
  assert ((batch_submit_folders always_expired one_submitted ["/data"; "/other/"; "/other"]
             true 500 false).2 = Ok 1) as Hone by (vm_compute; reflexivity).
  rewrite Hbatch in Hone |- *. cbn [fst snd] in *.
  destruct (Hreturned 1 Hone) as (_ & Hcount & _).
  split_and!; [exact Hone|exact Hcount|vm_compute; reflexivity|].
  vm_compute. apply Permutation_refl || apply perm_swap.
Defined.

(** X18: a second initialisation changes nothing, whatever it asks for; an
    initialisation after a shutdown creates the pool asked for. *)
Lemma worker_pool_lifecycle_witness :
  init_background_worker initialized 0 = Ok initialized
  ∧ init_background_worker (shutdown_background_worker initialized) 2
    = Ok {| _executor := Some {| max_workers := 2; thread_name_prefix := "folder-stats-" |};
            _pending_jobs := ∅;
            _initialized := true;
            running := [] |}.
Proof.
  destruct (worker_pool_lifecycle initial 4 initialized reachable_initial eq_refl)
    as (_ & Hagain & _ & _ & _ & _ & _ & Hnew).
  split; [apply Hagain|by apply Hnew].
Defined.

(** X19 after [/data/] is submitted, asking with another spelling. *)
Lemma pending_introspection_witness :
  get_pending_job_count one_submitted = Z.of_nat (length (running one_submitted))
  ∧ is_job_pending one_submitted "/data//" = true.
Proof.
  destruct (pending_introspection one_submitted one_submitted_reachable)
    as (_ & Hcount & _ & _ & _ & Hpending & _).
  split; [exact Hcount|]. apply Hpending. unfold get_pending_jobs. apply elem_of_elements.
  apply elem_of_union_l, elem_of_singleton. vm_compute. reflexivity.
Defined.

(** X20: the job of [/data/] ends, and [/data] is accepted again. *)
Lemma finished_job_leaves_witness :
  ∃ st',
    step one_submitted (Finish museum cache_ok (job_of "/data/" true 500)) = Some st'
    ∧ get_pending_job_count st' = 0
    ∧ (submit_folder_for_processing never_expired st' "/data" true 500 true).2 = Ok true.
Proof.
  destruct (finished_job_leaves one_submitted museum cache_ok (job_of "/data/" true 500)
              one_submitted_reachable)
    as (st' & Hstep & _ & Hcount & _ & Hagain); [apply list_elem_of_here|].
  exists st'. split_and!; [exact Hstep| |apply (Hagain never_expired true 500)].
  rewrite Hcount. vm_compute. reflexivity.
Defined.

End Examples.
